(** * Keyborg: keyboard-navigation detection (src/Keyborg.ts)

    A shallow embedding of [KeyborgState], [KeyborgCore] and [Keyborg].

    JavaScript objects are mutable and shared, so the embedding keeps an
    explicit store: a heap of cores, a heap of handles and a heap of windows,
    addressed by position.  Every method becomes a function on [World] that
    returns [option World]; [None] stands for a JavaScript [TypeError]
    (reading a property of [undefined]) or for following a strong reference
    the store does not hold, which no JavaScript execution can do.

    Subscriber callbacks are host code.  They are kept as opaque names and
    each invocation is recorded, in order, in the world's [trace], together
    with every entry into [KeyborgCore.update].

    [_lastId] is a JavaScript number; it is modelled by [nat], which agrees
    with the source for the first 2^53 identifiers. *)

From stdpp Require Import base option list strings pretty gmap.
From Stdlib Require Import ZArith Lia.

(** ** Plain JavaScript objects used as dictionaries

    [{ [id: string]: V }].  The keys used by the source are ["c1"], ["k2"], ...
    (never an integer index), so [Object.keys] lists them in insertion order:
    an association list without repeated keys. *)

Abbreviation JSObject V := (list (string * V)) (only parsing).

Fixpoint obj_get {V} (k : string) (o : JSObject V) : option V :=
  match o with
  | [] => None
  | (k', v) :: r => if decide (k = k') then Some v else obj_get k r
  end.

(** [k in o] *)
Definition obj_has {V} (k : string) (o : JSObject V) : bool :=
  match obj_get k o with Some _ => true | None => false end.

(** [o[k] = v]: an existing key keeps its place, a new key goes last. *)
Fixpoint obj_set {V} (k : string) (v : V) (o : JSObject V) : JSObject V :=
  match o with
  | [] => [(k, v)]
  | (k', v') :: r =>
      if decide (k = k') then (k, v) :: r else (k', v') :: obj_set k v r
  end.

(** [delete o[k]] *)
Fixpoint obj_delete {V} (k : string) (o : JSObject V) : JSObject V :=
  match o with
  | [] => []
  | (k', v') :: r =>
      if decide (k = k') then obj_delete k r else (k', v') :: obj_delete k r
  end.

(** [Object.keys(o)] *)
Definition obj_keys {V} (o : JSObject V) : list string := map fst o.

(** [for (const x of xs) body(x)], stopping at the first exception. *)
Fixpoint for_of {A S} (xs : list A) (body : A → S → option S) (s : S)
  : option S :=
  match xs with
  | [] => Some s
  | x :: r => match body x s with
              | Some s' => for_of r body s'
              | None => None
              end
  end.

(** ** The store *)

Abbreviation core_ref := nat (only parsing).
Abbreviation keyborg_ref := nat (only parsing).
Abbreviation win_ref := nat (only parsing).

(** DOM elements and subscriber callbacks are compared by identity only. *)
Abbreviation Element := nat (only parsing).
Abbreviation KeyborgCallback := nat (only parsing).

(** Key codes are JavaScript numbers. *)
Abbreviation KeyCode := Z (only parsing).

(** Modelled from the spec: [WeakRefInstance] (src/WeakRefInstance.ts is not
    part of the sources at hand).  The spec describes it as a holder that
    "wraps an object so it can be tracked without preventing garbage
    collection"; [deref] gives the object back, or [undefined] once the
    referent is gone. *)
Record WeakRefInstance := mkWeakRef { referent : core_ref }.

Record KeyborgState := mkKeyborgState {
  __keyborgCoreRefs : JSObject WeakRefInstance;
  _isNavigatingWithKeyboard : bool
}.

(** [KeyborgProps]: both fields are optional arrays of key codes. *)
Record KeyborgProps := mkProps {
  triggerKeys : option (list KeyCode);
  dismissKeys : option (list KeyCode)
}.

(** Timer handles come from [window.setTimeout], which returns an integer
    greater than zero; [number | undefined] becomes [option positive] and the
    truthiness test [if (this._timer)] becomes a test for [Some]. *)
Record KeyborgCore := mkCore {
  core_id : string;
  core_win : option win_ref;
  _isMouseUsedTimer : option positive;
  _dismissTimer : option positive;
  _triggerKeys : option (gset KeyCode);
  _dismissKeys : option (gset KeyCode)
}.

Record Keyborg := mkKeyborg {
  _id : string;
  _win : option win_ref;
  _core : option core_ref;
  _cb : list KeyborgCallback
}.

(** [win.__keyborg] *)
Record KeyborgSlot := mkSlot {
  core : core_ref;
  refs : JSObject keyborg_ref
}.

(** The two closures the source hands to [setTimeout]. *)
Inductive TimerTask :=
| MouseUsedExpired (this : core_ref)
| DismissCheck (this : core_ref) (win : win_ref) (was : option Element).

Record Timer := mkTimer {
  handle : positive;
  due : nat;
  task : TimerTask
}.

(** The three capturing listeners a core installs. *)
Inductive Listener :=
| OnFocusIn (this : core_ref)
| OnMouseDown (this : core_ref)
| OnKeyDown (this : core_ref).

Global Instance Listener_eq_dec : EqDecision Listener.
Proof. solve_decision. Defined.

Record Window := mkWindow {
  __keyborg : option KeyborgSlot;
  activeElement : option Element;
  timers : list Timer;
  nextTimer : positive;
  listeners : list Listener;
  focusEventInstalled : bool
}.

(** What the outside can observe of a run: a core's [update] being entered, a
    subscriber callback being called, a line on the console. *)
Inductive Effect :=
| Updated (this : core_ref) (isNavigatingWithKeyboard : bool)
| Notified (cb : KeyborgCallback) (isNavigatingWithKeyboard : bool)
| ConsoleError (msg : string).

Record World := mkWorld {
  _lastId : nat;
  _state : KeyborgState;
  cores : list (option KeyborgCore);
  keyborgs : list Keyborg;
  windows : list Window;
  now : nat;
  trace : list Effect;
  __DEV__ : bool
}.

(** A window the library has not touched. *)
Definition pristine_window : Window :=
  mkWindow None None [] 1%positive [] false.

(** Module load: [let _lastId = 0; const _state = new KeyborgState()]. *)
Definition initial_world (dev : bool) : World :=
  mkWorld 0 (mkKeyborgState [] false) [] [] [] 0 [] dev.

(** *** Field updates *)

Definition with_lastId (n : nat) (σ : World) : World :=
  mkWorld n (_state σ) (cores σ) (keyborgs σ) (windows σ) (now σ) (trace σ)
    (__DEV__ σ).
Definition with_state (s : KeyborgState) (σ : World) : World :=
  mkWorld (_lastId σ) s (cores σ) (keyborgs σ) (windows σ) (now σ) (trace σ)
    (__DEV__ σ).
Definition with_cores (cs : list (option KeyborgCore)) (σ : World) : World :=
  mkWorld (_lastId σ) (_state σ) cs (keyborgs σ) (windows σ) (now σ) (trace σ)
    (__DEV__ σ).
Definition with_keyborgs (ks : list Keyborg) (σ : World) : World :=
  mkWorld (_lastId σ) (_state σ) (cores σ) ks (windows σ) (now σ) (trace σ)
    (__DEV__ σ).
Definition with_windows (ws : list Window) (σ : World) : World :=
  mkWorld (_lastId σ) (_state σ) (cores σ) (keyborgs σ) ws (now σ) (trace σ)
    (__DEV__ σ).
Definition with_now (t : nat) (σ : World) : World :=
  mkWorld (_lastId σ) (_state σ) (cores σ) (keyborgs σ) (windows σ) t (trace σ)
    (__DEV__ σ).
Definition emit (es : list Effect) (σ : World) : World :=
  mkWorld (_lastId σ) (_state σ) (cores σ) (keyborgs σ) (windows σ) (now σ)
    (trace σ ++ es) (__DEV__ σ).

(** A strong reference to a core: the cell must hold a core. *)
Definition get_core (c : core_ref) (σ : World) : option KeyborgCore :=
  mjoin (cores σ !! c).

Definition put_core (c : core_ref) (K : KeyborgCore) (σ : World) : World :=
  with_cores (<[c := Some K]> (cores σ)) σ.

Definition put_keyborg (h : keyborg_ref) (H : Keyborg) (σ : World) : World :=
  with_keyborgs (<[h := H]> (keyborgs σ)) σ.

Definition put_window (w : win_ref) (W : Window) (σ : World) : World :=
  with_windows (<[w := W]> (windows σ)) σ.

(** Modelled from the spec: [WeakRefInstance.deref] (see [WeakRefInstance]).
    The referent is gone when the garbage collector has emptied its cell. *)
Definition deref (r : WeakRefInstance) (σ : World) : option KeyborgCore :=
  mjoin (cores σ !! referent r).

(** ** [Keyborg.update] (static) and [KeyborgCore.update] *)

(** [instance._cb.forEach((callback) => callback(isNavigatingWithKeyboard))]

    A subscriber is code of the host.  Here a subscriber observes: its call
    is recorded in the trace and returns.  A subscriber that throws, or that
    calls back into the library while the round is under way, is outside
    this model. *)
Definition Keyborg_update (instance : keyborg_ref) (b : bool) (σ : World)
  : option World :=
  match keyborgs σ !! instance with
  | Some H => Some (emit (map (λ cb, Notified cb b) (_cb H)) σ)
  | None => None
  end.

Definition KeyborgCore_update (this : core_ref) (b : bool) (σ : World)
  : option World :=
  match get_core this σ with
  | None => None
  | Some K =>
      let σ := emit [Updated this b] σ in
      match core_win K with
      | None => Some σ
      | Some w =>
          match windows σ !! w with
          | None => None
          | Some W =>
              match __keyborg W with
              | None => Some σ
              | Some slot =>
                  let keyborgs := refs slot in
                  for_of (obj_keys keyborgs)
                    (λ id σ', match obj_get id keyborgs with
                              | Some h => Keyborg_update h b σ'
                              | None => None
                              end) σ
              end
          end
      end
  end.

(** ** [KeyborgState] *)

Definition KeyborgState_getVal (σ : World) : bool :=
  _isNavigatingWithKeyboard (_state σ).

Definition KeyborgState_add (keyborg : core_ref) (σ : World) : option World :=
  match get_core keyborg σ with
  | None => None
  | Some K =>
      let id := core_id K in
      let s := _state σ in
      if obj_has id (__keyborgCoreRefs s) then Some σ
      else Some (with_state
                   (mkKeyborgState
                      (obj_set id (mkWeakRef keyborg) (__keyborgCoreRefs s))
                      (_isNavigatingWithKeyboard s)) σ)
  end.

Definition KeyborgState_remove (id : string) (σ : World) : World :=
  let s := _state σ in
  let refs' := obj_delete id (__keyborgCoreRefs s) in
  if decide (length (obj_keys refs') = 0)
  then with_state (mkKeyborgState refs' false) σ
  else with_state (mkKeyborgState refs' (_isNavigatingWithKeyboard s)) σ.

Definition KeyborgState_setVal (isNavigatingWithKeyboard : bool) (σ : World)
  : option World :=
  let s := _state σ in
  if decide (_isNavigatingWithKeyboard s = isNavigatingWithKeyboard)
  then Some σ
  else
    let σ1 :=
      with_state
        (mkKeyborgState (__keyborgCoreRefs s) isNavigatingWithKeyboard) σ in
    for_of (obj_keys (__keyborgCoreRefs s))
      (λ id σ',
         match obj_get id (__keyborgCoreRefs (_state σ')) with
         | None => None
         | Some ref =>
             match deref ref σ' with
             | Some _ =>
                 KeyborgCore_update (referent ref) isNavigatingWithKeyboard σ'
             | None => Some (KeyborgState_remove id σ')
             end
         end) σ1.

(** ** Host services used by the source *)

Definition with_slot (o : option KeyborgSlot) (W : Window) : Window :=
  mkWindow o (activeElement W) (timers W) (nextTimer W) (listeners W)
    (focusEventInstalled W).
Definition with_timers (ts : list Timer) (n : positive) (W : Window) : Window :=
  mkWindow (__keyborg W) (activeElement W) ts n (listeners W)
    (focusEventInstalled W).
Definition with_listeners (ls : list Listener) (W : Window) : Window :=
  mkWindow (__keyborg W) (activeElement W) (timers W) (nextTimer W) ls
    (focusEventInstalled W).
Definition with_focusEvent (b : bool) (W : Window) : Window :=
  mkWindow (__keyborg W) (activeElement W) (timers W) (nextTimer W)
    (listeners W) b.
Definition with_activeElement (a : option Element) (W : Window) : Window :=
  mkWindow (__keyborg W) a (timers W) (nextTimer W) (listeners W)
    (focusEventInstalled W).

(** [win.setTimeout(task, delay)]: the callback becomes runnable once the
    clock has reached [now + delay]; the handle is returned. *)
Definition setTimeout (w : win_ref) (tk : TimerTask) (delay : nat) (σ : World)
  : option (positive * World) :=
  W ← windows σ !! w;
  let h := nextTimer W in
  Some (h, put_window w
             (with_timers (timers W ++ [mkTimer h (now σ + delay) tk])
                (Pos.succ h) W) σ).

(** [win.clearTimeout(h)] *)
Definition clearTimeout (w : win_ref) (h : positive) (σ : World)
  : option World :=
  W ← windows σ !! w;
  Some (put_window w
          (with_timers (filter (λ t, handle t ≠ h) (timers W)) (nextTimer W) W)
          σ).

(** [target.addEventListener(type, listener, true)]: a listener already
    present is not added again. *)
Definition addEventListener (w : win_ref) (l : Listener) (σ : World)
  : option World :=
  W ← windows σ !! w;
  Some (put_window w
          (with_listeners
             (if decide (l ∈ listeners W) then listeners W
              else listeners W ++ [l]) W) σ).

Definition removeEventListener (w : win_ref) (l : Listener) (σ : World)
  : option World :=
  W ← windows σ !! w;
  Some (put_window w
          (with_listeners (filter (λ l', l' ≠ l) (listeners W)) W) σ).

(** Modelled from the spec: [setupFocusEvent] and [disposeFocusEvent]
    (src/FocusEvent.ts is not part of the sources at hand).  The spec says the
    shim is "installed once per window (idempotent ...); removed when no
    longer needed". *)
Definition setupFocusEvent (w : win_ref) (σ : World) : option World :=
  W ← windows σ !! w;
  Some (put_window w (with_focusEvent true W) σ).

Definition disposeFocusEvent (w : win_ref) (σ : World) : option World :=
  W ← windows σ !! w;
  Some (put_window w (with_focusEvent false W) σ).

(** ** Events *)

(** Modelled from the spec: the payload of [KeyborgFocusInEvent]
    (src/FocusEvent.ts), "a custom event carrying
    [{ relatedTarget, isFocusedProgrammatically }]", both possibly
    [undefined]. *)
Record KeyborgFocusInEventDetails := mkDetails {
  relatedTarget : option Element;
  isFocusedProgrammatically : option bool
}.

Record MouseEvent := mkMouseEvent {
  buttons : Z;
  clientX : Z;
  clientY : Z;
  screenX : Z;
  screenY : Z
}.

Record KeyboardEvent := mkKeyboardEvent { keyCode : KeyCode }.

(** ** [KeyborgCore] *)

Definition _dismissTimeout : nat := 500.

Definition with_core_win (o : option win_ref) (K : KeyborgCore) : KeyborgCore :=
  mkCore (core_id K) o (_isMouseUsedTimer K) (_dismissTimer K)
    (_triggerKeys K) (_dismissKeys K).
Definition with_isMouseUsedTimer (o : option positive) (K : KeyborgCore)
  : KeyborgCore :=
  mkCore (core_id K) (core_win K) o (_dismissTimer K) (_triggerKeys K)
    (_dismissKeys K).
Definition with_dismissTimer (o : option positive) (K : KeyborgCore)
  : KeyborgCore :=
  mkCore (core_id K) (core_win K) (_isMouseUsedTimer K) o (_triggerKeys K)
    (_dismissKeys K).

(** [if (keys?.length) { this._keys = new Set(keys) }] *)
Definition keys_of_props (keys : option (list KeyCode)) : option (gset KeyCode) :=
  match keys with
  | Some (k :: r) => Some (list_to_set (k :: r))
  | _ => None
  end.

(** [new KeyborgCore(win, props)]; the new core's address is returned. *)
Definition KeyborgCore_new (win : win_ref) (props : option KeyborgProps)
    (σ : World) : option (core_ref * World) :=
  let n := S (_lastId σ) in
  let K :=
    mkCore ("c" +:+ pretty n)%string (Some win) None None
      (props ≫= λ p, keys_of_props (triggerKeys p))
      (props ≫= λ p, keys_of_props (dismissKeys p)) in
  let this := length (cores σ) in
  let σ := with_cores (cores σ ++ [Some K]) (with_lastId n σ) in
  σ ← addEventListener win (OnFocusIn this) σ;
  σ ← addEventListener win (OnMouseDown this) σ;
  σ ← addEventListener win (OnKeyDown this) σ;
  σ ← setupFocusEvent win σ;
  σ ← KeyborgState_add this σ;
  Some (this, σ).

Definition KeyborgCore_dispose (this : core_ref) (σ : World) : option World :=
  K ← get_core this σ;
  match core_win K with
  | None => Some σ
  | Some win =>
      σ ← match _isMouseUsedTimer K with
           | Some h =>
               σ ← clearTimeout win h σ;
               K ← get_core this σ;
               Some (put_core this (with_isMouseUsedTimer None K) σ)
           | None => Some σ
           end;
      K ← get_core this σ;
      σ ← match _dismissTimer K with
           | Some h =>
               σ ← clearTimeout win h σ;
               K ← get_core this σ;
               Some (put_core this (with_dismissTimer None K) σ)
           | None => Some σ
           end;
      σ ← disposeFocusEvent win σ;
      σ ← removeEventListener win (OnFocusIn this) σ;
      σ ← removeEventListener win (OnMouseDown this) σ;
      σ ← removeEventListener win (OnKeyDown this) σ;
      K ← get_core this σ;
      let σ := put_core this (with_core_win None K) σ in
      Some (KeyborgState_remove (core_id K) σ)
  end.

(** [return !!this._win] *)
Definition KeyborgCore_isDisposed (this : core_ref) (σ : World) : option bool :=
  K ← get_core this σ;
  Some (match core_win K with Some _ => true | None => false end).

Definition _onFocusIn (this : core_ref) (e : KeyborgFocusInEventDetails)
    (σ : World) : option World :=
  K ← get_core this σ;
  match _isMouseUsedTimer K with
  | Some _ => Some σ
  | None =>
      if KeyborgState_getVal σ then Some σ
      else
        match relatedTarget e with
        | None => Some σ
        | Some _ =>
            match isFocusedProgrammatically e with
            | Some true | None => Some σ
            | Some false => KeyborgState_setVal true σ
            end
        end
  end.

Definition _onMouseDown (this : core_ref) (e : MouseEvent) (σ : World)
  : option World :=
  if (buttons e =? 0)%Z
     || ((clientX e =? 0)%Z && (clientY e =? 0)%Z
         && (screenX e =? 0)%Z && (screenY e =? 0)%Z)
  then Some σ
  else
    K ← get_core this σ;
    σ ← match core_win K with
         | Some win =>
             σ ← match _isMouseUsedTimer K with
                  | Some h => clearTimeout win h σ
                  | None => Some σ
                  end;
             '(h, σ) ← setTimeout win (MouseUsedExpired this) 1000 σ;
             K ← get_core this σ;
             Some (put_core this (with_isMouseUsedTimer (Some h) K) σ)
         | None => Some σ
         end;
    KeyborgState_setVal false σ.

Definition _scheduleDismiss (this : core_ref) (σ : World) : option World :=
  K ← get_core this σ;
  match core_win K with
  | None => Some σ
  | Some win =>
      σ ← match _dismissTimer K with
           | Some h =>
               σ ← clearTimeout win h σ;
               K ← get_core this σ;
               Some (put_core this (with_dismissTimer None K) σ)
           | None => Some σ
           end;
      W ← windows σ !! win;
      let was := activeElement W in
      '(h, σ) ← setTimeout win (DismissCheck this win was) _dismissTimeout σ;
      K ← get_core this σ;
      Some (put_core this (with_dismissTimer (Some h) K) σ)
  end.

(** [set.has(k)] on an optional set: [this._dismissKeys?.has(keyCode)] *)
Definition has_key (s : option (gset KeyCode)) (k : KeyCode) : bool :=
  match s with
  | Some s => bool_decide (k ∈ s)
  | None => false
  end.

Definition _onKeyDown (this : core_ref) (e : KeyboardEvent) (σ : World)
  : option World :=
  K ← get_core this σ;
  let isNavigatingWithKeyboard := KeyborgState_getVal σ in
  let keyCode := keyCode e in
  let triggerKeys := _triggerKeys K in
  if negb isNavigatingWithKeyboard
     && (match triggerKeys with
         | None => true
         | Some s => bool_decide (keyCode ∈ s)
         end)
  then KeyborgState_setVal true σ
  else if isNavigatingWithKeyboard && has_key (_dismissKeys K) keyCode
  then _scheduleDismiss this σ
  else Some σ.

(** *** Timer callbacks *)

(** The bodies of the two closures passed to [setTimeout]. *)
Definition run_task (tk : TimerTask) (σ : World) : option World :=
  match tk with
  | MouseUsedExpired this =>
      K ← get_core this σ;
      Some (put_core this (with_isMouseUsedTimer None K) σ)
  | DismissCheck this win was =>
      K ← get_core this σ;
      let σ := put_core this (with_dismissTimer None K) σ in
      W ← windows σ !! win;
      let cur := activeElement W in
      match was, cur with
      | Some a, Some b =>
          if decide (a = b) then KeyborgState_setVal false σ else Some σ
      | _, _ => Some σ
      end
  end.

(** The timer of window [w] with handle [h], if it is pending and its delay
    has elapsed. *)
Definition ready_timer (w : win_ref) (h : positive) (σ : World)
  : option Timer :=
  W ← windows σ !! w;
  t ← head (filter (λ t, handle t = h) (timers W));
  if decide (due t ≤ now σ) then Some t else None.

(** One turn of the host's event loop looking at timer [h] of window [w]:
    a ready timer is taken off the queue and its callback runs; otherwise
    nothing happens. *)
Definition fire_timer (w : win_ref) (h : positive) (σ : World) : option World :=
  match ready_timer w h σ with
  | None => Some σ
  | Some t =>
      σ ← clearTimeout w h σ;
      run_task (task t) σ
  end.

(** Time passes. *)
Definition advance (ms : nat) (σ : World) : World := with_now (now σ + ms) σ.

(** ** [Keyborg], the public handle *)

Definition with_cb (cbs : list KeyborgCallback) (H : Keyborg) : Keyborg :=
  mkKeyborg (_id H) (_win H) (_core H) cbs.
Definition with_core (o : option core_ref) (H : Keyborg) : Keyborg :=
  mkKeyborg (_id H) (_win H) o (_cb H).

(** [new Keyborg(win, props)] (reached through [Keyborg.create]); the new
    handle's address is returned. *)
Definition Keyborg_new (win : win_ref) (props : option KeyborgProps)
    (σ : World) : option (keyborg_ref * World) :=
  let n := S (_lastId σ) in
  let id := ("k" +:+ pretty n)%string in
  let this := length (keyborgs σ) in
  let σ :=
    with_keyborgs (keyborgs σ ++ [mkKeyborg id (Some win) None []])
      (with_lastId n σ) in
  W ← windows σ !! win;
  match __keyborg W with
  | Some current =>
      H ← keyborgs σ !! this;
      let σ := put_keyborg this (with_core (Some (core current)) H) σ in
      Some (this,
            put_window win
              (with_slot
                 (Some (mkSlot (core current) (obj_set id this (refs current))))
                 W) σ)
  | None =>
      '(c, σ) ← KeyborgCore_new win props σ;
      H ← keyborgs σ !! this;
      let σ := put_keyborg this (with_core (Some c) H) σ in
      W ← windows σ !! win;
      Some (this, put_window win (with_slot (Some (mkSlot c [(id, this)])) W) σ)
  end.

(** The message of [console.error] in [Keyborg.dispose]. *)
Definition dispose_diagnostic (id : string) : string :=
  ("Keyborg instance " +:+ id +:+ " is being disposed incorrectly.")%string.

(** The [else if (__DEV__)] branch of [Keyborg.dispose]. *)
Definition report_misuse (id : string) (σ : World) : World :=
  if __DEV__ σ then emit [ConsoleError (dispose_diagnostic id)] σ else σ.

Definition Keyborg_dispose (this : keyborg_ref) (σ : World) : option World :=
  H ← keyborgs σ !! this;
  σ ← match _win H with
       | None => Some (report_misuse (_id H) σ)
       | Some w =>
           W ← windows σ !! w;
           match __keyborg W with
           | None => Some (report_misuse (_id H) σ)
           | Some current =>
               match obj_get (_id H) (refs current) with
               | None => Some (report_misuse (_id H) σ)
               | Some _ =>
                   let refs' := obj_delete (_id H) (refs current) in
                   let σ :=
                     put_window w
                       (with_slot (Some (mkSlot (core current) refs')) W) σ in
                   if decide (length (obj_keys refs') = 0)
                   then
                     σ ← KeyborgCore_dispose (core current) σ;
                     W ← windows σ !! w;
                     Some (put_window w (with_slot None W) σ)
                   else Some σ
               end
           end
       end;
  H ← keyborgs σ !! this;
  Some (put_keyborg this (mkKeyborg (_id H) None None []) σ).

Definition Keyborg_isNavigatingWithKeyboard (this : keyborg_ref) (σ : World)
  : bool :=
  KeyborgState_getVal σ.

(** [this._cb.push(callback)] *)
Definition push (callback : KeyborgCallback) (cbs : list KeyborgCallback)
  : list KeyborgCallback :=
  cbs ++ [callback].

(** [Array.prototype.indexOf]: position of the first element identical to
    [callback], or [-1]. *)
Fixpoint indexOf (callback : KeyborgCallback) (cbs : list KeyborgCallback) : Z :=
  match cbs with
  | [] => -1
  | x :: r =>
      if decide (x = callback) then 0
      else let i := indexOf callback r in
           if (i <? 0)%Z then -1 else (i + 1)%Z
  end.

(** [cbs.splice(index, 1)] for [index >= 0] *)
Definition splice1 (index : Z) (cbs : list KeyborgCallback)
  : list KeyborgCallback :=
  take (Z.to_nat index) cbs ++ drop (S (Z.to_nat index)) cbs.

(** The list left in [_cb] by [unsubscribe(callback)]. *)
Definition unsubscribed (callback : KeyborgCallback)
    (cbs : list KeyborgCallback) : list KeyborgCallback :=
  let index := indexOf callback cbs in
  if (index >=? 0)%Z then splice1 index cbs else cbs.

Definition Keyborg_subscribe (this : keyborg_ref) (callback : KeyborgCallback)
    (σ : World) : option World :=
  H ← keyborgs σ !! this;
  Some (put_keyborg this (with_cb (push callback (_cb H)) H) σ).

Definition Keyborg_unsubscribe (this : keyborg_ref)
    (callback : KeyborgCallback) (σ : World) : option World :=
  H ← keyborgs σ !! this;
  Some (put_keyborg this (with_cb (unsubscribed callback (_cb H)) H) σ).

Definition Keyborg_setVal (this : keyborg_ref) (isNavigatingWithKeyboard : bool)
    (σ : World) : option World :=
  KeyborgState_setVal isNavigatingWithKeyboard σ.

(** [createKeyborg] and [disposeKeyborg], the exported functions. *)
Definition createKeyborg (win : win_ref) (props : option KeyborgProps)
    (σ : World) : option (keyborg_ref * World) :=
  Keyborg_new win props σ.

Definition disposeKeyborg (instance : keyborg_ref) (σ : World) : option World :=
  Keyborg_dispose instance σ.

(** ** The host: what can happen to a page that uses the library *)

(** The core whose listener of the given kind is attached to the window
    receives the event. *)
Definition dispatch (w : win_ref) (pick : Listener → option core_ref)
    (handler : core_ref → World → option World) (σ : World) : option World :=
  W ← windows σ !! w;
  for_of (omap pick (listeners W)) handler σ.

Inductive Action :=
| OpenWindow
| Create (win : win_ref) (props : option KeyborgProps)
| Dispose (instance : keyborg_ref)
| Subscribe (instance : keyborg_ref) (cb : KeyborgCallback)
| Unsubscribe (instance : keyborg_ref) (cb : KeyborgCallback)
| SetVal (instance : keyborg_ref) (b : bool)
| FocusIn (win : win_ref) (e : KeyborgFocusInEventDetails)
| MouseDown (win : win_ref) (e : MouseEvent)
| KeyDown (win : win_ref) (e : KeyboardEvent)
| MoveFocus (win : win_ref) (el : option Element)
| FireTimer (win : win_ref) (h : positive)
| Advance (ms : nat).

Definition perform (a : Action) (σ : World) : option World :=
  match a with
  | OpenWindow => Some (with_windows (windows σ ++ [pristine_window]) σ)
  | Create win props => snd <$> createKeyborg win props σ
  | Dispose h => disposeKeyborg h σ
  | Subscribe h cb => Keyborg_subscribe h cb σ
  | Unsubscribe h cb => Keyborg_unsubscribe h cb σ
  | SetVal h b =>
      match keyborgs σ !! h with
      | Some _ => Keyborg_setVal h b σ
      | None => None
      end
  | FocusIn w e =>
      dispatch w (λ l, match l with OnFocusIn c => Some c | _ => None end)
        (λ c, _onFocusIn c e) σ
  | MouseDown w e =>
      dispatch w (λ l, match l with OnMouseDown c => Some c | _ => None end)
        (λ c, _onMouseDown c e) σ
  | KeyDown w e =>
      dispatch w (λ l, match l with OnKeyDown c => Some c | _ => None end)
        (λ c, _onKeyDown c e) σ
  | MoveFocus w el =>
      W ← windows σ !! w;
      Some (put_window w (with_activeElement el W) σ)
  | FireTimer w h => fire_timer w h σ
  | Advance ms => Some (advance ms σ)
  end.

(** Running a script of actions from a given world. *)
Fixpoint run (script : list Action) (σ : World) : option World :=
  match script with
  | [] => Some σ
  | a :: r => match perform a σ with
              | Some σ' => run r σ'
              | None => None
              end
  end.

(** The worlds a page can be in: those some script leads to from module
    load. *)
Definition reachable (σ : World) : Prop :=
  ∃ dev script, run script (initial_world dev) = Some σ.


(** ** Well-formed stores

    JavaScript has no dangling strong references.  [sound] says so for the
    references the state singleton follows when it notifies: a core's window
    is in the store, the handles of a window's registry are in the store, and
    the core registry, being an object, has no key twice. *)
Definition sound (σ : World) : Prop :=
  Forall (λ oK, ∀ K w, oK = Some K → core_win K = Some w →
                       w < length (windows σ)) (cores σ)
  ∧ Forall (λ W, ∀ slot, __keyborg W = Some slot →
                         Forall (λ e, e.2 < length (keyborgs σ)) (refs slot))
      (windows σ)
  ∧ NoDup (obj_keys (__keyborgCoreRefs (_state σ))).

(** The core registry of the state singleton is empty. *)
Definition registry_empty (σ : World) : Prop :=
  __keyborgCoreRefs (_state σ) = [].

(** Core [c] is registered with the state singleton and has not been
    collected. *)
Definition registered (c : core_ref) (σ : World) : Prop :=
  ∃ K, get_core c σ = Some K
       ∧ obj_get (core_id K) (__keyborgCoreRefs (_state σ)) = Some (mkWeakRef c).

(** ** What the handlers leave alone

    Event handlers, timers, subscriptions and [setVal] never create or
    dispose anything: identifiers, the windows cores and handles belong to,
    and the windows' [__keyborg] entries stay as they are. *)
Definition core_view (K : KeyborgCore) : string * option win_ref :=
  (core_id K, core_win K).
Definition keyborg_view (H : Keyborg) : string * option win_ref :=
  (_id H, _win H).

Definition same_shape (σ σ' : World) : Prop :=
  _lastId σ' = _lastId σ
  ∧ fmap (M:=option) core_view <$> cores σ'
    = fmap (M:=option) core_view <$> cores σ
  ∧ keyborg_view <$> keyborgs σ' = keyborg_view <$> keyborgs σ
  ∧ __keyborg <$> windows σ' = __keyborg <$> windows σ
  ∧ __DEV__ σ' = __DEV__ σ.

Definition preserves (σ σ' : World) : Prop :=
  same_shape σ σ'
  ∧ (NoDup (obj_keys (__keyborgCoreRefs (_state σ))) →
     NoDup (obj_keys (__keyborgCoreRefs (_state σ')))).

(** ** The invariant of reachable worlds

    Stated on the views above: which window owns which core and which
    handles, and which identifiers are in use. *)
Definition win_slot (σ : World) (w : win_ref) : option (option KeyborgSlot) :=
  (__keyborg <$> windows σ) !! w.
Definition core_info (σ : World) (c : core_ref)
  : option (string * option win_ref) :=
  mjoin ((fmap (M:=option) core_view <$> cores σ) !! c).
Definition keyborg_info (σ : World) (h : keyborg_ref)
  : option (string * option win_ref) :=
  (keyborg_view <$> keyborgs σ) !! h.

Record well_formed (σ : World) : Prop := mk_well_formed {
  wf_core_win : ∀ c id w,
    core_info σ c = Some (id, Some w) → is_Some (win_slot σ w);
  wf_slot_refs : ∀ w slot,
    win_slot σ w = Some (Some slot) → refs slot ≠ [];
  wf_slot_core : ∀ w slot,
    win_slot σ w = Some (Some slot) →
    ∃ id, core_info σ (core slot) = Some (id, Some w);
  wf_slot_handles : ∀ w slot id h,
    win_slot σ w = Some (Some slot) → (id, h) ∈ refs slot →
    keyborg_info σ h = Some (id, Some w);
  wf_handle : ∀ h id w,
    keyborg_info σ h = Some (id, Some w) →
    ∃ slot, win_slot σ w = Some (Some slot) ∧ obj_get id (refs slot) = Some h;
  wf_handle_id : ∀ h id ow,
    keyborg_info σ h = Some (id, ow) →
    ∃ n : nat, id = ("k" +:+ pretty n)%string ∧ n ≤ _lastId σ;
  wf_handle_inj : ∀ h h' id ow ow',
    keyborg_info σ h = Some (id, ow) → keyborg_info σ h' = Some (id, ow') →
    h = h';
  wf_registry : NoDup (obj_keys (__keyborgCoreRefs (_state σ)))
}.

(** ** What the spec says, in its own words *)

(** "[unsubscribe] removes only the first matching occurrence": the list
    without the first element equal to [callback], and the same list when
    there is none. *)
Fixpoint without_first (callback : KeyborgCallback)
    (cbs : list KeyborgCallback) : list KeyborgCallback :=
  match cbs with
  | [] => []
  | x :: r => if decide (x = callback) then r else x :: without_first callback r
  end.

(** The handle's identifier is a key of the handle registry of the window
    the handle holds: the test [current?.refs[this._id]] of
    [Keyborg.dispose]. *)
Definition handle_registered (h : keyborg_ref) (σ : World) : bool :=
  match keyborgs σ !! h with
  | Some H =>
      match _win H with
      | Some w =>
          match windows σ !! w with
          | Some W =>
              match __keyborg W with
              | Some current =>
                  match obj_get (_id H) (refs current) with
                  | Some _ => true
                  | None => false
                  end
              | None => false
              end
          | None => false
          end
      | None => false
      end
  | None => false
  end.

(** A disposal that went from [σ] to [σ'] touched nothing but the handle
    itself and, in a development build, the console. *)
Definition only_reported (h : keyborg_ref) (σ σ' : World) : Prop :=
  windows σ' = windows σ
  ∧ cores σ' = cores σ
  ∧ _state σ' = _state σ
  ∧ ∃ H, keyborgs σ !! h = Some H
         ∧ keyborgs σ' = <[h := mkKeyborg (_id H) None None []]> (keyborgs σ)
         ∧ trace σ'
           = trace σ ++ (if __DEV__ σ
                         then [ConsoleError (dispose_diagnostic (_id H))]
                         else []).

(** What [KeyborgCore.dispose] leaves of the core's window: the core's two
    timers are cleared, its three listeners removed, the focus-event shim
    taken down. *)
Definition window_after_dispose (c : core_ref) (K : KeyborgCore) (W : Window)
  : Window :=
  let ts1 := match _isMouseUsedTimer K with
             | Some h => filter (λ t, handle t ≠ h) (timers W)
             | None => timers W
             end in
  let ts2 := match _dismissTimer K with
             | Some h => filter (λ t, handle t ≠ h) ts1
             | None => ts1
             end in
  mkWindow (__keyborg W) (activeElement W) ts2 (nextTimer W)
    (filter (λ l, l ≠ OnKeyDown c)
       (filter (λ l, l ≠ OnMouseDown c)
          (filter (λ l, l ≠ OnFocusIn c) (listeners W))))
    false.

(** What a real click leaves of the core's window: the mouse-used timer is
    restarted, to expire one second from [t]. *)
Definition window_after_mousedown (c : core_ref) (K : KeyborgCore) (t : nat)
    (W : Window) : Window :=
  with_timers
    (match _isMouseUsedTimer K with
     | Some h => filter (λ t, handle t ≠ h) (timers W)
     | None => timers W
     end ++ [mkTimer (nextTimer W) (t + 1000) (MouseUsedExpired c)])
    (Pos.succ (nextTimer W)) W.

(** ** What a notification round produces

    The trace one call adds, read off [Keyborg.update], [KeyborgCore.update]
    and the loop of [KeyborgState.setVal]. *)

(** [Keyborg.update(instance, b)]: the handle's callbacks, in order. *)
Definition handle_effects (b : bool) (σ : World) (h : keyborg_ref)
  : list Effect :=
  match keyborgs σ !! h with
  | Some H => map (λ cb, Notified cb b) (_cb H)
  | None => []
  end.

(** [core.update(b)]: the handles of the core's window, in the order of
    [Object.keys(refs)]. *)
Definition update_effects (b : bool) (σ : World) (c : core_ref) : list Effect :=
  Updated c b ::
  match get_core c σ ≫= core_win with
  | Some w =>
      match windows σ !! w ≫= __keyborg with
      | Some slot =>
          flat_map (λ id, match obj_get id (refs slot) with
                          | Some h => handle_effects b σ h
                          | None => []
                          end)
            (obj_keys (refs slot))
      | None => []
      end
  | None => []
  end.

(** The registry entries whose core has not been collected. *)
Definition live_refs (σ : World) : JSObject WeakRefInstance :=
  filter (λ e, is_Some (deref e.2 σ)) (__keyborgCoreRefs (_state σ)).

(** A [setVal(b)] that changes the value: the cores still alive are updated
    in registration order. *)
Definition setVal_effects (b : bool) (σ : World) : list Effect :=
  flat_map (λ e, update_effects b σ (referent e.2)) (live_refs σ).

(** ... and the state singleton it leaves: the dead entries are gone; the
    value is [b], unless entries were dropped and none is left. *)
Definition state_after_setVal (b : bool) (σ : World) : KeyborgState :=
  mkKeyborgState (live_refs σ)
    (if decide (live_refs σ = [] ∧ __keyborgCoreRefs (_state σ) ≠ [])
     then false else b).

(** No handle has a subscriber: a notification round runs no code of the
    host. *)
Definition no_subscribers (σ : World) : Prop :=
  Forall (λ H, _cb H = []) (keyborgs σ).

(** ** Listeners

    What a window shows of the library: the core of its [__keyborg] entry,
    the listeners attached to it, and whether the focus-event shim is
    installed. *)
Definition listen_view (W : Window) : option core_ref * list Listener * bool :=
  (core <$> __keyborg W, listeners W, focusEventInstalled W).

(** The three listeners of a core, in the order the constructor attaches
    them. *)
Definition listeners_of (c : core_ref) : list Listener :=
  [OnFocusIn c; OnMouseDown c; OnKeyDown c].

(** A window with a core carries exactly that core's listeners and the shim;
    a window without one carries nothing. *)
Definition tidy_view (v : option core_ref * list Listener * bool) : Prop :=
  match v.1.1 with
  | Some c => v.1.2 = listeners_of c ∧ v.2 = true
  | None => v.1.2 = [] ∧ v.2 = false
  end.

Definition tidy (σ : World) : Prop :=
  Forall tidy_view (listen_view <$> windows σ).

(** From [σ] to [σ'] no window changed its core, listeners or shim. *)
Definition same_listeners (σ σ' : World) : Prop :=
  listen_view <$> windows σ' = listen_view <$> windows σ.

(** [addEventListener] on a list of listeners. *)
Definition attached (l : Listener) (ls : list Listener) : list Listener :=
  if decide (l ∈ ls) then ls else ls ++ [l].

(** What the constructor of [KeyborgCore] leaves of the window: the core's
    three listeners attached, the focus-event shim installed. *)
Definition window_after_new (c : core_ref) (W : Window) : Window :=
  mkWindow (__keyborg W) (activeElement W) (timers W) (nextTimer W)
    (attached (OnKeyDown c)
       (attached (OnMouseDown c) (attached (OnFocusIn c) (listeners W))))
    true.

(** ** Identifiers

    The registry keys of the state singleton are core identifiers, ["c"]
    followed by a value the counter [_lastId] has had. *)
Definition ids_issued (σ : World) : Prop :=
  ∀ e, e ∈ __keyborgCoreRefs (_state σ) →
       ∃ m : nat, e.1 = ("c" +:+ pretty m)%string ∧ m ≤ _lastId σ.

(** From [σ] to [σ'] the counter did not go back, and whatever the registry
    gained is filed under an identifier issued in between. *)
Definition ids_grow (σ σ' : World) : Prop :=
  _lastId σ ≤ _lastId σ'
  ∧ ∀ e, e ∈ __keyborgCoreRefs (_state σ') →
         e ∈ __keyborgCoreRefs (_state σ)
         ∨ ∃ m : nat, e.1 = ("c" +:+ pretty m)%string
                      ∧ _lastId σ < m ≤ _lastId σ'.

(** ** Example pages *)

Definition Tab : KeyCode := 9%Z.
Definition Escape : KeyCode := 27%Z.
Definition KeyA : KeyCode := 65%Z.

(** The world a script leads to from module load (development build). *)
Definition page (script : list Action) : World :=
  match run script (initial_world true) with
  | Some σ => σ
  | None => initial_world true
  end.

(** One window; one handle with [triggerKeys = [Tab]] and
    [dismissKeys = [Escape]] and subscriber 7; element 5 has the focus. *)
Definition setup : list Action :=
  [ OpenWindow;
    Create 0 (Some (mkProps (Some [Tab]) (Some [Escape])));
    Subscribe 0 7;
    MoveFocus 0 (Some 5) ].

Definition pointer_page : World := page setup.

(** The same page after Tab has been pressed. *)
Definition keyboard_page : World :=
  page (setup ++ [KeyDown 0 (mkKeyboardEvent Tab)]).

(** The core of the example pages. *)
Definition example_core (mouse dismiss : option positive) : KeyborgCore :=
  mkCore "c2" (Some 0) mouse dismiss
    (Some (list_to_set [Tab])) (Some (list_to_set [Escape])).

(** Timer handles are handed out in increasing order, so the next handle of
    a window is above the handles of its pending timers. *)
Definition timers_fresh (W : Window) : Prop :=
  Forall (λ t, (handle t < nextTimer W)%positive) (timers W).

(** What [_scheduleDismiss] leaves of the core's window: a pending dismiss
    timer of the core is cleared and a new one is queued, due
    [_dismissTimeout] from [t], with the focused element captured. *)
Definition window_after_schedule (c : core_ref) (K : KeyborgCore) (t : nat)
    (w : win_ref) (W : Window) : Window :=
  with_timers
    (match _dismissTimer K with
     | Some h => filter (λ t, handle t ≠ h) (timers W)
     | None => timers W
     end ++ [mkTimer (nextTimer W) (t + _dismissTimeout)
               (DismissCheck c w (activeElement W))])
    (Pos.succ (nextTimer W)) W.

(** A page whose document has no focused element ([activeElement] is
    [null]), in keyboard navigation. *)
Definition unfocused_keyboard_page : World :=
  page [ OpenWindow;
         Create 0 (Some (mkProps (Some [Tab]) (Some [Escape])));
         KeyDown 0 (mkKeyboardEvent Tab) ].

(** The window of the example pages once the handle is attached. *)
Definition example_window : Window :=
  mkWindow (Some (mkSlot 0 [("k1"%string, 0)])) (Some 5) [] 1%positive
    [OnFocusIn 0; OnMouseDown 0; OnKeyDown 0] true.

(** The first page with a second handle, with subscriber 8, on the same
    window. *)
Definition two_handles_page : World :=
  page (setup ++ [Create 0 None; Subscribe 1 8]).

(** The window of the page with two handles. *)
Definition shared_window : Window :=
  mkWindow (Some (mkSlot 0 [("k1"%string, 0); ("k3"%string, 1)])) (Some 5) []
    1%positive [OnFocusIn 0; OnMouseDown 0; OnKeyDown 0] true.

(** A page with one handle and no subscriber ... *)
Definition quiet_page : World := page [OpenWindow; Create 0 None].

(** ... and the same store once the garbage collector has taken its core. *)
Definition collected_page : World := with_cores [None] quiet_page.

(** The first page after [setVal(true)], [setVal(false)], [setVal(true)]. *)
Definition toggled_page : World :=
  page (setup ++ [SetVal 0 true; SetVal 0 false; SetVal 0 true]).

(** * Properties *)

(** ** Dictionaries *)

Lemma obj_get_elem {V} k (v : V) o : obj_get k o = Some v → (k, v) ∈ o.
Proof.
  induction o as [|[k' v'] r IH]; simpl; [done|].
  case_decide; intros E; simplify_eq; [left | right; auto].
Qed.

Lemma obj_get_keys {V} k (o : JSObject V) :
  k ∈ obj_keys o ↔ is_Some (obj_get k o).
Proof.
  unfold obj_keys. induction o as [|[k' v'] r IH]; simpl.
  - split; [by intros ?%elem_of_nil | by intros [? ?]].
  - case_decide; subst.
    + split; [eauto | left].
    + rewrite elem_of_cons, IH. naive_solver.
Qed.

Lemma obj_get_delete_eq {V} k (o : JSObject V) : obj_get k (obj_delete k o) = None.
Proof.
  induction o as [|[k' v'] r IH]; simpl; [done|].
  case_decide; simpl; [done|]. by rewrite decide_False.
Qed.

Lemma obj_get_delete_ne {V} k k' (o : JSObject V) :
  k ≠ k' → obj_get k (obj_delete k' o) = obj_get k o.
Proof.
  intros Hne. induction o as [|[k1 v1] r IH]; simpl; [done|].
  destruct (decide (k' = k1)), (decide (k = k1)); simpl; subst;
    try congruence; by rewrite ?decide_True, ?decide_False by done.
Qed.

Lemma obj_get_set_eq {V} k (v : V) o : obj_get k (obj_set k v o) = Some v.
Proof.
  induction o as [|[k1 v1] r IH]; simpl; [by rewrite decide_True|].
  case_decide; simpl; [by rewrite decide_True|]. by rewrite decide_False.
Qed.

Lemma obj_get_set_ne {V} k k' (v : V) o :
  k ≠ k' → obj_get k (obj_set k' v o) = obj_get k o.
Proof.
  intros Hne. induction o as [|[k1 v1] r IH]; simpl; [by rewrite decide_False|].
  destruct (decide (k' = k1)), (decide (k = k1)); simpl; subst;
    try congruence; by rewrite ?decide_True, ?decide_False by done.
Qed.

Lemma obj_keys_nil {V} (o : JSObject V) : length (obj_keys o) = 0 ↔ o = [].
Proof. destruct o; simpl; naive_solver. Qed.

Lemma obj_get_nonempty {V} k (v : V) o : obj_get k o = Some v → o ≠ [].
Proof. by destruct o. Qed.

(** ** Loops *)

Lemma for_of_inv {A S} (I : list A → S → Prop) xs (body : A → S → option S) s :
  I xs s →
  (∀ x r s, I (x :: r) s → ∃ s', body x s = Some s' ∧ I r s') →
  ∃ s', for_of xs body s = Some s' ∧ I [] s'.
Proof.
  intros HI Hstep. revert s HI.
  induction xs as [|x r IH]; intros s HI; simpl; [eauto|].
  destruct (Hstep x r s HI) as (s' & -> & HI'). by apply IH.
Qed.

(** ** Notification *)

(** Reading any field but [trace] through [emit]. *)
Ltac emit_simpl :=
  repeat first
    [ progress change (_lastId (emit ?e ?s)) with (_lastId s) in *
    | progress change (_state (emit ?e ?s)) with (_state s) in *
    | progress change (cores (emit ?e ?s)) with (cores s) in *
    | progress change (keyborgs (emit ?e ?s)) with (keyborgs s) in *
    | progress change (windows (emit ?e ?s)) with (windows s) in *
    | progress change (now (emit ?e ?s)) with (now s) in *
    | progress change (__DEV__ (emit ?e ?s)) with (__DEV__ s) in *
    | progress change (get_core ?c (emit ?e ?s)) with (get_core c s) in *
    | progress change (trace (emit ?e ?s)) with (trace s ++ e) in * ].

Lemma emit_emit es es' σ : emit es (emit es' σ) = emit (es' ++ es) σ.
Proof. unfold emit. simpl. by rewrite <- app_assoc. Qed.

Lemma emit_nil σ : emit [] σ = σ.
Proof. destruct σ. unfold emit. simpl. by rewrite app_nil_r. Qed.

Lemma sound_emit es σ : sound σ → sound (emit es σ).
Proof. done. Qed.

Lemma sound_with_state s σ :
  NoDup (obj_keys (__keyborgCoreRefs s)) → sound σ → sound (with_state s σ).
Proof. intros ? (? & ? & ?). by repeat split. Qed.

Lemma KeyborgCore_update_emits c b σ K :
  sound σ → get_core c σ = Some K →
  ∃ es, KeyborgCore_update c b σ = Some (emit (Updated c b :: es) σ).
Proof.
  intros (Hc & Hw & _) HK. unfold KeyborgCore_update. rewrite HK.
  destruct (core_win K) as [w|] eqn:Ew; [|by exists []].
  assert (w < length (windows σ)) as [W HW]%lookup_lt_is_Some.
  { unfold get_core in HK. destruct (cores σ !! c) as [oK|] eqn:E; [|done].
    simpl in HK. subst oK.
    by apply (proj1 (Forall_lookup _ _) Hc c (Some K) E K w). }
  emit_simpl. rewrite HW.
  destruct (__keyborg W) as [slot|] eqn:Es; [|by exists []].
  pose proof (proj1 (Forall_lookup _ _) Hw w W HW slot Es) as Hrefs.
  destruct (for_of_inv
    (λ r σ', (∀ id, id ∈ r → id ∈ obj_keys (refs slot))
             ∧ ∃ es, σ' = emit (Updated c b :: es) σ)
    (obj_keys (refs slot))
    (λ id σ', match obj_get id (refs slot) with
              | Some h => Keyborg_update h b σ'
              | None => None
              end)
    (emit [Updated c b] σ)) as (σ' & -> & _ & es & ->); [| |by exists es].
  - split; [done | by exists []].
  - intros id r σ1 [Hin (es & ->)].
    destruct (proj1 (obj_get_keys id (refs slot))) as [h Hh].
    { apply Hin. left. }
    rewrite Hh. unfold Keyborg_update. emit_simpl.
    apply obj_get_elem in Hh.
    pose proof (proj1 (Forall_forall _ _) Hrefs _ Hh) as Hlt. simpl in Hlt.
    apply lookup_lt_is_Some in Hlt as [H ->].
    eexists. split; [done|]. split.
    + intros ? ?. apply Hin. by right.
    + eexists. rewrite emit_emit. simpl. done.
Qed.

(** ** The state singleton *)

Lemma obj_delete_sublist {V} k (o : JSObject V) :
  sublist (obj_keys (obj_delete k o)) (obj_keys o).
Proof.
  unfold obj_keys. induction o as [|[k' v'] r IH]; simpl; [done|].
  case_decide; simpl; [by apply sublist_cons | by apply sublist_skip].
Qed.

Lemma obj_delete_NoDup {V} k (o : JSObject V) :
  NoDup (obj_keys o) → NoDup (obj_keys (obj_delete k o)).
Proof. intros H. by eapply sublist_NoDup; [|apply obj_delete_sublist]. Qed.

Lemma KeyborgState_remove_unfold id σ :
  KeyborgState_remove id σ =
  with_state
    (mkKeyborgState (obj_delete id (__keyborgCoreRefs (_state σ)))
       (if decide (obj_delete id (__keyborgCoreRefs (_state σ)) = [])
        then false else _isNavigatingWithKeyboard (_state σ))) σ.
Proof.
  unfold KeyborgState_remove.
  destruct (obj_delete id (__keyborgCoreRefs (_state σ))); simpl; done.
Qed.

(** What a [setVal] that changes the value leaves behind: the store is the
    same but for the state singleton and the trace; registry entries whose
    core is gone have been dropped, the others are kept; the stored value is
    the new one unless the registry was emptied on the way, which resets it. *)
Lemma KeyborgState_setVal_changed b σ :
  sound σ → KeyborgState_getVal σ ≠ b →
  ∃ s' es,
    KeyborgState_setVal b σ = Some (emit es (with_state s' σ))
    ∧ NoDup (obj_keys (__keyborgCoreRefs s'))
    ∧ ((_isNavigatingWithKeyboard s' = b
        ∧ (__keyborgCoreRefs s' = [] → __keyborgCoreRefs (_state σ) = []))
       ∨ (_isNavigatingWithKeyboard s' = false ∧ __keyborgCoreRefs s' = []))
    ∧ (∀ k r, obj_get k (__keyborgCoreRefs (_state σ)) = Some r →
              is_Some (deref r σ) → obj_get k (__keyborgCoreRefs s') = Some r)
    ∧ (∀ k r, obj_get k (__keyborgCoreRefs s') = Some r →
              obj_get k (__keyborgCoreRefs (_state σ)) = Some r).
Proof.
  intros Hs Hne. unfold KeyborgState_setVal, KeyborgState_getVal in *.
  rewrite decide_False by done.
  set (reg := __keyborgCoreRefs (_state σ)).
  destruct (for_of_inv
    (λ ks σ', ∃ s' es,
       σ' = emit es (with_state s' σ)
       ∧ NoDup ks
       ∧ (∀ k, k ∈ ks → is_Some (obj_get k (__keyborgCoreRefs s')))
       ∧ NoDup (obj_keys (__keyborgCoreRefs s'))
       ∧ ((_isNavigatingWithKeyboard s' = b
           ∧ (__keyborgCoreRefs s' = [] → reg = []))
          ∨ (_isNavigatingWithKeyboard s' = false ∧ __keyborgCoreRefs s' = []))
       ∧ (∀ k r, obj_get k reg = Some r → is_Some (deref r σ) →
                 obj_get k (__keyborgCoreRefs s') = Some r)
       ∧ (∀ k r, obj_get k (__keyborgCoreRefs s') = Some r →
                 obj_get k reg = Some r))
    (obj_keys reg)
    (λ id σ',
       match obj_get id (__keyborgCoreRefs (_state σ')) with
       | None => None
       | Some ref =>
           match deref ref σ' with
           | Some _ => KeyborgCore_update (referent ref) b σ'
           | None => Some (KeyborgState_remove id σ')
           end
       end)
    (with_state (mkKeyborgState reg b) σ))
    as (σ' & Hrun & s' & es & -> & _ & _ & Hnd & Hval & Hlive & Hsub).
  - exists (mkKeyborgState reg b), []. rewrite emit_nil. simpl.
    destruct Hs as (_ & _ & Hnd).
    repeat split; try done.
    + intros k Hk. by apply obj_get_keys.
    + by left.
  - clear Hne. intros id ks σ1 (s1 & es & -> & Hks & Hin & Hnd & Hval & Hlive & Hsub).
    apply NoDup_cons in Hks as [Hid Hks].
    destruct (Hin id) as [ref Href]; [left|].
    emit_simpl. simpl. rewrite Href.
    change (deref ref (emit es (with_state s1 σ))) with (deref ref σ).
    destruct (deref ref σ) as [K|] eqn:Ed.
    + destruct (KeyborgCore_update_emits (referent ref) b
                  (emit es (with_state s1 σ)) K) as [es' ->]; [|done|].
      { apply sound_emit, sound_with_state; done. }
      eexists. split; [done|]. exists s1. eexists.
      rewrite emit_emit. split; [done|].
      repeat split; try done. intros k Hk. apply Hin. by right.
    + eexists. split; [done|]. rewrite KeyborgState_remove_unfold.
      emit_simpl. simpl.
      eexists (mkKeyborgState _ _), es. split; [reflexivity|]. simpl.
      split; [done|].
      split.
      { intros k Hk. rewrite obj_get_delete_ne; [apply Hin; by right|].
        intros ->. done. }
      split; [by apply obj_delete_NoDup|].
      split.
      { case_decide as Hemp; [by right|]. left.
        destruct Hval as [[Hv He]|[_ He]].
        - by split.
        - rewrite He in Hemp. done. }
      split.
      { intros k r Hk Hr. rewrite obj_get_delete_ne; [by apply Hlive|].
        intros ->. apply Hlive in Hk; [|done].
        rewrite Href in Hk. simplify_eq. rewrite Ed in Hr. by destruct Hr. }
      { intros k r Hk. destruct (decide (k = id)) as [->|Hne'].
        - by rewrite obj_get_delete_eq in Hk.
        - rewrite obj_get_delete_ne in Hk by done. by apply Hsub. }
  - exists s', es. repeat split; done.
Qed.

(** ** Frame properties *)

Lemma preserves_refl σ : preserves σ σ.
Proof. by repeat split. Qed.

Lemma preserves_trans σ1 σ2 σ3 :
  preserves σ1 σ2 → preserves σ2 σ3 → preserves σ1 σ3.
Proof.
  intros [(? & ? & ? & ? & ?) ?] [(? & ? & ? & ? & ?) ?].
  repeat split; try congruence; auto.
Qed.

Lemma preserves_emit es σ : preserves σ (emit es σ).
Proof. by repeat split. Qed.

Lemma preserves_with_state s σ :
  (NoDup (obj_keys (__keyborgCoreRefs (_state σ))) →
   NoDup (obj_keys (__keyborgCoreRefs s))) →
  preserves σ (with_state s σ).
Proof. by repeat split. Qed.

Lemma preserves_with_now t σ : preserves σ (with_now t σ).
Proof. by repeat split. Qed.

Lemma preserves_put_window w W W' σ :
  windows σ !! w = Some W → __keyborg W' = __keyborg W →
  preserves σ (put_window w W' σ).
Proof.
  intros HW Hs. repeat split; try done. simpl.
  rewrite list_fmap_insert, Hs. apply list_insert_id.
  by rewrite list_lookup_fmap, HW.
Qed.

Lemma preserves_put_core c K K' σ :
  get_core c σ = Some K → core_view K' = core_view K →
  preserves σ (put_core c K' σ).
Proof.
  intros HK Hv. repeat split; try done. simpl.
  rewrite list_fmap_insert. simpl. rewrite Hv. apply list_insert_id.
  unfold get_core in HK. rewrite list_lookup_fmap.
  destruct (cores σ !! c) as [[K0|]|]; simplify_eq/=; done.
Qed.

Lemma preserves_put_keyborg h H H' σ :
  keyborgs σ !! h = Some H → keyborg_view H' = keyborg_view H →
  preserves σ (put_keyborg h H' σ).
Proof.
  intros HH Hv. repeat split; try done. simpl.
  rewrite list_fmap_insert, Hv. apply list_insert_id.
  by rewrite list_lookup_fmap, HH.
Qed.

Lemma for_of_preserves {A} xs (body : A → World → option World) σ σ' :
  (∀ x s s', body x s = Some s' → preserves s s') →
  for_of xs body σ = Some σ' → preserves σ σ'.
Proof.
  intros Hb. revert σ. induction xs as [|x r IH]; intros σ; simpl.
  - intros [= ->]. apply preserves_refl.
  - destruct (body x σ) as [σ1|] eqn:E; [|done].
    intros Hr. eapply preserves_trans; [by eapply Hb | by apply IH].
Qed.

Lemma setTimeout_preserves w tk d σ h σ' :
  setTimeout w tk d σ = Some (h, σ') → preserves σ σ'.
Proof.
  unfold setTimeout. destruct (windows σ !! w) as [W|] eqn:E; [|done].
  simpl. intros [= <- <-]. by eapply preserves_put_window.
Qed.

Lemma clearTimeout_preserves w h σ σ' :
  clearTimeout w h σ = Some σ' → preserves σ σ'.
Proof.
  unfold clearTimeout. destruct (windows σ !! w) as [W|] eqn:E; [|done].
  simpl. intros [= <-]. by eapply preserves_put_window.
Qed.

Lemma addEventListener_preserves w l σ σ' :
  addEventListener w l σ = Some σ' → preserves σ σ'.
Proof.
  unfold addEventListener. destruct (windows σ !! w) as [W|] eqn:E; [|done].
  simpl. intros [= <-]. by eapply preserves_put_window.
Qed.

Lemma removeEventListener_preserves w l σ σ' :
  removeEventListener w l σ = Some σ' → preserves σ σ'.
Proof.
  unfold removeEventListener. destruct (windows σ !! w) as [W|] eqn:E; [|done].
  simpl. intros [= <-]. by eapply preserves_put_window.
Qed.

Lemma setupFocusEvent_preserves w σ σ' :
  setupFocusEvent w σ = Some σ' → preserves σ σ'.
Proof.
  unfold setupFocusEvent. destruct (windows σ !! w) as [W|] eqn:E; [|done].
  simpl. intros [= <-]. by eapply preserves_put_window.
Qed.

Lemma disposeFocusEvent_preserves w σ σ' :
  disposeFocusEvent w σ = Some σ' → preserves σ σ'.
Proof.
  unfold disposeFocusEvent. destruct (windows σ !! w) as [W|] eqn:E; [|done].
  simpl. intros [= <-]. by eapply preserves_put_window.
Qed.

Lemma Keyborg_update_preserves h b σ σ' :
  Keyborg_update h b σ = Some σ' → preserves σ σ'.
Proof.
  unfold Keyborg_update. destruct (keyborgs σ !! h); [|done].
  intros [= <-]. apply preserves_emit.
Qed.

Lemma KeyborgCore_update_preserves c b σ σ' :
  KeyborgCore_update c b σ = Some σ' → preserves σ σ'.
Proof.
  unfold KeyborgCore_update. destruct (get_core c σ) as [K|]; [|done].
  destruct (core_win K) as [w|]; [|intros [= <-]; apply preserves_emit].
  destruct (windows _ !! w) as [W|]; [|done].
  destruct (__keyborg W) as [slot|]; [|intros [= <-]; apply preserves_emit].
  intros Hr. eapply preserves_trans; [apply (preserves_emit [Updated c b])|].
  eapply for_of_preserves; [|exact Hr].
  intros id s s'. simpl. destruct (obj_get id (refs slot)); [|done].
  apply Keyborg_update_preserves.
Qed.

Lemma KeyborgState_remove_preserves id σ :
  preserves σ (KeyborgState_remove id σ).
Proof.
  rewrite KeyborgState_remove_unfold. apply preserves_with_state. simpl.
  apply obj_delete_NoDup.
Qed.

Lemma KeyborgState_setVal_preserves b σ σ' :
  KeyborgState_setVal b σ = Some σ' → preserves σ σ'.
Proof.
  unfold KeyborgState_setVal. case_decide.
  - intros [= <-]. apply preserves_refl.
  - intros Hr. eapply preserves_trans; [|eapply for_of_preserves; [|exact Hr]].
    + by apply preserves_with_state.
    + intros id s s'. simpl.
      destruct (obj_get id _) as [ref|]; [|done].
      destruct (deref ref s).
      * apply KeyborgCore_update_preserves.
      * intros [= <-]. apply KeyborgState_remove_preserves.
Qed.

(** Splitting a successful run of a sequence of calls into its steps. *)
Ltac unbind_step :=
  match goal with
  | H : (mbind ?f ?m) = Some _ |- _ =>
      let E := fresh "E" in
      destruct m as [?|] eqn:E; [|discriminate H]; simpl in H
  | H : (let '(_, _) := ?p in _) = Some _ |- _ => destruct p; simpl in H
  | H : (match ?m with Some _ => _ | None => None end) = Some _ |- _ =>
      let E := fresh "E" in
      destruct m as [?|] eqn:E; [|discriminate H]; simpl in H
  | H : None = Some _ |- _ => discriminate H
  | H : Some _ = Some _ |- _ => injection H as H; try subst
  end.

Ltac unbind := repeat unbind_step; simplify_eq.

(** Reading a field of a world that was built by field updates. *)
Ltac wsimpl :=
  cbn [_lastId _state cores keyborgs windows now trace __DEV__
       with_lastId with_state with_cores with_keyborgs with_windows with_now
       emit put_core put_keyborg put_window] in *.

(** [preserves σ σ'] for a [σ'] built from [σ] by steps that are in the
    context: the chain is followed backwards from [σ']. *)
Ltac frame_hyp :=
  first
    [ eapply KeyborgState_setVal_preserves; eassumption
    | eapply setTimeout_preserves; eassumption
    | eapply clearTimeout_preserves; eassumption
    | eapply addEventListener_preserves; eassumption
    | eapply removeEventListener_preserves; eassumption
    | eapply setupFocusEvent_preserves; eassumption
    | eapply disposeFocusEvent_preserves; eassumption ].

Ltac frame_goal :=
  first
    [ eapply preserves_put_core; [eassumption | reflexivity]
    | eapply preserves_put_window; [eassumption | reflexivity]
    | eapply preserves_put_keyborg; [eassumption | reflexivity]
    | apply KeyborgState_remove_preserves
    | apply preserves_emit
    | apply preserves_with_now ].

Ltac frame :=
  first
    [ apply preserves_refl
    | solve [frame_hyp]
    | solve [frame_goal]
    | eapply preserves_trans; [|solve [frame_hyp]]; frame
    | eapply preserves_trans; [|solve [frame_goal]]; frame ].

Lemma _onFocusIn_preserves c e σ σ' :
  _onFocusIn c e σ = Some σ' → preserves σ σ'.
Proof.
  unfold _onFocusIn. intros H. unbind.
  destruct (_isMouseUsedTimer _); [unbind; frame|].
  destruct (KeyborgState_getVal σ); [unbind; frame|].
  destruct (relatedTarget e); [|unbind; frame].
  destruct (isFocusedProgrammatically e) as [[]|]; unbind; frame.
Qed.

Lemma _onMouseDown_preserves c e σ σ' :
  _onMouseDown c e σ = Some σ' → preserves σ σ'.
Proof.
  unfold _onMouseDown. intros H.
  destruct (_ || _); [unbind; frame|].
  unbind. destruct (core_win _) as [win|]; unbind; [|frame].
  destruct (_isMouseUsedTimer _); unbind; frame.
Qed.

Lemma _scheduleDismiss_preserves c σ σ' :
  _scheduleDismiss c σ = Some σ' → preserves σ σ'.
Proof.
  unfold _scheduleDismiss. intros H. unbind.
  destruct (core_win _) as [win|]; unbind; [|frame].
  destruct (_dismissTimer _); unbind; frame.
Qed.

Lemma _onKeyDown_preserves c e σ σ' :
  _onKeyDown c e σ = Some σ' → preserves σ σ'.
Proof.
  unfold _onKeyDown. intros H. unbind.
  destruct (_ && _); [frame|].
  destruct (_ && _); [by eapply _scheduleDismiss_preserves|].
  unbind; frame.
Qed.

Lemma run_task_preserves tk σ σ' : run_task tk σ = Some σ' → preserves σ σ'.
Proof.
  destruct tk as [c|c w was]; simpl; intros H; unbind; [frame|].
  destruct was as [a|]; [|unbind; frame].
  destruct (activeElement _) as [b|]; [|unbind; frame].
  case_decide; unbind; frame.
Qed.

Lemma fire_timer_preserves w h σ σ' :
  fire_timer w h σ = Some σ' → preserves σ σ'.
Proof.
  unfold fire_timer. destruct (ready_timer w h σ) as [t|]; intros H.
  - unbind. eapply preserves_trans; [|by eapply run_task_preserves]. frame.
  - unbind. frame.
Qed.

Lemma dispatch_preserves w pick handler σ σ' :
  (∀ c s s', handler c s = Some s' → preserves s s') →
  dispatch w pick handler σ = Some σ' → preserves σ σ'.
Proof.
  intros Hh. unfold dispatch. intros H. unbind.
  by eapply for_of_preserves.
Qed.

Lemma Keyborg_subscribe_preserves h cb σ σ' :
  Keyborg_subscribe h cb σ = Some σ' → preserves σ σ'.
Proof. unfold Keyborg_subscribe. intros H. unbind. frame. Qed.

Lemma Keyborg_unsubscribe_preserves h cb σ σ' :
  Keyborg_unsubscribe h cb σ = Some σ' → preserves σ σ'.
Proof. unfold Keyborg_unsubscribe. intros H. unbind. frame. Qed.

(** ** The invariant *)

Lemma win_slot_lookup σ w W :
  windows σ !! w = Some W → win_slot σ w = Some (__keyborg W).
Proof. intros H. unfold win_slot. by rewrite list_lookup_fmap, H. Qed.

Lemma win_slot_inv σ w s :
  win_slot σ w = Some s → ∃ W, windows σ !! w = Some W ∧ __keyborg W = s.
Proof.
  unfold win_slot. rewrite list_lookup_fmap.
  destruct (windows σ !! w) as [W|]; simpl; [|done]. intros [= <-]. eauto.
Qed.

Lemma core_info_lookup σ c K :
  get_core c σ = Some K → core_info σ c = Some (core_id K, core_win K).
Proof.
  unfold get_core, core_info. rewrite list_lookup_fmap.
  destruct (cores σ !! c) as [[K'|]|]; simpl; [|done..]. by intros [= ->].
Qed.

Lemma core_info_inv σ c id ow :
  core_info σ c = Some (id, ow) →
  ∃ K, get_core c σ = Some K ∧ core_id K = id ∧ core_win K = ow.
Proof.
  unfold get_core, core_info. rewrite list_lookup_fmap.
  destruct (cores σ !! c) as [[K'|]|]; simpl; [|done..].
  unfold core_view. intros [= <- <-]. eauto.
Qed.

Lemma keyborg_info_lookup σ h H :
  keyborgs σ !! h = Some H → keyborg_info σ h = Some (_id H, _win H).
Proof. intros E. unfold keyborg_info. by rewrite list_lookup_fmap, E. Qed.

Lemma keyborg_info_inv σ h id ow :
  keyborg_info σ h = Some (id, ow) →
  ∃ H, keyborgs σ !! h = Some H ∧ _id H = id ∧ _win H = ow.
Proof.
  unfold keyborg_info. rewrite list_lookup_fmap.
  destruct (keyborgs σ !! h) as [H|]; simpl; [|done].
  unfold keyborg_view. intros [= <- <-]. eauto.
Qed.

Lemma same_shape_views σ σ' :
  same_shape σ σ' →
  win_slot σ' = win_slot σ ∧ core_info σ' = core_info σ
  ∧ keyborg_info σ' = keyborg_info σ ∧ _lastId σ' = _lastId σ.
Proof.
  intros (Hl & Hc & Hk & Hw & _).
  unfold win_slot, core_info, keyborg_info. by rewrite Hc, Hk, Hw.
Qed.

Lemma well_formed_preserves σ σ' :
  preserves σ σ' → well_formed σ → well_formed σ'.
Proof.
  intros [Hs Hnd] [].
  destruct (same_shape_views _ _ Hs) as (Hw & Hc & Hk & Hl).
  split; rewrite ?Hw, ?Hc, ?Hk, ?Hl; auto.
Qed.

Lemma well_formed_sound σ : well_formed σ → sound σ.
Proof.
  intros Hwf. repeat split.
  - apply Forall_lookup. intros c oK Hc K w -> Hw.
    apply lookup_lt_is_Some.
    destruct (wf_core_win σ Hwf c (core_id K) w) as [s Hs].
    + erewrite core_info_lookup; [by rewrite Hw|].
      unfold get_core. by rewrite Hc.
    + apply win_slot_inv in Hs as (W & -> & _). eauto.
  - apply Forall_lookup. intros w W HW slot Hslot.
    apply Forall_forall. intros [id h] Hin. simpl.
    apply lookup_lt_is_Some.
    pose proof (wf_slot_handles σ Hwf w slot id h) as Hh.
    rewrite (win_slot_lookup _ _ _ HW), Hslot in Hh.
    apply keyborg_info_inv in Hh as (H & -> & _); eauto.
  - apply Hwf.
Qed.

Lemma obj_set_keys {V} k (v : V) o :
  obj_keys (obj_set k v o) =
  if decide (k ∈ obj_keys o) then obj_keys o else obj_keys o ++ [k].
Proof.
  unfold obj_keys. induction o as [|[k' v'] r IH]; simpl.
  - done.
  - destruct (decide (k = k')) as [->|Hne]; simpl.
    + rewrite decide_True; [done | left].
    + rewrite IH. destruct (decide (k ∈ map fst r)) as [Hin|Hin].
      * rewrite decide_True; [done | by right].
      * rewrite decide_False; [done|].
        intros [?|?]%elem_of_cons; done.
Qed.

Lemma obj_set_NoDup {V} k (v : V) o :
  NoDup (obj_keys o) → NoDup (obj_keys (obj_set k v o)).
Proof.
  intros Hnd. rewrite obj_set_keys. case_decide; [done|].
  apply NoDup_app. split; [done|]. split; [|apply NoDup_singleton].
  intros x Hx ->%list_elem_of_singleton. done.
Qed.

Lemma obj_set_elem {V} k (v : V) o k' v' :
  (k', v') ∈ obj_set k v o → (k', v') = (k, v) ∨ (k', v') ∈ o.
Proof.
  induction o as [|[k1 v1] r IH]; simpl.
  - intros ?%list_elem_of_singleton. by left.
  - case_decide; subst.
    + intros [?|?]%elem_of_cons; [by left | right; by right].
    + intros [->|?]%elem_of_cons; [right; left|].
      destruct IH as [?|?]; [done | by left | right; by right].
Qed.

Lemma obj_delete_elem {V} k (o : JSObject V) k' v' :
  (k', v') ∈ obj_delete k o → (k', v') ∈ o ∧ k' ≠ k.
Proof.
  induction o as [|[k1 v1] r IH]; simpl; [by intros ?%elem_of_nil|].
  case_decide; subst.
  - intros ?. destruct IH; [done|]. split; [by right | done].
  - intros [?|?]%elem_of_cons; simplify_eq.
    + split; [left | done].
    + destruct IH; [done|]. split; [by right | done].
Qed.

Lemma obj_delete_elem_pair {V} k (o : JSObject V) (e : string * V) :
  e ∈ obj_delete k o → e ∈ o ∧ e.1 ≠ k.
Proof. destruct e. apply obj_delete_elem. Qed.

Lemma obj_set_nonempty {V} k (v : V) o : obj_set k v o ≠ [].
Proof. destruct o as [|[k' v'] r]; simpl; [done|]. by case_decide. Qed.

Lemma KeyborgState_add_preserves c σ σ' :
  KeyborgState_add c σ = Some σ' → preserves σ σ'.
Proof.
  unfold KeyborgState_add. intros H. unbind.
  destruct (obj_has _ _); unbind; [apply preserves_refl|].
  apply preserves_with_state. simpl. apply obj_set_NoDup.
Qed.

(** The identifiers handed out are pairwise different. *)
Lemma id_inj (p : string) (n m : nat) : p +:+ pretty n = p +:+ pretty m → n = m.
Proof. intros H%(inj (String.append p)). by apply (inj pretty). Qed.

Lemma lookup_snoc_Some {A} (l : list A) x i y :
  (l ++ [x]) !! i = Some y ↔ l !! i = Some y ∨ (i = length l ∧ y = x).
Proof.
  rewrite lookup_app_Some. split.
  - intros [?|[Hle Hx]]; [by left|]. right.
    apply list_lookup_singleton_Some in Hx as [? ->]. split; [lia | done].
  - intros [?|[-> ->]]; [by left|]. right. split; [lia|].
    by rewrite Nat.sub_diag.
Qed.

Lemma list_insert_snoc {A} (l : list A) x y :
  <[length l := y]> (l ++ [x]) = l ++ [y].
Proof. rewrite insert_app_r_alt by lia. by rewrite Nat.sub_diag. Qed.

(** [new KeyborgCore] allocates one core and leaves everything else in
    shape. *)
Lemma KeyborgCore_new_views win props σ c σ' :
  KeyborgCore_new win props σ = Some (c, σ') →
  c = length (cores σ)
  ∧ ∃ K0, core_view K0 = (("c" +:+ pretty (S (_lastId σ)))%string, Some win)
          ∧ preserves
              (with_cores (cores σ ++ [Some K0]) (with_lastId (S (_lastId σ)) σ))
              σ'.
Proof.
  unfold KeyborgCore_new. intros H. unbind.
  split; [done|]. eexists (mkCore _ _ _ _ _ _). split; [reflexivity|].
  eapply preserves_trans; [by eapply addEventListener_preserves|].
  eapply preserves_trans; [by eapply addEventListener_preserves|].
  eapply preserves_trans; [by eapply addEventListener_preserves|].
  eapply preserves_trans; [by eapply setupFocusEvent_preserves|].
  by eapply KeyborgState_add_preserves.
Qed.

(** The effect of [new Keyborg(win, props)] on the views. *)
Lemma Keyborg_new_views win props σ h σ' :
  Keyborg_new win props σ = Some (h, σ') →
  let id := ("k" +:+ pretty (S (_lastId σ)))%string in
  h = length (keyborgs σ)
  ∧ keyborg_view <$> keyborgs σ'
    = (keyborg_view <$> keyborgs σ) ++ [(id, Some win)]
  ∧ (NoDup (obj_keys (__keyborgCoreRefs (_state σ))) →
     NoDup (obj_keys (__keyborgCoreRefs (_state σ'))))
  ∧ __DEV__ σ' = __DEV__ σ
  ∧ ∃ s, win_slot σ win = Some s ∧
    match s with
    | Some cur =>
        _lastId σ' = S (_lastId σ)
        ∧ fmap (M:=option) core_view <$> cores σ'
          = fmap (M:=option) core_view <$> cores σ
        ∧ __keyborg <$> windows σ'
          = <[win := Some (mkSlot (core cur) (obj_set id h (refs cur)))]>
              (__keyborg <$> windows σ)
    | None =>
        _lastId σ' = S (S (_lastId σ))
        ∧ fmap (M:=option) core_view <$> cores σ'
          = (fmap (M:=option) core_view <$> cores σ)
              ++ [Some (("c" +:+ pretty (S (S (_lastId σ))))%string, Some win)]
        ∧ __keyborg <$> windows σ'
          = <[win := Some (mkSlot (length (cores σ)) [(id, h)])]>
              (__keyborg <$> windows σ)
    end.
Proof.
  unfold Keyborg_new. intros H. wsimpl. unbind.
  rename E into HW. rename w into W.
  destruct (__keyborg W) as [cur|] eqn:Ecur.
  - unbind. wsimpl.
    rewrite lookup_app_r, Nat.sub_diag in E by done. simpl in E.
    injection E as <-. simpl.
    split; [done|].
    rewrite list_fmap_insert, fmap_app. simpl.
    split.
    { rewrite <- (length_fmap keyborg_view). by rewrite list_insert_snoc. }
    split; [done|]. split; [done|].
    exists (Some cur). split; [by rewrite (win_slot_lookup _ _ W), Ecur|].
    split; [done|]. split; [done|].
    by rewrite list_fmap_insert.
  - unbind. wsimpl. rename E into Hnew.
    apply KeyborgCore_new_views in Hnew
      as (-> & K0 & HK0 & [(Hl & Hc & Hk & Hw & Hd) Hnd]).
    wsimpl. split; [done|]. split.
    { rewrite list_fmap_insert.
      change (keyborg_view (with_core ?o k)) with (keyborg_view k).
      rewrite list_insert_id by (by rewrite list_lookup_fmap, E0).
      by rewrite Hk, fmap_app. }
    split; [done|]. split; [done|].
    exists None. split; [by rewrite (win_slot_lookup _ _ W), Ecur|].
    split; [done|]. split.
    { rewrite Hc, fmap_app. simpl. by rewrite HK0. }
    rewrite list_fmap_insert. simpl. by rewrite Hw.
Qed.

Lemma well_formed_create win props σ h σ' :
  well_formed σ → Keyborg_new win props σ = Some (h, σ') → well_formed σ'.
Proof.
  intros Hwf Hnew.
  apply Keyborg_new_views in Hnew as (-> & Hk & Hnd & _ & s & Hs & Hcase).
  set (id := ("k" +:+ pretty (S (_lastId σ)))%string) in *.
  assert (Hfresh : ∀ h' ow, keyborg_info σ h' = Some (id, ow) → False).
  { intros h' ow Hh. apply (wf_handle_id σ Hwf) in Hh as (n & Hn & Hle).
    apply id_inj in Hn. lia. }
  assert (HK : ∀ h' x, keyborg_info σ' h' = Some x ↔
             keyborg_info σ h' = Some x
             ∨ (h' = length (keyborgs σ) ∧ x = (id, Some win))).
  { intros h' x. unfold keyborg_info. rewrite Hk, lookup_snoc_Some.
    by rewrite length_fmap. }
  assert (Hlen : win < length (__keyborg <$> windows σ)).
  { apply lookup_lt_is_Some. unfold win_slot in Hs. eauto. }
  assert (∃ slot', (∀ w, win_slot σ' w =
                     if decide (w = win) then Some (Some slot')
                     else win_slot σ w)
           ∧ refs slot' ≠ []
           ∧ obj_get id (refs slot') = Some (length (keyborgs σ))
           ∧ (∀ id' h', (id', h') ∈ refs slot' →
                (id', h') = (id, length (keyborgs σ))
                ∨ ∃ cur, s = Some cur ∧ (id', h') ∈ refs cur)
           ∧ (∀ id' cur, s = Some cur → id' ≠ id →
                obj_get id' (refs slot') = obj_get id' (refs cur))
           ∧ (∃ cid, core_info σ' (core slot') = Some (cid, Some win))
           ∧ (∀ c x, core_info σ c = Some x → core_info σ' c = Some x)
           ∧ (∀ c cid w, core_info σ' c = Some (cid, Some w) →
                core_info σ c = Some (cid, Some w) ∨ w = win)
           ∧ (_lastId σ < _lastId σ'))
    as (slot' & HW & Hne & Hget & Hin & Hother & Hcore & Hcmono & Hcinv & Hlt).
  { destruct s as [cur|]; destruct Hcase as (Hl & Hc & Hw).
    - eexists. split; [|repeat split].
      + intros w. unfold win_slot. rewrite Hw.
        case_decide; subst;
          [by rewrite list_lookup_insert_eq | by rewrite list_lookup_insert_ne].
      + apply obj_set_nonempty.
      + apply obj_get_set_eq.
      + intros id' h' [?|?]%obj_set_elem; [by left | right; eauto].
      + intros id' cur' [= <-] ?. simpl. by apply obj_get_set_ne.
      + simpl. unfold core_info. rewrite Hc. apply (wf_slot_core σ Hwf win cur Hs).
      + intros c x. unfold core_info. by rewrite Hc.
      + intros c cid w. unfold core_info. rewrite Hc. by left.
      + lia.
    - eexists. split; [|repeat split].
      + intros w. unfold win_slot. rewrite Hw.
        case_decide; subst;
          [by rewrite list_lookup_insert_eq | by rewrite list_lookup_insert_ne].
      + done.
      + simpl. by rewrite decide_True.
      + intros id' h' ?%list_elem_of_singleton. by left.
      + done.
      + simpl. unfold core_info. rewrite Hc.
        rewrite lookup_app_r, length_fmap, Nat.sub_diag by (by rewrite length_fmap).
        simpl. eauto.
      + intros c x. unfold core_info. rewrite Hc.
        destruct ((_ <$> cores σ) !! c) as [o|] eqn:E; [|done].
        by rewrite (lookup_app_l_Some _ _ _ _ E).
      + intros c cid w. unfold core_info. rewrite Hc.
        destruct ((_ ++ _) !! c) as [o|] eqn:E; [|done].
        apply lookup_snoc_Some in E as [E|[_ ->]].
        * rewrite E. by left.
        * simpl. intros [= <- <-]. by right.
      + lia. }
  split.
  - intros c cid w Hc. rewrite HW. case_decide; [eauto|].
    apply Hcinv in Hc as [Hc| ->]; [|done].
    by eapply wf_core_win.
  - intros w slot. rewrite HW. case_decide.
    + by intros [= <-].
    + by apply wf_slot_refs.
  - intros w slot. rewrite HW. case_decide; subst.
    + by intros [= <-].
    + intros Hw. destruct (wf_slot_core σ Hwf w slot Hw) as [cid Hc].
      exists cid. by apply Hcmono.
  - intros w slot id' h'. rewrite HW. case_decide; subst.
    + intros [= <-] Hel. apply HK. apply Hin in Hel as [[= -> ->]|(cur & -> & Hel)].
      * by right.
      * left. by eapply wf_slot_handles.
    + intros Hw Hel. apply HK. left. by eapply wf_slot_handles.
  - intros h' id' w. rewrite HK. intros [Hh|[-> [= -> ->]]].
    + destruct (wf_handle σ Hwf h' id' w Hh) as (slot & Hw & Hg).
      rewrite HW. case_decide; subst; [|eauto].
      exists slot'. split; [done|].
      rewrite Hs in Hw. injection Hw as ->.
      rewrite (Hother id' slot); [done..|].
      intros ->. by eapply Hfresh.
    + exists slot'. rewrite HW, decide_True by done. done.
  - intros h' id' ow. rewrite HK. intros [Hh|[-> [= -> ->]]].
    + destruct (wf_handle_id σ Hwf h' id' ow Hh) as (n & ? & ?).
      exists n. split; [done | lia].
    + exists (S (_lastId σ)). split; [done | lia].
  - intros h1 h2 id' ow ow'. rewrite !HK.
    intros [H1|[-> ?]] [H2|[-> ?]]; simplify_eq.
    + by eapply wf_handle_inj.
    + exfalso. by eapply Hfresh.
    + exfalso. by eapply Hfresh.
    + done.
  - apply Hnd, Hwf.
Qed.

Lemma preserves_core_view σ σ' c K K' :
  preserves σ σ' → get_core c σ = Some K → get_core c σ' = Some K' →
  core_view K' = core_view K.
Proof.
  intros [Hs _] HK HK'.
  destruct (same_shape_views _ _ Hs) as (_ & Hc & _).
  apply core_info_lookup in HK, HK'. rewrite Hc in HK'.
  unfold core_view. congruence.
Qed.

(** The effect of [KeyborgCore.dispose] on the views: the core gives up its
    window, nothing else moves. *)
Lemma KeyborgCore_dispose_views c σ σ' :
  KeyborgCore_dispose c σ = Some σ' →
  ∃ id ow,
    core_info σ c = Some (id, ow)
    ∧ _lastId σ' = _lastId σ
    ∧ keyborg_view <$> keyborgs σ' = keyborg_view <$> keyborgs σ
    ∧ __keyborg <$> windows σ' = __keyborg <$> windows σ
    ∧ __DEV__ σ' = __DEV__ σ
    ∧ (NoDup (obj_keys (__keyborgCoreRefs (_state σ))) →
       NoDup (obj_keys (__keyborgCoreRefs (_state σ'))))
    ∧ fmap (M:=option) core_view <$> cores σ'
      = <[c := Some (id, None)]> (fmap (M:=option) core_view <$> cores σ).
Proof.
  unfold KeyborgCore_dispose. intros H. unbind. rename k into K, E into HK.
  exists (core_id K), (core_win K).
  split; [by apply core_info_lookup|].
  destruct (core_win K) as [win|] eqn:Ewin.
  2:{ unbind. repeat split; try done.
      rewrite list_insert_id; [done|].
      apply core_info_lookup in HK. unfold core_info in HK.
      destruct (_ !! c) as [[[]|]|]; simplify_eq/=. by rewrite Ewin. }
  unbind.
  assert (preserves σ w4) as Hp.
  { eapply preserves_trans; [|by eapply removeEventListener_preserves].
    eapply preserves_trans; [|by eapply removeEventListener_preserves].
    eapply preserves_trans; [|by eapply removeEventListener_preserves].
    eapply preserves_trans; [|by eapply disposeFocusEvent_preserves].
    eapply (preserves_trans _ w); [clear E1|clear E].
    - destruct (_isMouseUsedTimer K); unbind; frame.
    - destruct (_dismissTimer k); unbind; frame. }
  pose proof (preserves_core_view _ _ _ _ _ Hp HK E6) as Hv.
  destruct Hp as [(Hl & Hc & Hk & Hw & Hd) Hnd].
  rewrite KeyborgState_remove_unfold. wsimpl.
  repeat split; try done.
  - intros ?. simpl. by apply obj_delete_NoDup, Hnd.
  - rewrite list_fmap_insert, Hc. simpl.
    unfold core_view in *. simpl. by injection Hv as ->.
Qed.

(** The effect of [Keyborg.dispose] on the views. *)
Lemma Keyborg_dispose_views h σ σ' :
  Keyborg_dispose h σ = Some σ' →
  ∃ id ow,
    keyborg_info σ h = Some (id, ow)
    ∧ _lastId σ' = _lastId σ
    ∧ __DEV__ σ' = __DEV__ σ
    ∧ (NoDup (obj_keys (__keyborgCoreRefs (_state σ))) →
       NoDup (obj_keys (__keyborgCoreRefs (_state σ'))))
    ∧ keyborg_view <$> keyborgs σ'
      = <[h := (id, None)]> (keyborg_view <$> keyborgs σ)
    ∧ ((fmap (M:=option) core_view <$> cores σ'
        = fmap (M:=option) core_view <$> cores σ
        ∧ __keyborg <$> windows σ' = __keyborg <$> windows σ
        ∧ (ow = None
           ∨ ∃ w s, ow = Some w ∧ win_slot σ w = Some s
                    ∧ ∀ cur, s = Some cur → obj_get id (refs cur) = None))
       ∨ ∃ w cur,
           ow = Some w ∧ win_slot σ w = Some (Some cur)
           ∧ is_Some (obj_get id (refs cur))
           ∧ if decide (obj_delete id (refs cur) = [])
             then __keyborg <$> windows σ'
                  = <[w := None]> (__keyborg <$> windows σ)
                  ∧ ∃ cid cow,
                      core_info σ (core cur) = Some (cid, cow)
                      ∧ fmap (M:=option) core_view <$> cores σ'
                        = <[core cur := Some (cid, None)]>
                            (fmap (M:=option) core_view <$> cores σ)
             else __keyborg <$> windows σ'
                  = <[w := Some (mkSlot (core cur) (obj_delete id (refs cur)))]>
                      (__keyborg <$> windows σ)
                  ∧ fmap (M:=option) core_view <$> cores σ'
                    = fmap (M:=option) core_view <$> cores σ).
Proof.
  unfold Keyborg_dispose. intros H. unbind.
  rename k into H0, E into HH0, w into σ1, E0 into Hmid, k0 into H1, E1 into HH1.
  exists (_id H0), (_win H0). split; [by apply keyborg_info_lookup|].
  assert (Hmis : ∀ σ2, σ2 = report_misuse (_id H0) σ → preserves σ σ2).
  { intros ? ->. unfold report_misuse. destruct (__DEV__ σ); frame. }
  assert (Hfin : ∀ P : Prop,
    (keyborg_view <$> keyborgs σ1 = keyborg_view <$> keyborgs σ) →
    (_lastId σ1 = _lastId σ) → (__DEV__ σ1 = __DEV__ σ) →
    (NoDup (obj_keys (__keyborgCoreRefs (_state σ))) →
     NoDup (obj_keys (__keyborgCoreRefs (_state σ1)))) →
    P →
    _lastId σ1 = _lastId σ ∧ __DEV__ σ1 = __DEV__ σ
    ∧ (NoDup (obj_keys (__keyborgCoreRefs (_state σ))) →
       NoDup (obj_keys (__keyborgCoreRefs (_state σ1))))
    ∧ keyborg_view <$> <[h := mkKeyborg (_id H1) None None []]> (keyborgs σ1)
      = <[h := (_id H0, None)]> (keyborg_view <$> keyborgs σ)
    ∧ P).
  { intros P Hk Hl Hd Hnd HP. repeat split; try done.
    rewrite list_fmap_insert, Hk. do 2 f_equal.
    apply keyborg_info_lookup in HH0, HH1. unfold keyborg_info in *.
    rewrite Hk in HH1. unfold keyborg_view. simpl. congruence. }
  wsimpl.
  destruct (_win H0) as [w|] eqn:Ew.
  2:{ unbind. destruct (Hmis _ eq_refl) as [(? & ? & ? & ? & ?) ?].
      apply Hfin; try done. left. repeat split; try done. by left. }
  unbind. rename w0 into W, E into HW.
  destruct (__keyborg W) as [cur|] eqn:Ecur.
  2:{ unbind. destruct (Hmis _ eq_refl) as [(? & ? & ? & ? & ?) ?].
      apply Hfin; try done. left. repeat split; try done. right.
      exists w, None. repeat split; try done.
      by rewrite (win_slot_lookup _ _ W), Ecur. }
  destruct (obj_get (_id H0) (refs cur)) as [h'|] eqn:Eg.
  2:{ unbind. destruct (Hmis _ eq_refl) as [(? & ? & ? & ? & ?) ?].
      apply Hfin; try done. left. repeat split; try done. right.
      exists w, (Some cur). repeat split; try done.
      - by rewrite (win_slot_lookup _ _ W), Ecur.
      - by intros ? [= <-]. }
  assert (Hslot : win_slot σ w = Some (Some cur))
    by (by rewrite (win_slot_lookup _ _ W), Ecur).
  case_decide as Hemp.
  - apply obj_keys_nil in Hemp.
    unbind. rename w0 into σ2, E into Hcd, w1 into W2, E0 into HW2.
    apply KeyborgCore_dispose_views in Hcd
      as (cid & cow & Hci & Hl & Hk & Hw & Hd & Hnd & Hc).
    wsimpl. apply Hfin; try done.
    right. exists w, cur. repeat split; try done.
    rewrite decide_True by done. split.
    + rewrite list_fmap_insert, Hw, list_fmap_insert. simpl.
      by rewrite list_insert_insert_eq.
    + exists cid, cow. split; [|done].
      revert Hci. unfold core_info. wsimpl. done.
  - rewrite obj_keys_nil in Hemp.
    unbind. wsimpl. apply Hfin; try done.
    right. exists w, cur. repeat split; try done.
    rewrite decide_False by done. split; [|done].
    by rewrite list_fmap_insert.
Qed.

Lemma lookup_insert_decide {A} (l : list A) i j x :
  i < length l →
  <[i := x]> l !! j = if decide (j = i) then Some x else l !! j.
Proof.
  intros Hi. case_decide; subst.
  - by apply list_lookup_insert_eq.
  - by apply list_lookup_insert_ne.
Qed.

Lemma well_formed_dispose h σ σ' :
  well_formed σ → Keyborg_dispose h σ = Some σ' → well_formed σ'.
Proof.
  intros Hwf Hd.
  apply Keyborg_dispose_views in Hd
    as (id & ow & Hinfo & Hl & Hdev & Hnd & Hk & Hcase).
  assert (HK : ∀ h', keyborg_info σ' h' =
                     if decide (h' = h) then Some (id, None)
                     else keyborg_info σ h').
  { intros h'. unfold keyborg_info. rewrite Hk.
    apply lookup_insert_decide, lookup_lt_is_Some. eauto. }
  assert (HKid : ∀ h' id' ow', keyborg_info σ' h' = Some (id', ow') →
                 ∃ ow0, keyborg_info σ h' = Some (id', ow0)).
  { intros h' id' ow'. rewrite HK. case_decide; subst; [|eauto].
    intros [= <- <-]. eauto. }
  assert (HKw : ∀ h' id' w', keyborg_info σ' h' = Some (id', Some w') →
                h' ≠ h ∧ keyborg_info σ h' = Some (id', Some w')).
  { intros h' id' w'. rewrite HK. by case_decide. }
  destruct Hcase as [(Hc & Hw & Hmis)|(w & cur & -> & Hslot & Hreg & Hcase)].
  - (* the handle was not registered: it held no window *)
    assert (ow = None) as ->.
    { destruct Hmis as [?|(w & s & -> & Hs & Hno)]; [done|].
      destruct (wf_handle σ Hwf h id w Hinfo) as (slot & Hs' & Hg).
      rewrite Hs in Hs'. injection Hs' as ->.
      rewrite (Hno slot) in Hg; done. }
    eapply well_formed_preserves; [|exact Hwf].
    split; [|done]. repeat split; try done.
    rewrite Hk. apply list_insert_id. apply Hinfo.
  - assert (Hwlt : w < length (__keyborg <$> windows σ)).
    { apply lookup_lt_is_Some. unfold win_slot in Hslot. eauto. }
    destruct (wf_slot_core σ Hwf w cur Hslot) as [cid0 Hcur].
    assert (∃ s', (∀ w', win_slot σ' w' =
                     if decide (w' = w) then Some s' else win_slot σ w')
             ∧ (∀ slot, s' = Some slot →
                  obj_delete id (refs cur) ≠ []
                  ∧ slot = mkSlot (core cur) (obj_delete id (refs cur)))
             ∧ (s' = None → obj_delete id (refs cur) = [])
             ∧ (∀ c cid w', core_info σ' c = Some (cid, Some w') →
                  core_info σ c = Some (cid, Some w'))
             ∧ (∀ c cid w', core_info σ c = Some (cid, Some w') →
                  (s' = None → w' ≠ w) →
                  core_info σ' c = Some (cid, Some w')))
      as (s' & HW & Hs'some & Hs'none & Hcinv & Hcmono).
    { case_decide as Hemp.
      - destruct Hcase as (Hw & cid & cow & Hci & Hc).
        assert (HC : ∀ c, core_info σ' c =
                       if decide (c = core cur) then Some (cid, None)
                       else core_info σ c).
        { intros c. unfold core_info. rewrite Hc.
          rewrite lookup_insert_decide.
          - by case_decide.
          - apply lookup_lt_is_Some. unfold core_info in Hci.
            destruct (_ !! core cur); [eauto | done]. }
        exists None. split_and!; try done.
        + intros w'. unfold win_slot. rewrite Hw.
          by apply lookup_insert_decide.
        + intros c cid' w'. rewrite HC. by case_decide.
        + intros c cid' w' Hc' Hne. rewrite HC. case_decide; [|done].
          subst. rewrite Hcur in Hc'. injection Hc' as <- <-.
          by destruct Hne.
      - destruct Hcase as (Hw & Hc).
        exists (Some (mkSlot (core cur) (obj_delete id (refs cur)))).
        split_and!; try done.
        + intros w'. unfold win_slot. rewrite Hw.
          by apply lookup_insert_decide.
        + by intros ? [= <-].
        + intros c cid w'. unfold core_info. by rewrite Hc.
        + intros c cid w' ? _. unfold core_info. by rewrite Hc. }
    clear Hcase. split.
    + intros c cid w' Hc'. apply Hcinv in Hc'.
      apply (wf_core_win σ Hwf) in Hc'. rewrite HW.
      destruct (decide (w' = w)); [eauto | done].
    + intros w' slot. rewrite HW. case_decide; subst.
      * intros [= ->]. destruct (Hs'some slot eq_refl) as [? ->]. done.
      * by apply wf_slot_refs.
    + intros w' slot. rewrite HW. case_decide; subst.
      * intros [= ->]. destruct (Hs'some slot eq_refl) as [? ->]. simpl.
        exists cid0. by apply Hcmono.
      * intros Hw'. destruct (wf_slot_core σ Hwf w' slot Hw') as [cid1 Hc1].
        exists cid1. by apply Hcmono.
    + intros w' slot id' h'. rewrite HW, HK. case_decide; subst.
      * intros [= ->]. destruct (Hs'some slot eq_refl) as [? ->]. simpl.
        intros [Hel Hne]%obj_delete_elem.
        pose proof (wf_slot_handles σ Hwf w cur id' h' Hslot Hel) as Hh'.
        case_decide; [|done]. subst. rewrite Hinfo in Hh'. congruence.
      * intros Hw' Hel.
        pose proof (wf_slot_handles σ Hwf w' slot id' h' Hw' Hel) as Hh'.
        case_decide; [|done]. subst. rewrite Hinfo in Hh'. congruence.
    + intros h' id' w' [Hne Hh']%HKw.
      destruct (wf_handle σ Hwf h' id' w' Hh') as (slot & Hw' & Hg).
      rewrite HW. case_decide; subst; [|eauto].
      rewrite Hslot in Hw'. injection Hw' as <-.
      assert (id' ≠ id) as Hid.
      { intros ->. by destruct Hne; eapply wf_handle_inj. }
      assert (obj_get id' (obj_delete id (refs cur)) = Some h') as Hg'
        by (by rewrite obj_get_delete_ne).
      destruct s' as [slot'|].
      * destruct (Hs'some slot' eq_refl) as [? ->]. eauto.
      * rewrite Hs'none in Hg'; done.
    + intros h' id' ow' [ow0 Hh']%HKid. rewrite Hl.
      by eapply wf_handle_id.
    + intros h1 h2 id' ow1 ow2 [? H1]%HKid [? H2]%HKid.
      by eapply wf_handle_inj.
    + apply Hnd, Hwf.
Qed.

Lemma well_formed_initial dev : well_formed (initial_world dev).
Proof.
  split; unfold core_info, win_slot, keyborg_info; simpl; try done.
  apply NoDup_nil_2.
Qed.

Lemma well_formed_open_window σ :
  well_formed σ →
  well_formed (with_windows (windows σ ++ [pristine_window]) σ).
Proof.
  intros Hwf.
  assert (HW : ∀ w s,
    win_slot (with_windows (windows σ ++ [pristine_window]) σ) w = Some s ↔
    win_slot σ w = Some s ∨ (w = length (windows σ) ∧ s = None)).
  { intros w s. unfold win_slot. simpl.
    rewrite fmap_app. simpl. rewrite lookup_snoc_Some, length_fmap. done. }
  assert (HW' : ∀ w slot,
    win_slot (with_windows (windows σ ++ [pristine_window]) σ) w
      = Some (Some slot) ↔ win_slot σ w = Some (Some slot)).
  { intros w slot. rewrite HW. naive_solver. }
  split; try apply Hwf.
  - intros c id w Hc. destruct (wf_core_win σ Hwf c id w Hc) as [s Hs].
    exists s. apply HW. by left.
  - intros w slot ?%HW'. by eapply wf_slot_refs.
  - intros w slot ?%HW'. by eapply (wf_slot_core σ).
  - intros w slot id h ?%HW'. by eapply (wf_slot_handles σ).
  - intros h id w Hh. destruct (wf_handle σ Hwf h id w Hh) as (slot & ? & ?).
    exists slot. by rewrite HW'.
Qed.

Lemma well_formed_perform a σ σ' :
  well_formed σ → perform a σ = Some σ' → well_formed σ'.
Proof.
  intros Hwf. destruct a; simpl; intros H.
  - injection H as <-. by apply well_formed_open_window.
  - unfold createKeyborg in H.
    destruct (Keyborg_new win props σ) as [[h σ1]|] eqn:E; simplify_eq/=.
    by eapply well_formed_create.
  - by eapply well_formed_dispose.
  - eapply well_formed_preserves; [by eapply Keyborg_subscribe_preserves|done].
  - eapply well_formed_preserves; [by eapply Keyborg_unsubscribe_preserves|done].
  - destruct (keyborgs σ !! instance); [|done].
    eapply well_formed_preserves; [by eapply KeyborgState_setVal_preserves|done].
  - eapply well_formed_preserves; [|done].
    eapply dispatch_preserves; [|exact H].
    intros c s s' Hh. simpl in Hh. by eapply _onFocusIn_preserves.
  - eapply well_formed_preserves; [|done].
    eapply dispatch_preserves; [|exact H].
    intros c s s' Hh. simpl in Hh. by eapply _onMouseDown_preserves.
  - eapply well_formed_preserves; [|done].
    eapply dispatch_preserves; [|exact H].
    intros c s s' Hh. simpl in Hh. by eapply _onKeyDown_preserves.
  - unbind. eapply well_formed_preserves; [|done]. frame.
  - eapply well_formed_preserves; [by eapply fire_timer_preserves|done].
  - injection H as <-. eapply well_formed_preserves; [|done].
    apply preserves_with_now.
Qed.

Lemma well_formed_run script σ σ' :
  well_formed σ → run script σ = Some σ' → well_formed σ'.
Proof.
  revert σ. induction script as [|a r IH]; intros σ Hwf; simpl.
  - by intros [= <-].
  - destruct (perform a σ) as [σ1|] eqn:E; [|done].
    apply IH. by eapply well_formed_perform.
Qed.

(** Every world a page can be in is well formed. *)
Lemma reachable_well_formed σ : reachable σ → well_formed σ.
Proof.
  intros (dev & script & Hrun).
  eapply well_formed_run; [apply well_formed_initial | exact Hrun].
Qed.

(** ** Claims about the state singleton *)

(** C3.  A [setVal] whose argument is the value already in effect is a
    no-op: the call returns the world it was given, so the stored boolean and
    the registry are unchanged and the trace gains nothing (no core's
    [update] is entered, no subscriber is called).  This holds after any
    sequence of [setVal] calls, and for the handles' [setVal] as well. *)
Theorem setVal_same_value_is_silent
    (bs : list bool) (σ0 σ : World) (b : bool) (h : keyborg_ref) :
  for_of bs KeyborgState_setVal σ0 = Some σ →
  KeyborgState_getVal σ = b →
  KeyborgState_setVal b σ = Some σ
  ∧ Keyborg_setVal h b σ = Some σ
  ∧ ∀ σ', KeyborgState_setVal b σ = Some σ' →
          trace σ' = trace σ ∧ _state σ' = _state σ.
Proof.
  intros _ Hb.
  assert (KeyborgState_setVal b σ = Some σ) as Hs.
  { unfold KeyborgState_setVal, KeyborgState_getVal in *.
    by rewrite decide_True. }
  split; [done|]. split; [done|].
  intros σ'. rewrite Hs. by intros [= <-].
Qed.

Lemma setVal_same_value_is_silent_witness :
  KeyborgState_setVal true toggled_page = Some toggled_page
  ∧ Keyborg_setVal 0 true toggled_page = Some toggled_page
  ∧ ∀ σ', KeyborgState_setVal true toggled_page = Some σ' →
          trace σ' = trace toggled_page ∧ _state σ' = _state toggled_page.
Proof.
  apply (setVal_same_value_is_silent [true; false; true] pointer_page);
    vm_compute; reflexivity.
Defined.

(** The invariant "the boolean is false whenever the registry is empty" is
    kept by [add] (the registry is not empty afterwards), by [remove] (which
    resets the boolean) and by every [setVal] made while a core is
    registered. *)
Lemma KeyborgState_add_registry c σ σ' :
  KeyborgState_add c σ = Some σ' → ¬ registry_empty σ'.
Proof.
  unfold KeyborgState_add, registry_empty, obj_has. intros H. unbind.
  destruct (obj_get _ _) eqn:Eg; unbind.
  - by eapply obj_get_nonempty.
  - simpl. apply obj_set_nonempty.
Qed.

Lemma KeyborgState_remove_registry id σ :
  registry_empty (KeyborgState_remove id σ) →
  KeyborgState_getVal (KeyborgState_remove id σ) = false.
Proof.
  rewrite KeyborgState_remove_unfold.
  unfold registry_empty, KeyborgState_getVal. simpl. intros ->. done.
Qed.

Lemma KeyborgState_setVal_registry b σ :
  sound σ → ¬ registry_empty σ →
  ∃ σ', KeyborgState_setVal b σ = Some σ'
        ∧ (registry_empty σ' → KeyborgState_getVal σ' = false).
Proof.
  intros Hs Hne.
  destruct (decide (KeyborgState_getVal σ = b)) as [Hb|Hb].
  - exists σ. split; [|done].
    unfold KeyborgState_setVal, KeyborgState_getVal in *.
    by rewrite decide_True.
  - destruct (KeyborgState_setVal_changed b σ Hs Hb)
      as (s' & es & -> & _ & Hval & _).
    eexists. split; [done|]. unfold registry_empty, KeyborgState_getVal.
    simpl. destruct Hval as [[_ Himp]|[? _]]; [|done].
    intros He. by destruct Hne; apply Himp.
Qed.

(** C2.  The invariant fails: on an empty registry [setVal(true)] stores
    [true] and finds no core to visit, so nothing resets it.  A page reaches
    this through the manual override of a handle it has already disposed. *)
Theorem registry_empty_yet_navigating :
  ∃ σ, run [OpenWindow; Create 0 None; Dispose 0; SetVal 0 true]
         (initial_world false) = Some σ
       ∧ registry_empty σ
       ∧ KeyborgState_getVal σ = true.
Proof. eexists. split; [vm_compute; reflexivity|]. by split. Qed.

(** ** Claims about the public handle *)

Lemma indexOf_lower callback cbs : (-1 ≤ indexOf callback cbs)%Z.
Proof.
  induction cbs as [|x r IH]; simpl; [lia|].
  case_decide; [lia|]. destruct (Z.ltb_spec (indexOf callback r) 0); lia.
Qed.

Lemma unsubscribed_cons callback x r :
  unsubscribed callback (x :: r) =
  if decide (x = callback) then r else x :: unsubscribed callback r.
Proof.
  unfold unsubscribed. simpl. case_decide; [done|].
  pose proof (indexOf_lower callback r).
  destruct (Z.ltb_spec (indexOf callback r) 0) as [Hlt|Hge]; simpl.
  - destruct (Z.geb_spec (indexOf callback r) 0); [lia | done].
  - destruct (Z.geb_spec (indexOf callback r + 1) 0); [|lia].
    destruct (Z.geb_spec (indexOf callback r) 0); [|lia].
    unfold splice1. rewrite Z2Nat.inj_add by lia. simpl.
    by rewrite Nat.add_1_r.
Qed.

Lemma unsubscribed_without_first callback cbs :
  unsubscribed callback cbs = without_first callback cbs.
Proof.
  induction cbs as [|x r IH]; [done|].
  rewrite unsubscribed_cons. simpl. by rewrite IH.
Qed.

Lemma without_first_absent callback cbs :
  callback ∉ cbs → without_first callback cbs = cbs.
Proof.
  induction cbs as [|x r IH]; simpl; [done|].
  intros [? ?]%not_elem_of_cons. rewrite decide_False by done.
  by rewrite IH.
Qed.

Lemma without_first_middle callback l1 l2 :
  callback ∉ l1 → without_first callback (l1 ++ callback :: l2) = l1 ++ l2.
Proof.
  induction l1 as [|x r IH]; simpl.
  - intros _. by rewrite decide_True.
  - intros [? ?]%not_elem_of_cons. rewrite decide_False by done.
    by rewrite IH.
Qed.

(** C9.  [subscribe] puts the callback at the end of the handle's list,
    whatever the list holds; [unsubscribe] leaves the list without its first
    element identical to the callback, and leaves it as it is when there is
    none.  Subscribing a callback twice and unsubscribing it once leaves one
    occurrence more than before (exactly one on a list that had none). *)
Theorem subscribe_appends_unsubscribe_drops_first
    (this : keyborg_ref) (callback : KeyborgCallback)
    (cbs : list KeyborgCallback) (σ : World) :
  Keyborg_subscribe this callback σ
    = (λ H, put_keyborg this (with_cb (_cb H ++ [callback]) H) σ)
        <$> keyborgs σ !! this
  ∧ Keyborg_unsubscribe this callback σ
    = (λ H, put_keyborg this (with_cb (without_first callback (_cb H)) H) σ)
        <$> keyborgs σ !! this
  ∧ push callback cbs = cbs ++ [callback]
  ∧ unsubscribed callback cbs = without_first callback cbs
  ∧ (∀ l1 l2, callback ∉ l1 →
       unsubscribed callback (l1 ++ callback :: l2) = l1 ++ l2)
  ∧ (callback ∉ cbs → unsubscribed callback cbs = cbs)
  ∧ unsubscribed callback (push callback (push callback [])) = [callback]
  ∧ length (filter (λ x, x = callback)
              (unsubscribed callback (push callback (push callback cbs))))
    = S (length (filter (λ x, x = callback) cbs)).
Proof.
  split_and!.
  - unfold Keyborg_subscribe. by destruct (keyborgs σ !! this).
  - unfold Keyborg_unsubscribe.
    destruct (keyborgs σ !! this); simpl; [|done].
    by rewrite unsubscribed_without_first.
  - done.
  - apply unsubscribed_without_first.
  - intros l1 l2 Hl1. rewrite unsubscribed_without_first.
    by apply without_first_middle.
  - intros Hno. rewrite unsubscribed_without_first.
    by apply without_first_absent.
  - unfold push. simpl. rewrite unsubscribed_cons. by rewrite decide_True.
  - unfold push. rewrite unsubscribed_without_first.
    induction cbs as [|x r IH]; simpl.
    + rewrite decide_True by done. simpl. rewrite filter_cons_True by done.
      done.
    + destruct (decide (x = callback)) as [->|Hne].
      * rewrite !filter_app, !length_app.
        rewrite !filter_cons_True by done. simpl. lia.
      * rewrite !filter_cons_False by done. done.
Qed.

Lemma subscribe_appends_unsubscribe_drops_first_witness :
  unsubscribed 7 ([3; 4] ++ 7 :: [5; 7]) = [3; 4] ++ [5; 7]
  ∧ unsubscribed 7 [3; 4] = [3; 4].
Proof.
  destruct (subscribe_appends_unsubscribe_drops_first 0 7 [3; 4] pointer_page)
    as (_ & _ & _ & _ & Hfirst & Hnone & _).
  split.
  - apply Hfirst. apply (bool_decide_unpack _). by vm_compute.
  - apply Hnone. apply (bool_decide_unpack _). by vm_compute.
Defined.

(** ** Running [KeyborgCore.dispose] *)

Lemma get_core_lookup c σ K :
  get_core c σ = Some K → cores σ !! c = Some (Some K).
Proof.
  unfold get_core. destruct (cores σ !! c) as [[?|]|]; simpl; congruence.
Qed.

Lemma clearTimeout_Some w h σ W :
  windows σ !! w = Some W →
  clearTimeout w h σ
  = Some (put_window w
            (with_timers (filter (λ t, handle t ≠ h) (timers W)) (nextTimer W) W)
            σ).
Proof. intros HW. unfold clearTimeout. by rewrite HW. Qed.

Lemma setTimeout_Some w tk d σ W :
  windows σ !! w = Some W →
  setTimeout w tk d σ
  = Some (nextTimer W,
          put_window w
            (with_timers (timers W ++ [mkTimer (nextTimer W) (now σ + d) tk])
               (Pos.succ (nextTimer W)) W) σ).
Proof. intros HW. unfold setTimeout. by rewrite HW. Qed.

Lemma removeEventListener_Some w l σ W :
  windows σ !! w = Some W →
  removeEventListener w l σ
  = Some (put_window w
            (with_listeners (filter (λ l', l' ≠ l) (listeners W)) W) σ).
Proof. intros HW. unfold removeEventListener. by rewrite HW. Qed.

Lemma disposeFocusEvent_Some w σ W :
  windows σ !! w = Some W →
  disposeFocusEvent w σ = Some (put_window w (with_focusEvent false W) σ).
Proof. intros HW. unfold disposeFocusEvent. by rewrite HW. Qed.

(** A world with the window and the core under consideration written last:
    the shape every step of a handler keeps. *)
Section focused.
Context (c : core_ref) (w : win_ref) (σ : World).
Context (Hc : c < length (cores σ)) (Hw : w < length (windows σ)).

Lemma focused_window K W :
  windows (put_core c K (put_window w W σ)) !! w = Some W.
Proof using Hw. unfold put_core, put_window. wsimpl. by apply list_lookup_insert_eq. Qed.

Lemma focused_core K W :
  get_core c (put_core c K (put_window w W σ)) = Some K.
Proof using Hc.
  unfold get_core, put_core, put_window. wsimpl.
  by rewrite list_lookup_insert_eq.
Qed.

Lemma focused_put_window K W W' :
  put_window w W' (put_core c K (put_window w W σ))
  = put_core c K (put_window w W' σ).
Proof. unfold put_core, put_window. wsimpl. by rewrite list_insert_insert_eq. Qed.

Lemma focused_put_core K K' W :
  put_core c K' (put_core c K (put_window w W σ))
  = put_core c K' (put_window w W σ).
Proof. unfold put_core, put_window. wsimpl. by rewrite list_insert_insert_eq. Qed.

Lemma focused_setVal_state K W s :
  with_state s (put_core c K (put_window w W σ))
  = put_core c K (put_window w W (with_state s σ)).
Proof. done. Qed.
End focused.

Lemma put_window_twice w W1 W2 σ :
  put_window w W2 (put_window w W1 σ) = put_window w W2 σ.
Proof. unfold put_window. wsimpl. by rewrite list_insert_insert_eq. Qed.

Lemma focused_init c w σ K W :
  get_core c σ = Some K → windows σ !! w = Some W →
  σ = put_core c K (put_window w W σ).
Proof.
  intros HK%get_core_lookup HW. unfold put_core, put_window. wsimpl.
  rewrite !list_insert_id by done. by destruct σ.
Qed.

(** Rewriting one step of a handler that runs in a focused world. *)
Ltac focused_step Hc Hw :=
  first
    [ rewrite (clearTimeout_Some _ _ _ _ (focused_window _ _ _ Hw _ _))
    | rewrite (setTimeout_Some _ _ _ _ _ (focused_window _ _ _ Hw _ _))
    | rewrite (removeEventListener_Some _ _ _ _ (focused_window _ _ _ Hw _ _))
    | rewrite (disposeFocusEvent_Some _ _ _ (focused_window _ _ _ Hw _ _))
    | rewrite (focused_window _ _ _ Hw)
    | rewrite (focused_core _ _ _ Hc)
    | rewrite focused_put_window
    | rewrite focused_put_core
    | rewrite list_lookup_insert_eq by (first [exact Hw | exact Hc])
    | progress simpl ].

Lemma KeyborgCore_dispose_focused c w σ K W :
  c < length (cores σ) → w < length (windows σ) → core_win K = Some w →
  KeyborgCore_dispose c (put_core c K (put_window w W σ))
  = Some (KeyborgState_remove (core_id K)
            (put_core c
               (mkCore (core_id K) None None None (_triggerKeys K)
                  (_dismissKeys K))
               (put_window w (window_after_dispose c K W) σ))).
Proof.
  intros Hc Hw HK. unfold KeyborgCore_dispose.
  rewrite (focused_core _ _ _ Hc). simpl. rewrite HK.
  destruct K as [id ow [h1|] [h2|] tk dk]; simpl in *;
    repeat focused_step Hc Hw; reflexivity.
Qed.

(** [KeyborgCore.dispose] on a core that holds a window: what it returns. *)
Lemma KeyborgCore_dispose_spec c σ K w W :
  get_core c σ = Some K → core_win K = Some w → windows σ !! w = Some W →
  KeyborgCore_dispose c σ
  = Some (KeyborgState_remove (core_id K)
            (put_core c
               (mkCore (core_id K) None None None (_triggerKeys K)
                  (_dismissKeys K))
               (put_window w (window_after_dispose c K W) σ))).
Proof.
  intros HK Hw HW.
  rewrite (focused_init c w σ K W HK HW) at 1.
  apply KeyborgCore_dispose_focused; [|by eapply lookup_lt_Some|done].
  eapply lookup_lt_Some. by apply get_core_lookup.
Qed.

Lemma get_core_put_core c K σ :
  c < length (cores σ) → get_core c (put_core c K σ) = Some K.
Proof.
  intros Hc. unfold get_core, put_core. wsimpl.
  by rewrite list_lookup_insert_eq.
Qed.

Lemma get_core_lt c σ K : get_core c σ = Some K → c < length (cores σ).
Proof. intros H%get_core_lookup. by eapply lookup_lt_Some. Qed.

(** ** Claims about the window core *)

(** C10.  [isDisposed()] answers whether the core still holds its window:
    [true] for a core that has not been disposed (in particular for a core
    just constructed), [false] once [dispose()] has run. *)
Theorem isDisposed_reports_window_held
    (c : core_ref) (σ : World) (K : KeyborgCore) (w : win_ref) :
  get_core c σ = Some K → core_win K = Some w → is_Some (windows σ !! w) →
  KeyborgCore_isDisposed c σ = Some true
  ∧ (∃ σ', KeyborgCore_dispose c σ = Some σ'
           ∧ KeyborgCore_isDisposed c σ' = Some false)
  ∧ (∀ props σ1 c1,
       KeyborgCore_new w props σ = Some (c1, σ1) →
       KeyborgCore_isDisposed c1 σ1 = Some true).
Proof.
  intros HK Hw [W HW]. split_and!.
  - unfold KeyborgCore_isDisposed. rewrite HK. simpl. by rewrite Hw.
  - rewrite (KeyborgCore_dispose_spec c σ K w W HK Hw HW).
    eexists. split; [done|].
    rewrite KeyborgState_remove_unfold. unfold KeyborgCore_isDisposed.
    change (get_core c (with_state ?s ?σ0)) with (get_core c σ0).
    rewrite get_core_put_core; [done|]. by eapply get_core_lt.
  - intros props σ1 c1 Hnew.
    apply KeyborgCore_new_views in Hnew as (-> & K0 & HK0 & [Hs _]).
    destruct (same_shape_views _ _ Hs) as (_ & Hc & _).
    assert (core_info σ1 (length (cores σ)) = Some (core_view K0)) as Hi.
    { rewrite Hc. unfold core_info. wsimpl.
      rewrite fmap_app, lookup_app_r, length_fmap, Nat.sub_diag
        by (by rewrite length_fmap).
      done. }
    rewrite HK0 in Hi. apply core_info_inv in Hi as (K1 & HK1 & _ & Hw1).
    unfold KeyborgCore_isDisposed. rewrite HK1. simpl. by rewrite Hw1.
Qed.

Lemma isDisposed_reports_window_held_witness :
  KeyborgCore_isDisposed 0 pointer_page = Some true
  ∧ (∃ σ', KeyborgCore_dispose 0 pointer_page = Some σ'
           ∧ KeyborgCore_isDisposed 0 σ' = Some false)
  ∧ (∀ props σ1 c1,
       KeyborgCore_new 0 props pointer_page = Some (c1, σ1) →
       KeyborgCore_isDisposed c1 σ1 = Some true).
Proof.
  eapply (isDisposed_reports_window_held 0 pointer_page);
    [vm_compute; reflexivity | reflexivity | vm_compute; eauto].
Defined.

Lemma report_misuse_trace id σ :
  report_misuse id σ
  = emit (if __DEV__ σ then [ConsoleError (dispose_diagnostic id)] else []) σ.
Proof. unfold report_misuse. destruct (__DEV__ σ); by rewrite ?emit_nil. Qed.

Lemma Keyborg_dispose_unregistered h σ H :
  keyborgs σ !! h = Some H →
  (∀ w, _win H = Some w → is_Some (windows σ !! w)) →
  handle_registered h σ = false →
  ∃ σ', Keyborg_dispose h σ = Some σ' ∧ only_reported h σ σ'.
Proof.
  intros HH Hwin Hreg.
  exists (put_keyborg h (mkKeyborg (_id H) None None [])
            (report_misuse (_id H) σ)).
  split.
  - assert (keyborgs (report_misuse (_id H) σ) !! h = Some H) as Hk
      by (by rewrite report_misuse_trace).
    unfold handle_registered in Hreg. rewrite HH in Hreg.
    unfold Keyborg_dispose. rewrite HH.
    cbn [mbind option_bind].
    destruct (_win H) as [w|]; [|by cbn [mbind option_bind]; rewrite Hk].
    destruct (Hwin w eq_refl) as [W HW]. rewrite HW in Hreg. rewrite HW.
    cbn [mbind option_bind].
    destruct (__keyborg W) as [cur|];
      [|by cbn [mbind option_bind]; rewrite Hk].
    destruct (obj_get (_id H) (refs cur)); [done|].
    by cbn [mbind option_bind]; rewrite Hk.
  - rewrite report_misuse_trace. repeat split. by exists H.
Qed.

Lemma Keyborg_dispose_clears h σ σ' :
  Keyborg_dispose h σ = Some σ' →
  ∃ id, keyborgs σ' !! h = Some (mkKeyborg id None None []).
Proof.
  unfold Keyborg_dispose. intros H. unbind.
  eexists. wsimpl. apply list_lookup_insert_eq. by eapply lookup_lt_Some.
Qed.

(** C8.  Disposing a handle that its window's registry does not hold, and in
    particular disposing a handle a second time, returns normally.  Windows,
    cores and the state singleton are as before; the only trace is one
    [console.error] line, and only when [__DEV__] is set. *)
Theorem dispose_misuse_only_reported
    (h : keyborg_ref) (σ : World) (H : Keyborg) :
  keyborgs σ !! h = Some H →
  (∀ w, _win H = Some w → is_Some (windows σ !! w)) →
  (handle_registered h σ = false →
   ∃ σ', Keyborg_dispose h σ = Some σ' ∧ only_reported h σ σ')
  ∧ (∀ σ1, Keyborg_dispose h σ = Some σ1 →
           ∃ σ2, Keyborg_dispose h σ1 = Some σ2 ∧ only_reported h σ1 σ2).
Proof.
  intros HH Hwin. split.
  - by apply (Keyborg_dispose_unregistered h σ H).
  - intros σ1 [id Hid]%Keyborg_dispose_clears.
    eapply Keyborg_dispose_unregistered; [exact Hid | done |].
    unfold handle_registered. by rewrite Hid.
Qed.

Lemma dispose_misuse_only_reported_witness :
  (∃ σ', Keyborg_dispose 0 (page (setup ++ [Dispose 0])) = Some σ'
         ∧ only_reported 0 (page (setup ++ [Dispose 0])) σ')
  ∧ (∀ σ1, Keyborg_dispose 0 (page (setup ++ [Dispose 0])) = Some σ1 →
           ∃ σ2, Keyborg_dispose 0 σ1 = Some σ2 ∧ only_reported 0 σ1 σ2).
Proof.
  destruct (dispose_misuse_only_reported 0 (page (setup ++ [Dispose 0]))
              (mkKeyborg "k1" None None [])) as [Hfirst Hsecond].
  - vm_compute. reflexivity.
  - simpl. intros w Hw. discriminate Hw.
  - split; [apply Hfirst; vm_compute; reflexivity | exact Hsecond].
Defined.

(** ** Transitions *)

Lemma with_state_id σ : with_state (_state σ) σ = σ.
Proof. by destruct σ. Qed.

(** [setVal] always returns in a sound world.  Only the state singleton and
    the trace change; [setVal(false)] leaves [false]; and while a registered
    core is alive the value asked for is the value stored, and the core
    stays registered. *)
Lemma KeyborgState_setVal_result b σ :
  sound σ →
  ∃ s' es,
    KeyborgState_setVal b σ = Some (emit es (with_state s' σ))
    ∧ (b = false → _isNavigatingWithKeyboard s' = false)
    ∧ (∀ c, registered c σ →
            _isNavigatingWithKeyboard s' = b
            ∧ registered c (emit es (with_state s' σ))).
Proof.
  intros Hs. destruct (decide (KeyborgState_getVal σ = b)) as [Hb|Hb].
  - exists (_state σ), []. rewrite emit_nil, with_state_id.
    unfold KeyborgState_setVal, KeyborgState_getVal in *.
    rewrite decide_True by done. split; [done|]. split; [congruence|].
    intros c Hc. done.
  - destruct (KeyborgState_setVal_changed b σ Hs Hb)
      as (s' & es & -> & _ & Hval & Hlive & _).
    exists s', es. split; [done|]. split.
    + intros ->. by destruct Hval as [[? _]|[? _]].
    + intros c (K & HK & Hreg).
      assert (obj_get (core_id K) (__keyborgCoreRefs s') = Some (mkWeakRef c))
        as Hreg'.
      { apply Hlive; [done|]. unfold deref. simpl.
        unfold get_core in HK. rewrite HK. eauto. }
      split.
      * destruct Hval as [[? _]|[_ He]]; [done|].
        rewrite He in Hreg'. done.
      * exists K. split; done.
Qed.

(** C4.  A focus-in event changes nothing when the mouse-used timer is
    running, or the state is already keyboard navigation, or the event has no
    [relatedTarget], or [isFocusedProgrammatically] is [true] or [undefined].
    In the one remaining case the handler is [_state.setVal(true)], which
    returns and, the handling core being registered, leaves the state
    [true]. *)
Theorem focusin_transition
    (this : core_ref) (e : KeyborgFocusInEventDetails) (σ : World)
    (K : KeyborgCore) :
  sound σ → get_core this σ = Some K → registered this σ →
  (is_Some (_isMouseUsedTimer K)
   ∨ KeyborgState_getVal σ = true
   ∨ relatedTarget e = None
   ∨ isFocusedProgrammatically e = Some true
   ∨ isFocusedProgrammatically e = None →
   _onFocusIn this e σ = Some σ)
  ∧ (_isMouseUsedTimer K = None →
     KeyborgState_getVal σ = false →
     is_Some (relatedTarget e) →
     isFocusedProgrammatically e = Some false →
     _onFocusIn this e σ = KeyborgState_setVal true σ
     ∧ ∃ σ', _onFocusIn this e σ = Some σ'
             ∧ KeyborgState_getVal σ' = true).
Proof.
  intros Hs HK Hreg. unfold _onFocusIn. rewrite HK. simpl. split.
  - intros Hcase.
    destruct (_isMouseUsedTimer K); [done|].
    destruct (KeyborgState_getVal σ); [done|].
    destruct (relatedTarget e); [|done].
    destruct (isFocusedProgrammatically e) as [[]|]; [done| |done].
    destruct Hcase as [[? ?]|[?|[?|[?|?]]]]; done.
  - intros -> -> [el ->] ->. split; [done|].
    destruct (KeyborgState_setVal_result true σ Hs) as (s' & es & -> & _ & Hlive).
    eexists. split; [done|]. by apply (Hlive this).
Qed.

(** The example pages are pages: scripts lead to them. *)
Lemma page_reachable script :
  is_Some (run script (initial_world true)) → reachable (page script).
Proof.
  intros [σ Hσ]. exists true, script. unfold page. by rewrite Hσ.
Qed.

Lemma page_sound script :
  is_Some (run script (initial_world true)) → sound (page script).
Proof.
  intros. by apply well_formed_sound, reachable_well_formed, page_reachable.
Qed.

Lemma focusin_transition_witness :
  _onFocusIn 0 (mkDetails (Some 3) (Some false)) pointer_page
  = KeyborgState_setVal true pointer_page
  ∧ ∃ σ', _onFocusIn 0 (mkDetails (Some 3) (Some false)) pointer_page = Some σ'
          ∧ KeyborgState_getVal σ' = true.
Proof.
  destruct (focusin_transition 0 (mkDetails (Some 3) (Some false)) pointer_page
              (example_core None None)) as [_ Hgo].
  - apply page_sound. vm_compute. eauto.
  - vm_compute. reflexivity.
  - exists (example_core None None). split; vm_compute; reflexivity.
  - apply Hgo; [reflexivity | reflexivity | simpl; eauto | reflexivity].
Defined.

Lemma KeyborgCore_new_keys win props σ c σ' :
  KeyborgCore_new win props σ = Some (c, σ') →
  ∃ K, get_core c σ' = Some K
       ∧ _triggerKeys K = props ≫= (λ p, keys_of_props (triggerKeys p))
       ∧ _dismissKeys K = props ≫= (λ p, keys_of_props (dismissKeys p)).
Proof.
  unfold KeyborgCore_new. intros H. unbind.
  assert (∀ s s' : World, cores s' = cores s →
            get_core (length (cores σ)) s' = get_core (length (cores σ)) s)
    as Hsame by (intros s s' Hc; unfold get_core; by rewrite Hc).
  eexists (mkCore _ _ _ _ _ _).
  split; [|split; reflexivity].
  unfold KeyborgState_add in E3. unbind.
  assert (cores σ' = cores w2) as ->%Hsame.
  { destruct (obj_has _ _); by unbind. }
  unfold setupFocusEvent in E2. unfold addEventListener in E, E0, E1. unbind.
  unfold get_core. wsimpl.
  rewrite lookup_app_r, Nat.sub_diag by done. reflexivity.
Qed.

Lemma sound_core_window σ c K w :
  sound σ → get_core c σ = Some K → core_win K = Some w →
  is_Some (windows σ !! w).
Proof.
  intros (H1 & _) HK%get_core_lookup Hw. apply lookup_lt_is_Some.
  by apply (proj1 (Forall_lookup _ _) H1 c (Some K) HK K w).
Qed.

Lemma _scheduleDismiss_focused this σ K w W :
  this < length (cores σ) → w < length (windows σ) → core_win K = Some w →
  _scheduleDismiss this (put_core this K (put_window w W σ))
  = Some (put_core this (with_dismissTimer (Some (nextTimer W)) K)
            (put_window w (window_after_schedule this K (now σ) w W) σ)).
Proof.
  intros Hc Hlt Hw. unfold _scheduleDismiss.
  rewrite (focused_core _ _ _ Hc). simpl. rewrite Hw.
  destruct K as [id ow mt [h1|] tk dk]; simpl in *;
    repeat focused_step Hc Hlt; reflexivity.
Qed.

Lemma _scheduleDismiss_spec this σ K w W :
  get_core this σ = Some K → core_win K = Some w → windows σ !! w = Some W →
  _scheduleDismiss this σ
  = Some (put_core this (with_dismissTimer (Some (nextTimer W)) K)
            (put_window w (window_after_schedule this K (now σ) w W) σ)).
Proof.
  intros HK Hw HW.
  pose proof (get_core_lt _ _ _ HK) as Hc.
  pose proof (lookup_lt_Some _ _ _ HW) as Hlt.
  rewrite <- (_scheduleDismiss_focused this σ K w W) by done.
  by rewrite <- focused_init.
Qed.

Lemma window_after_schedule_timers c K t w W x :
  x ∈ timers (window_after_schedule c K t w W) ↔
  x = mkTimer (nextTimer W) (t + _dismissTimeout)
        (DismissCheck c w (activeElement W))
  ∨ (x ∈ timers W ∧ Some (handle x) ≠ _dismissTimer K).
Proof.
  unfold window_after_schedule. simpl.
  rewrite elem_of_app, list_elem_of_singleton.
  destruct (_dismissTimer K) as [h|].
  - rewrite list_elem_of_filter. naive_solver.
  - naive_solver.
Qed.

(** C5.  A keydown while the state is not keyboard navigation, with no
    trigger keys configured or with a trigger key pressed, is
    [_state.setVal(true)] and leaves the state [true].  A keydown of a dismiss
    key while the state is keyboard navigation schedules a dismiss: a pending
    dismiss timer of the core is cancelled, a timer due [_dismissTimeout]
    later is queued on the core's window with the element that has the focus
    captured in it, and its handle is kept in [_dismissTimer]; the state and
    the trace are not touched at that moment (a core that has been disposed
    schedules nothing).  Every other keydown changes nothing.  A core has
    trigger keys (dismiss keys) exactly when its handle was created with a
    non-empty array of them. *)
Theorem keydown_transition
    (this : core_ref) (e : KeyboardEvent) (σ : World) (K : KeyborgCore) :
  sound σ → get_core this σ = Some K → registered this σ →
  (KeyborgState_getVal σ = false →
   (_triggerKeys K = None ∨ ∃ s, _triggerKeys K = Some s ∧ keyCode e ∈ s) →
   _onKeyDown this e σ = KeyborgState_setVal true σ
   ∧ ∃ σ', _onKeyDown this e σ = Some σ' ∧ KeyborgState_getVal σ' = true)
  ∧ (KeyborgState_getVal σ = true →
     (∃ s, _dismissKeys K = Some s ∧ keyCode e ∈ s) →
     _onKeyDown this e σ = _scheduleDismiss this σ
     ∧ (core_win K = None → _onKeyDown this e σ = Some σ)
     ∧ ∀ w, core_win K = Some w →
         ∃ W σ' K' W',
           windows σ !! w = Some W
           ∧ _onKeyDown this e σ = Some σ'
           ∧ σ' = put_core this (with_dismissTimer (Some (nextTimer W)) K)
                    (put_window w
                       (window_after_schedule this K (now σ) w W) σ)
           ∧ get_core this σ' = Some K'
           ∧ _dismissTimer K' = Some (nextTimer W)
           ∧ windows σ' !! w = Some W'
           ∧ (∀ x, x ∈ timers W' ↔
                   x = mkTimer (nextTimer W) (now σ + _dismissTimeout)
                         (DismissCheck this w (activeElement W))
                   ∨ (x ∈ timers W ∧ Some (handle x) ≠ _dismissTimer K))
           ∧ _state σ' = _state σ
           ∧ trace σ' = trace σ)
  ∧ ((KeyborgState_getVal σ = false →
      ∃ s, _triggerKeys K = Some s ∧ keyCode e ∉ s) →
     (KeyborgState_getVal σ = true →
      _dismissKeys K = None ∨ ∃ s, _dismissKeys K = Some s ∧ keyCode e ∉ s) →
     _onKeyDown this e σ = Some σ)
  ∧ (∀ win props σ0 c σ1,
       KeyborgCore_new win props σ0 = Some (c, σ1) →
       ∃ K1, get_core c σ1 = Some K1
             ∧ _triggerKeys K1 = props ≫= (λ p, keys_of_props (triggerKeys p))
             ∧ _dismissKeys K1 = props ≫= (λ p, keys_of_props (dismissKeys p)))
  ∧ (∀ keys, keys_of_props keys
             = match keys with
               | None | Some [] => None
               | Some l => Some (list_to_set l)
               end).
Proof.
  intros Hs HK Hreg. unfold _onKeyDown. rewrite HK. simpl. split_and!.
  - intros -> Htrig. simpl.
    assert (match _triggerKeys K with
            | Some s => bool_decide (keyCode e ∈ s)
            | None => true
            end = true) as ->.
    { destruct Htrig as [->|(s & -> & ?)]; [done|]. by apply bool_decide_eq_true. }
    split; [done|].
    destruct (KeyborgState_setVal_result true σ Hs) as (s' & es & -> & _ & Hlive).
    eexists. split; [done|]. by apply (Hlive this).
  - intros -> (s & -> & Hin). simpl.
    rewrite (bool_decide_eq_true_2 _ Hin). split; [done|]. split.
    + intros Hnone. unfold _scheduleDismiss. rewrite HK. simpl.
      by rewrite Hnone.
    + intros w Hw.
      destruct (sound_core_window σ this K w Hs HK Hw) as [W HW].
      pose proof (get_core_lt _ _ _ HK) as Hc.
      pose proof (lookup_lt_Some _ _ _ HW) as Hlt.
      rewrite (_scheduleDismiss_spec this σ K w W HK Hw HW).
      eexists W, _, _, _. split; [done|]. split; [done|]. split; [done|].
      rewrite (focused_core _ _ _ Hc), (focused_window _ _ _ Hlt).
      split; [done|]. split; [done|]. split; [done|].
      split; [|done]. intros x. apply window_after_schedule_timers.
  - intros Hfalse Htrue. destruct (KeyborgState_getVal σ); simpl.
    + destruct (Htrue eq_refl) as [->|(s & -> & Hn)]; [done|]. simpl.
      by rewrite (bool_decide_eq_false_2 _ Hn).
    + destruct (Hfalse eq_refl) as (s & -> & Hn).
      by rewrite (bool_decide_eq_false_2 _ Hn).
  - intros win props σ0 c σ1. apply KeyborgCore_new_keys.
  - by intros [[|? ?]|].
Qed.

Lemma keydown_transition_witness :
  (_onKeyDown 0 (mkKeyboardEvent Tab) pointer_page
   = KeyborgState_setVal true pointer_page
   ∧ ∃ σ', _onKeyDown 0 (mkKeyboardEvent Tab) pointer_page = Some σ'
           ∧ KeyborgState_getVal σ' = true)
  ∧ _onKeyDown 0 (mkKeyboardEvent KeyA) pointer_page = Some pointer_page
  ∧ _onKeyDown 0 (mkKeyboardEvent Escape) keyboard_page
    = _scheduleDismiss 0 keyboard_page
  ∧ ∃ σ' K' W',
      _onKeyDown 0 (mkKeyboardEvent Escape) keyboard_page = Some σ'
      ∧ get_core 0 σ' = Some K' ∧ _dismissTimer K' = Some 1%positive
      ∧ windows σ' !! 0 = Some W'
      ∧ mkTimer 1%positive (now keyboard_page + 500) (DismissCheck 0 0 (Some 5))
        ∈ timers W'
      ∧ _state σ' = _state keyboard_page.
Proof.
  split; [|split].
  - destruct (keydown_transition 0 (mkKeyboardEvent Tab) pointer_page
                (example_core None None)) as (Hgo & _).
    + apply page_sound. vm_compute. eauto.
    + vm_compute. reflexivity.
    + exists (example_core None None). split; vm_compute; reflexivity.
    + apply Hgo; [reflexivity|]. right. eexists. split; [reflexivity|].
      apply (bool_decide_unpack _). by vm_compute.
  - destruct (keydown_transition 0 (mkKeyboardEvent KeyA) pointer_page
                (example_core None None)) as (_ & _ & Hstay & _).
    + apply page_sound. vm_compute. eauto.
    + vm_compute. reflexivity.
    + exists (example_core None None). split; vm_compute; reflexivity.
    + apply Hstay.
      * intros _. eexists. split; [reflexivity|].
        apply (bool_decide_unpack _). by vm_compute.
      * intros Hv. vm_compute in Hv. discriminate Hv.
  - destruct (keydown_transition 0 (mkKeyboardEvent Escape) keyboard_page
                (example_core None None)) as (_ & Hdis & _).
    + apply page_sound. vm_compute. eauto.
    + vm_compute. reflexivity.
    + exists (example_core None None). split; vm_compute; reflexivity.
    + destruct Hdis as (Heq & _ & Hsched).
      * reflexivity.
      * eexists. split; [reflexivity|].
        apply (bool_decide_unpack _). by vm_compute.
      * split; [exact Heq|].
        destruct (Hsched 0 eq_refl)
          as (W & σ' & K' & W' & HW & Hrun & _ & HK' & Hh & HW' & Htim
              & Hst & _).
        vm_compute in HW. injection HW as <-.
        exists σ', K', W'. split; [exact Hrun|]. split; [exact HK'|].
        split; [exact Hh|]. split; [exact HW'|]. split; [|exact Hst].
        apply Htim. left. reflexivity.
Defined.

Lemma sound_preserves σ σ' : preserves σ σ' → sound σ → sound σ'.
Proof.
  intros [(Hl & Hc & Hk & Hw & Hd) Hnd] (H1 & H2 & H3).
  assert (length (windows σ') = length (windows σ)) as Hlw
    by (by rewrite <- (length_fmap __keyborg), Hw, length_fmap).
  assert (length (keyborgs σ') = length (keyborgs σ)) as Hlk
    by (by rewrite <- (length_fmap keyborg_view), Hk, length_fmap).
  split_and!; [| |by apply Hnd].
  - apply Forall_lookup. intros c oK HoK K w -> HKw. rewrite Hlw.
    assert ((fmap (M:=option) core_view <$> cores σ) !! c
            = Some (Some (core_view K))) as Hv
      by (by rewrite <- Hc, list_lookup_fmap, HoK).
    rewrite list_lookup_fmap in Hv.
    destruct (cores σ !! c) as [[K0|]|] eqn:E0; simplify_eq/=.
    apply (proj1 (Forall_lookup _ _) H1 c (Some K0) E0 K0 w eq_refl).
    unfold core_view in *. congruence.
  - apply Forall_lookup. intros w W HW slot Hslot. rewrite Hlk.
    assert ((__keyborg <$> windows σ) !! w = Some (Some slot)) as Hv
      by (by rewrite <- Hw, list_lookup_fmap, HW; simpl; rewrite Hslot).
    rewrite list_lookup_fmap in Hv.
    destruct (windows σ !! w) as [W0|] eqn:E0; simplify_eq/=.
    by apply (proj1 (Forall_lookup _ _) H2 w W0 E0 slot).
Qed.

Lemma _onMouseDown_focused this e σ K w W :
  this < length (cores σ) → w < length (windows σ) → core_win K = Some w →
  buttons e ≠ 0%Z →
  (clientX e ≠ 0 ∨ clientY e ≠ 0 ∨ screenX e ≠ 0 ∨ screenY e ≠ 0)%Z →
  _onMouseDown this e (put_core this K (put_window w W σ))
  = KeyborgState_setVal false
      (put_core this (with_isMouseUsedTimer (Some (nextTimer W)) K)
         (put_window w (window_after_mousedown this K (now σ) W) σ)).
Proof.
  intros Hc Hlt Hw Hb Hxy. unfold _onMouseDown.
  assert ((buttons e =? 0)%Z
          || ((clientX e =? 0)%Z && (clientY e =? 0)%Z
              && (screenX e =? 0)%Z && (screenY e =? 0)%Z) = false) as ->.
  { apply orb_false_iff. split; [by apply Z.eqb_neq|].
    rewrite !andb_false_iff, !Z.eqb_neq. tauto. }
  rewrite (focused_core _ _ _ Hc). simpl. rewrite Hw.
  destruct K as [id ow [h1|] dt tk dk]; simpl in *;
    repeat focused_step Hc Hlt; reflexivity.
Qed.

Lemma _onMouseDown_real this e σ K w W :
  get_core this σ = Some K → core_win K = Some w → windows σ !! w = Some W →
  buttons e ≠ 0%Z →
  (clientX e ≠ 0 ∨ clientY e ≠ 0 ∨ screenX e ≠ 0 ∨ screenY e ≠ 0)%Z →
  _onMouseDown this e σ
  = KeyborgState_setVal false
      (put_core this (with_isMouseUsedTimer (Some (nextTimer W)) K)
         (put_window w (window_after_mousedown this K (now σ) W) σ)).
Proof.
  intros HK Hw HW Hb Hxy.
  pose proof (get_core_lt _ _ _ HK) as Hc.
  pose proof (lookup_lt_Some _ _ _ HW) as Hlt.
  rewrite <- (_onMouseDown_focused this e σ K w W) by done.
  by rewrite <- focused_init.
Qed.

(** C1, as the code has it.  A mousedown is ignored, with nothing changed,
    when its [buttons] field is zero or when its four coordinates are all
    zero.  Every other mousedown (non-zero [buttons] and some non-zero
    coordinate) restarts the core's one-second mouse-used timer and calls
    [_state.setVal(false)], which leaves the state [false]. *)
Theorem mousedown_transition
    (this : core_ref) (e : MouseEvent) (σ : World) (K : KeyborgCore)
    (w : win_ref) :
  sound σ → get_core this σ = Some K → core_win K = Some w →
  ((buttons e = 0
    ∨ (clientX e = 0 ∧ clientY e = 0 ∧ screenX e = 0 ∧ screenY e = 0))%Z →
   _onMouseDown this e σ = Some σ)
  ∧ (buttons e ≠ 0%Z →
     (clientX e ≠ 0 ∨ clientY e ≠ 0 ∨ screenX e ≠ 0 ∨ screenY e ≠ 0)%Z →
     ∃ σ' W K',
       _onMouseDown this e σ = Some σ'
       ∧ KeyborgState_getVal σ' = false
       ∧ windows σ !! w = Some W
       ∧ get_core this σ' = Some K'
       ∧ _isMouseUsedTimer K' = Some (nextTimer W)
       ∧ windows σ' !! w = Some (window_after_mousedown this K (now σ) W)
       ∧ mkTimer (nextTimer W) (now σ + 1000) (MouseUsedExpired this)
         ∈ timers (window_after_mousedown this K (now σ) W)
       ∧ _onMouseDown this e σ
         = KeyborgState_setVal false
             (put_core this (with_isMouseUsedTimer (Some (nextTimer W)) K)
                (put_window w (window_after_mousedown this K (now σ) W) σ))).
Proof.
  intros Hs HK Hw. split.
  - intros Hzero. unfold _onMouseDown.
    assert ((buttons e =? 0)%Z
            || ((clientX e =? 0)%Z && (clientY e =? 0)%Z
                && (screenX e =? 0)%Z && (screenY e =? 0)%Z) = true) as ->;
      [|done].
    destruct Hzero as [->|(-> & -> & -> & ->)]; [done|].
    apply orb_true_r.
  - intros Hb Hxy.
    destruct (sound_core_window σ this K w Hs HK Hw) as [W HW].
    pose proof (get_core_lt _ _ _ HK) as Hc.
    pose proof (lookup_lt_Some _ _ _ HW) as Hlt.
    rewrite (_onMouseDown_real this e σ K w W) by done.
    set (σ3 := put_core this (with_isMouseUsedTimer (Some (nextTimer W)) K)
                 (put_window w (window_after_mousedown this K (now σ) W) σ)).
    assert (sound σ3) as Hs3.
    { eapply sound_preserves; [|exact Hs]. unfold σ3.
      eapply preserves_trans;
        [|eapply (preserves_put_core this K); [exact HK | done]].
      by eapply (preserves_put_window w W). }
    destruct (KeyborgState_setVal_result false σ3 Hs3)
      as (s' & es & Hset & Hfalse & _).
    rewrite Hset.
    eexists _, W, _. split; [done|]. split; [by apply Hfalse|].
    split; [done|].
    change (get_core this (emit es (with_state s' σ3)))
      with (get_core this σ3).
    change (windows (emit es (with_state s' σ3))) with (windows σ3).
    unfold σ3. rewrite (focused_core _ _ _ Hc), (focused_window _ _ _ Hlt).
    split_and!; try done.
    unfold window_after_mousedown. simpl.
    apply elem_of_app. right. left.
Qed.

Lemma mousedown_transition_witness :
  _onMouseDown 0 (mkMouseEvent 0 0 0 0 0) keyboard_page = Some keyboard_page
  ∧ ∃ σ' W K',
      _onMouseDown 0 (mkMouseEvent 1 10 20 30 40) keyboard_page = Some σ'
      ∧ KeyborgState_getVal σ' = false
      ∧ windows keyboard_page !! 0 = Some W
      ∧ get_core 0 σ' = Some K'
      ∧ _isMouseUsedTimer K' = Some (nextTimer W)
      ∧ windows σ' !! 0
        = Some (window_after_mousedown 0 (example_core None None)
                  (now keyboard_page) W)
      ∧ mkTimer (nextTimer W) (now keyboard_page + 1000) (MouseUsedExpired 0)
        ∈ timers (window_after_mousedown 0 (example_core None None)
                    (now keyboard_page) W)
      ∧ _onMouseDown 0 (mkMouseEvent 1 10 20 30 40) keyboard_page
        = KeyborgState_setVal false
            (put_core 0
               (with_isMouseUsedTimer (Some (nextTimer W))
                  (example_core None None))
               (put_window 0
                  (window_after_mousedown 0 (example_core None None)
                     (now keyboard_page) W)
                  keyboard_page)).
Proof.
  split.
  - destruct (mousedown_transition 0 (mkMouseEvent 0 0 0 0 0) keyboard_page
                (example_core None None) 0) as [Hskip _].
    + apply page_sound. vm_compute. eauto.
    + vm_compute. reflexivity.
    + reflexivity.
    + apply Hskip. left. reflexivity.
  - destruct (mousedown_transition 0 (mkMouseEvent 1 10 20 30 40) keyboard_page
                (example_core None None) 0) as [_ Hreal].
    + apply page_sound. vm_compute. eauto.
    + vm_compute. reflexivity.
    + reflexivity.
    + apply Hreal; [simpl; lia | left; simpl; lia].
Defined.

(** C1 as the spec words it does not hold: the spec takes an event for a real
    click when [buttons] is non-zero or some coordinate is, and an event with
    [buttons = 0] and non-zero coordinates, or with a button down at
    coordinates zero, falls under that description; the handler ignores both
    and the page stays in keyboard navigation. *)
Lemma mousedown_or_reading_fails :
  (buttons (mkMouseEvent 0 10 20 30 40) ≠ 0
   ∨ clientX (mkMouseEvent 0 10 20 30 40) ≠ 0)%Z
  ∧ _onMouseDown 0 (mkMouseEvent 0 10 20 30 40) keyboard_page
    = Some keyboard_page
  ∧ (buttons (mkMouseEvent 1 0 0 0 0) ≠ 0
     ∨ clientX (mkMouseEvent 1 0 0 0 0) ≠ 0)%Z
  ∧ _onMouseDown 0 (mkMouseEvent 1 0 0 0 0) keyboard_page = Some keyboard_page
  ∧ KeyborgState_getVal keyboard_page = true
  ∧ (∀ K, get_core 0 keyboard_page = Some K → _isMouseUsedTimer K = None).
Proof.
  split_and!; try (vm_compute; reflexivity).
  - right. simpl. lia.
  - left. simpl. lia.
  - intros K HK. vm_compute in HK. by injection HK as <-.
Qed.

(** ** The scheduled dismiss *)

(** The timer queued by [_scheduleDismiss] is the one its handle names. *)
Lemma window_after_schedule_head c K t w W :
  timers_fresh W →
  head (filter (λ x, handle x = nextTimer W)
          (timers (window_after_schedule c K t w W)))
  = Some (mkTimer (nextTimer W) (t + _dismissTimeout)
            (DismissCheck c w (activeElement W))).
Proof.
  intros Hfresh. unfold window_after_schedule. simpl.
  rewrite filter_app.
  assert (∀ l, l ⊆ timers W → filter (λ x, handle x = nextTimer W) l = [])
    as Hnone.
  { intros l Hl. induction l as [|x r IH]; [done|].
    rewrite filter_cons_False.
    - apply IH. intros y Hy. apply Hl. by right.
    - assert (x ∈ timers W) as Hx by (apply Hl; left).
      pose proof (proj1 (Forall_forall _ _) Hfresh x Hx). simpl in *. lia. }
  rewrite Hnone.
  - simpl. by rewrite filter_cons_True.
  - destruct (_dismissTimer K); [|done].
    intros y [? ?]%list_elem_of_filter. done.
Qed.

Lemma run_task_dismiss this w was σ K W :
  get_core this σ = Some K → windows σ !! w = Some W →
  run_task (DismissCheck this w was) σ
  = match was, activeElement W with
    | Some a, Some b =>
        if decide (a = b)
        then KeyborgState_setVal false
               (put_core this (with_dismissTimer None K) σ)
        else Some (put_core this (with_dismissTimer None K) σ)
    | _, _ => Some (put_core this (with_dismissTimer None K) σ)
    end.
Proof.
  intros HK HW. simpl. rewrite HK. simpl.
  change (windows (put_core ?c ?k ?s)) with (windows s). by rewrite HW.
Qed.

(** C6, as the code has it.  [_scheduleDismiss] clears the core's pending
    dismiss timer, if any, and queues a new one that captures the element
    focused at that moment and is due 500 ms later.  Until 500 ms have passed
    the timer does not run.  When it runs, the state is set to [false] if an
    element was captured and the same element has the focus; if no element
    was captured, or none has the focus, or another one has, only the core's
    timer field is cleared: the state and the trace stay as they are. *)
Theorem scheduled_dismiss
    (this : core_ref) (σ : World) (K : KeyborgCore) (w : win_ref) (W : Window) :
  get_core this σ = Some K → core_win K = Some w → windows σ !! w = Some W →
  timers_fresh W →
  let h := nextTimer W in
  let was := activeElement W in
  let queued := mkTimer h (now σ + 500) (DismissCheck this w was) in
  let W1 := window_after_schedule this K (now σ) w W in
  let σ1 := put_core this (with_dismissTimer (Some h) K) (put_window w W1 σ) in
  _scheduleDismiss this σ = Some σ1
  ∧ (∀ t, t ∈ timers W1 ↔
          t = queued ∨ (t ∈ timers W ∧ Some (handle t) ≠ _dismissTimer K))
  ∧ (∀ ms, ms < 500 → fire_timer w h (advance ms σ1) = Some (advance ms σ1))
  ∧ (∀ ms, 500 ≤ ms →
           fire_timer w h (advance ms σ1)
           = clearTimeout w h (advance ms σ1)
             ≫= run_task (DismissCheck this w was))
  ∧ (∀ σ2 K2 W2,
       sound σ2 → get_core this σ2 = Some K2 → windows σ2 !! w = Some W2 →
       (∀ a, was = Some a → activeElement W2 = Some a →
             ∃ σ3, run_task (DismissCheck this w was) σ2 = Some σ3
                   ∧ KeyborgState_getVal σ3 = false)
       ∧ (was = None ∨ activeElement W2 = None ∨ activeElement W2 ≠ was →
          run_task (DismissCheck this w was) σ2
          = Some (put_core this (with_dismissTimer None K2) σ2))).
Proof.
  intros HK Hw HW Hfresh h was queued W1 σ1.
  pose proof (get_core_lt _ _ _ HK) as Hc.
  pose proof (lookup_lt_Some _ _ _ HW) as Hlt.
  assert (∀ ms, ready_timer w h (advance ms σ1)
                = if decide (now σ + 500 ≤ now σ + ms) then Some queued
                  else None) as Hready.
  { intros ms. unfold ready_timer.
    change (windows (advance ms σ1)) with (windows σ1). unfold σ1.
    rewrite (focused_window _ _ _ Hlt). cbn [mbind option_bind].
    unfold h, W1. rewrite window_after_schedule_head by done. done. }
  split_and!.
  - by apply _scheduleDismiss_spec.
  - intros t. apply window_after_schedule_timers.
  - intros ms Hms. unfold fire_timer. rewrite Hready.
    rewrite decide_False by lia. done.
  - intros ms Hms. unfold fire_timer. rewrite Hready.
    rewrite decide_True by lia. done.
  - intros σ2 K2 W2 Hs2 HK2 HW2. rewrite (run_task_dismiss _ _ _ _ K2 W2) by done.
    split.
    + intros a -> ->. rewrite decide_True by done.
      assert (sound (put_core this (with_dismissTimer None K2) σ2)) as Hs3.
      { eapply sound_preserves; [|exact Hs2].
        by eapply (preserves_put_core this K2). }
      destruct (KeyborgState_setVal_result false _ Hs3)
        as (s' & es & -> & Hfalse & _).
      eexists. split; [done|]. by apply Hfalse.
    + intros Hmoved. destruct was as [a|]; [|done].
      destruct (activeElement W2) as [b|]; [|done].
      rewrite decide_False; [done|]. intros ->. naive_solver.
Qed.

Lemma scheduled_dismiss_witness :
  _scheduleDismiss 0 keyboard_page
  = Some (put_core 0 (with_dismissTimer (Some 1%positive)
                        (example_core None None))
            (put_window 0
               (window_after_schedule 0 (example_core None None)
                  (now keyboard_page) 0 example_window)
               keyboard_page))
  ∧ ∀ ms, ms < 500 →
      fire_timer 0 1%positive
        (advance ms
           (put_core 0 (with_dismissTimer (Some 1%positive)
                          (example_core None None))
              (put_window 0
                 (window_after_schedule 0 (example_core None None)
                    (now keyboard_page) 0 example_window)
                 keyboard_page)))
      = Some (advance ms
                (put_core 0 (with_dismissTimer (Some 1%positive)
                               (example_core None None))
                   (put_window 0
                      (window_after_schedule 0 (example_core None None)
                         (now keyboard_page) 0 example_window)
                      keyboard_page))).
Proof.
  destruct (scheduled_dismiss 0 keyboard_page (example_core None None) 0
              example_window) as (Hsched & _ & Hearly & _).
  - vm_compute. reflexivity.
  - reflexivity.
  - vm_compute. reflexivity.
  - apply Forall_nil_2.
  - split; [exact Hsched | exact Hearly].
Defined.

(** The two outcomes of the timer on the example page: with the focus where
    it was the page leaves keyboard navigation, and it stays in it when the
    focus has moved. *)
Lemma dismiss_after_delay_examples :
  (KeyborgState_getVal
     <$> run [KeyDown 0 (mkKeyboardEvent Escape); Advance 500;
              FireTimer 0 1%positive] keyboard_page) = Some false
  ∧ (KeyborgState_getVal
       <$> run [KeyDown 0 (mkKeyboardEvent Escape); MoveFocus 0 (Some 6);
                Advance 500; FireTimer 0 1%positive] keyboard_page) = Some true
  ∧ (KeyborgState_getVal
       <$> run [KeyDown 0 (mkKeyboardEvent Escape); Advance 499;
                FireTimer 0 1%positive] keyboard_page) = Some true.
Proof. split_and!; vm_compute; reflexivity. Qed.

(** C6 as the spec words it does not hold when the document has no focused
    element: nothing is focused when the dismiss is scheduled and nothing is
    focused when the timer runs, so the focused element is unchanged, and yet
    the page stays in keyboard navigation. *)
Lemma dismiss_without_focus_stays :
  ∃ σ1 σ2 W1 W2,
    perform (KeyDown 0 (mkKeyboardEvent Escape)) unfocused_keyboard_page
    = Some σ1
    ∧ windows σ1 !! 0 = Some W1
    ∧ timers W1 = [mkTimer 1 500 (DismissCheck 0 0 None)]
    ∧ run [Advance 500; FireTimer 0 1%positive] σ1 = Some σ2
    ∧ windows σ2 !! 0 = Some W2
    ∧ activeElement W2 = activeElement W1
    ∧ timers W2 = []
    ∧ KeyborgState_getVal σ2 = true.
Proof.
  eexists _, _, _, _. split; [vm_compute; reflexivity|].
  split; [reflexivity|]. split; [reflexivity|].
  split; [vm_compute; reflexivity|].
  split; [reflexivity|]. by split_and!.
Qed.

(** ** Handles and cores *)

(** [Keyborg.dispose] on a registered handle that is not the last one of its
    window. *)
Lemma Keyborg_dispose_shared h σ H w W cur :
  keyborgs σ !! h = Some H → _win H = Some w → windows σ !! w = Some W →
  __keyborg W = Some cur → is_Some (obj_get (_id H) (refs cur)) →
  obj_delete (_id H) (refs cur) ≠ [] →
  Keyborg_dispose h σ
  = Some (put_keyborg h (mkKeyborg (_id H) None None [])
            (put_window w
               (with_slot
                  (Some (mkSlot (core cur) (obj_delete (_id H) (refs cur)))) W)
               σ)).
Proof.
  intros HH Hw HW Hcur [h' Hg] Hne. unfold Keyborg_dispose.
  rewrite HH. cbn [mbind option_bind]. rewrite Hw, HW.
  cbn [mbind option_bind]. rewrite Hcur, Hg.
  rewrite decide_False by (by rewrite obj_keys_nil).
  cbn [mbind option_bind].
  change (keyborgs (put_window ?a ?b ?s)) with (keyborgs s).
  rewrite HH. done.
Qed.

(** [Keyborg.dispose] on the last registered handle of its window. *)
Lemma Keyborg_dispose_last h σ H w W cur K :
  keyborgs σ !! h = Some H → _win H = Some w → windows σ !! w = Some W →
  __keyborg W = Some cur → is_Some (obj_get (_id H) (refs cur)) →
  obj_delete (_id H) (refs cur) = [] →
  get_core (core cur) σ = Some K → core_win K = Some w →
  ∃ σ' W' K',
    Keyborg_dispose h σ = Some σ'
    ∧ windows σ' !! w = Some W'
    ∧ W' = with_slot None
             (window_after_dispose (core cur) K
                (with_slot (Some (mkSlot (core cur) [])) W))
    ∧ get_core (core cur) σ' = Some K'
    ∧ K' = mkCore (core_id K) None None None (_triggerKeys K) (_dismissKeys K)
    ∧ _state σ' = _state (KeyborgState_remove (core_id K) σ)
    ∧ keyborgs σ' = <[h := mkKeyborg (_id H) None None []]> (keyborgs σ)
    ∧ trace σ' = trace σ.
Proof.
  intros HH Hw HW Hcur [h' Hg] Hemp HK HKw.
  pose proof (lookup_lt_Some _ _ _ HW) as Hlt.
  pose proof (get_core_lt _ _ _ HK) as Hc.
  unfold Keyborg_dispose.
  rewrite HH. cbn [mbind option_bind]. rewrite Hw, HW.
  cbn [mbind option_bind]. rewrite Hcur, Hg, Hemp.
  rewrite decide_True by done.
  set (Wa := with_slot (Some (mkSlot (core cur) [])) W).
  rewrite (KeyborgCore_dispose_spec (core cur) (put_window w Wa σ) K w Wa);
    [|exact HK|exact HKw|].
  2:{ unfold put_window. wsimpl. by apply list_lookup_insert_eq. }
  cbn [mbind option_bind]. rewrite KeyborgState_remove_unfold.
  change (windows (with_state ?s ?σ0)) with (windows σ0).
  rewrite put_window_twice.
  assert (windows (put_core (core cur)
                     (mkCore (core_id K) None None None (_triggerKeys K)
                        (_dismissKeys K))
                     (put_window w (window_after_dispose (core cur) K Wa) σ))
          !! w = Some (window_after_dispose (core cur) K Wa)) as HWd
    by apply (focused_window _ _ _ Hlt).
  rewrite HWd. cbn [mbind option_bind].
  change (keyborgs (put_window ?a ?b ?s)) with (keyborgs s).
  change (keyborgs (with_state ?a ?s)) with (keyborgs s).
  change (keyborgs (put_core ?a ?b ?s)) with (keyborgs s).
  change (keyborgs (put_window ?a ?b ?s)) with (keyborgs s).
  rewrite HH. cbn [mbind option_bind].
  eexists _, _, _. split; [reflexivity|].
  split.
  { unfold put_keyborg, put_window, put_core. wsimpl.
    apply list_lookup_insert_eq. by rewrite length_insert. }
  split; [reflexivity|].
  split.
  { unfold get_core, put_keyborg, put_window, put_core. wsimpl.
    by rewrite list_lookup_insert_eq. }
  split; [reflexivity|].
  split; [by rewrite KeyborgState_remove_unfold|].
  split; reflexivity.
Qed.

(** C7.  In every world a page can be in, a window has a [__keyborg] entry
    exactly when some handle still holds that window (has been created for it
    and not disposed).  Disposing one of two such handles leaves the other
    handle as it is, subscribers included, and leaves the cores, the state
    singleton and the window's listeners and timers alone; the window keeps
    its entry, with the other handle in it.  Disposing the only such handle
    disposes the core (its window reference and timers are gone, its
    listeners and the focus-event shim are off the window, it is out of the
    state singleton's registry) and removes the window's entry. *)
Theorem core_iff_live_handle (σ : World) :
  reachable σ →
  (∀ w W, windows σ !! w = Some W →
          (is_Some (__keyborg W)
           ↔ ∃ h H, keyborgs σ !! h = Some H ∧ _win H = Some w))
  ∧ (∀ h1 h2 H1 H2 w,
       h1 ≠ h2 →
       keyborgs σ !! h1 = Some H1 → keyborgs σ !! h2 = Some H2 →
       _win H1 = Some w → _win H2 = Some w →
       ∃ σ' W W' cur,
         Keyborg_dispose h1 σ = Some σ'
         ∧ windows σ !! w = Some W ∧ __keyborg W = Some cur
         ∧ keyborgs σ' !! h2 = Some H2
         ∧ cores σ' = cores σ ∧ _state σ' = _state σ ∧ trace σ' = trace σ
         ∧ windows σ' !! w = Some W'
         ∧ __keyborg W'
           = Some (mkSlot (core cur) (obj_delete (_id H1) (refs cur)))
         ∧ obj_get (_id H2) (obj_delete (_id H1) (refs cur)) = Some h2
         ∧ listeners W' = listeners W ∧ timers W' = timers W
         ∧ focusEventInstalled W' = focusEventInstalled W)
  ∧ (∀ h H w,
       keyborgs σ !! h = Some H → _win H = Some w →
       (∀ h' H', keyborgs σ !! h' = Some H' → _win H' = Some w → h' = h) →
       ∃ σ' W cur K W' K',
         Keyborg_dispose h σ = Some σ'
         ∧ windows σ !! w = Some W ∧ __keyborg W = Some cur
         ∧ get_core (core cur) σ = Some K
         ∧ windows σ' !! w = Some W'
         ∧ __keyborg W' = None
         ∧ focusEventInstalled W' = false
         ∧ (∀ l, l ∈ listeners W' →
                 l ≠ OnFocusIn (core cur) ∧ l ≠ OnMouseDown (core cur)
                 ∧ l ≠ OnKeyDown (core cur))
         ∧ get_core (core cur) σ' = Some K'
         ∧ core_win K' = None
         ∧ _isMouseUsedTimer K' = None ∧ _dismissTimer K' = None
         ∧ obj_get (core_id K) (__keyborgCoreRefs (_state σ')) = None).
Proof.
  intros Hwf%reachable_well_formed. split_and!.
  - intros w W HW. pose proof (win_slot_lookup _ _ _ HW) as Hslot. split.
    + intros [slot Hs]. rewrite Hs in Hslot.
      pose proof (wf_slot_refs σ Hwf w slot Hslot) as Hne.
      destruct (refs slot) as [|[id h] r] eqn:Er; [done|].
      assert ((id, h) ∈ refs slot) as Hin by (rewrite Er; left).
      apply (wf_slot_handles σ Hwf w slot id h Hslot) in Hin.
      apply keyborg_info_inv in Hin as (H & ? & ? & ?). eauto.
    + intros (h & H & HH & Hw).
      pose proof (keyborg_info_lookup _ _ _ HH) as Hi. rewrite Hw in Hi.
      destruct (wf_handle σ Hwf h _ w Hi) as (slot & Hs & _).
      rewrite Hslot in Hs. injection Hs as ->. eauto.
  - intros h1 h2 H1 H2 w Hne HH1 HH2 Hw1 Hw2.
    pose proof (keyborg_info_lookup _ _ _ HH1) as Hi1. rewrite Hw1 in Hi1.
    pose proof (keyborg_info_lookup _ _ _ HH2) as Hi2. rewrite Hw2 in Hi2.
    destruct (wf_handle σ Hwf h1 _ w Hi1) as (cur & Hs & Hg1).
    destruct (wf_handle σ Hwf h2 _ w Hi2) as (cur' & Hs' & Hg2).
    rewrite Hs in Hs'. injection Hs' as <-.
    apply win_slot_inv in Hs as (W & HW & Hcur).
    assert (_id H2 ≠ _id H1) as Hid.
    { intros Heq. rewrite Heq in Hi2.
      by destruct Hne; eapply (wf_handle_inj σ Hwf h1 h2). }
    assert (obj_get (_id H2) (obj_delete (_id H1) (refs cur)) = Some h2)
      as Hg2' by (by rewrite obj_get_delete_ne).
    eexists _, W, _, cur. split.
    { apply (Keyborg_dispose_shared h1 σ H1 w W cur); eauto.
      by eapply obj_get_nonempty. }
    split; [done|]. split; [done|]. split.
    { unfold put_keyborg. wsimpl. by rewrite list_lookup_insert_ne. }
    split; [done|]. split; [done|]. split; [done|]. split.
    { unfold put_keyborg, put_window. wsimpl.
      apply list_lookup_insert_eq. by eapply lookup_lt_Some. }
    by split_and!.
  - intros h H w HH Hw Honly.
    pose proof (keyborg_info_lookup _ _ _ HH) as Hi. rewrite Hw in Hi.
    destruct (wf_handle σ Hwf h _ w Hi) as (cur & Hs & Hg).
    destruct (wf_slot_core σ Hwf w cur Hs) as [cid Hc].
    apply core_info_inv in Hc as (K & HK & _ & HKw).
    assert (obj_delete (_id H) (refs cur) = []) as Hemp.
    { destruct (obj_delete (_id H) (refs cur)) as [|[id' h'] r] eqn:Ed; [done|].
      assert ((id', h') ∈ obj_delete (_id H) (refs cur)) as Hin
        by (rewrite Ed; left).
      apply obj_delete_elem in Hin as [Hin Hid].
      apply (wf_slot_handles σ Hwf w cur id' h' Hs) in Hin.
      apply keyborg_info_inv in Hin as (H' & HH' & Hid' & Hw').
      pose proof (Honly h' H' HH' Hw') as ->. congruence. }
    apply win_slot_inv in Hs as (W & HW & Hcur).
    destruct (Keyborg_dispose_last h σ H w W cur K HH Hw HW Hcur
                (ltac:(eauto)) Hemp HK HKw)
      as (σ' & W' & K' & Hd & HW' & -> & HK' & -> & Hst & _).
    exists σ', W, cur, K. eexists _, _.
    split; [done|]. split; [done|]. split; [done|]. split; [done|].
    split; [done|]. split; [done|]. split; [done|]. split.
    { intros l. simpl. rewrite !list_elem_of_filter. naive_solver. }
    split; [done|]. split; [done|]. split; [done|]. split; [done|].
    rewrite Hst, KeyborgState_remove_unfold. simpl.
    apply obj_get_delete_eq.
Qed.

Lemma core_iff_live_handle_witness :
  reachable two_handles_page
  ∧ (∀ w W, windows two_handles_page !! w = Some W →
            (is_Some (__keyborg W)
             ↔ ∃ h H, keyborgs two_handles_page !! h = Some H
                      ∧ _win H = Some w))
  ∧ ∃ σ', Keyborg_dispose 0 two_handles_page = Some σ'
          ∧ keyborgs σ' !! 1 = Some (mkKeyborg "k3" (Some 0) (Some 0) [8])
          ∧ cores σ' = cores two_handles_page
          ∧ _state σ' = _state two_handles_page.
Proof.
  assert (reachable two_handles_page) as Hr.
  { apply page_reachable. vm_compute. eauto. }
  destruct (core_iff_live_handle two_handles_page Hr) as (Hiff & Htwo & _).
  split; [exact Hr|]. split; [exact Hiff|].
  destruct (Htwo 0 1 (mkKeyborg "k1" (Some 0) (Some 0) [7])
              (mkKeyborg "k3" (Some 0) (Some 0) [8]) 0)
    as (σ' & W & W' & cur & Hd & _ & _ & Hk & Hc & Hs & _);
    [lia | vm_compute; reflexivity | vm_compute; reflexivity
    | reflexivity | reflexivity |].
  exists σ'. by split_and!.
Defined.

(** * Further properties of the code *)

(** ** The notification round, exactly *)

Lemma for_of_emit {A} (xs : list A) (f : A → World → option World)
    (g : A → list Effect) (σ : World) (es0 : list Effect) :
  (∀ x es, x ∈ xs → f x (emit es σ) = Some (emit (es ++ g x) σ)) →
  for_of xs f (emit es0 σ) = Some (emit (es0 ++ flat_map g xs) σ).
Proof.
  revert es0. induction xs as [|x r IH]; intros es0 Hf; simpl.
  - by rewrite app_nil_r.
  - rewrite Hf by left. rewrite IH.
    + by rewrite <- app_assoc.
    + intros y es Hy. apply Hf. by right.
Qed.

Lemma KeyborgCore_update_spec c b σ K :
  sound σ → get_core c σ = Some K →
  KeyborgCore_update c b σ = Some (emit (update_effects b σ c) σ).
Proof.
  intros (Hc & Hw & _) HK. unfold KeyborgCore_update, update_effects.
  rewrite HK. cbn [mbind option_bind].
  destruct (core_win K) as [w|] eqn:Ew; [|done].
  assert (w < length (windows σ)) as [W HW]%lookup_lt_is_Some.
  { apply get_core_lookup in HK.
    by apply (proj1 (Forall_lookup _ _) Hc c (Some K) HK K w). }
  emit_simpl. rewrite HW. cbn [mbind option_bind].
  destruct (__keyborg W) as [slot|] eqn:Es; [|done].
  pose proof (proj1 (Forall_lookup _ _) Hw w W HW slot Es) as Hrefs.
  apply (for_of_emit (obj_keys (refs slot)) _
           (λ id, match obj_get id (refs slot) with
                  | Some h => handle_effects b σ h
                  | None => []
                  end) σ [Updated c b]).
  intros id es Hid. apply obj_get_keys in Hid as [h Hh]. rewrite Hh.
  unfold Keyborg_update, handle_effects. emit_simpl.
  apply obj_get_elem in Hh.
  pose proof (proj1 (Forall_forall _ _) Hrefs _ Hh) as Hlt. simpl in Hlt.
  apply lookup_lt_is_Some in Hlt as [H ->]. by rewrite emit_emit.
Qed.

Lemma obj_get_app_fresh {V} k (o1 o2 : JSObject V) :
  k ∉ obj_keys o1 → obj_get k (o1 ++ o2) = obj_get k o2.
Proof.
  unfold obj_keys. induction o1 as [|[k' v'] r IH]; simpl; [done|].
  intros [? ?]%not_elem_of_cons. rewrite decide_False by done. by apply IH.
Qed.

Lemma obj_delete_absent {V} k (o : JSObject V) :
  k ∉ obj_keys o → obj_delete k o = o.
Proof.
  unfold obj_keys. induction o as [|[k' v'] r IH]; simpl; [done|].
  intros [? ?]%not_elem_of_cons. rewrite decide_False by done.
  by rewrite IH.
Qed.

Lemma obj_delete_middle {V} k (v : V) o1 o2 :
  k ∉ obj_keys o1 → k ∉ obj_keys o2 →
  obj_delete k (o1 ++ (k, v) :: o2) = o1 ++ o2.
Proof.
  intros H1 H2. unfold obj_keys in *.
  induction o1 as [|[k' v'] r IH]; simpl.
  - rewrite decide_True by done. by apply obj_delete_absent.
  - apply not_elem_of_cons in H1 as [? ?]. rewrite decide_False by done.
    by rewrite IH.
Qed.

(** The loop of [setVal], entered with [suf] still to visit and [kept]
    already visited and kept. *)
Lemma KeyborgState_setVal_loop b σ suf : ∀ kept es0,
  sound σ →
  NoDup (obj_keys (kept ++ suf)) →
  for_of (obj_keys suf)
    (λ id σ',
       match obj_get id (__keyborgCoreRefs (_state σ')) with
       | None => None
       | Some ref =>
           match deref ref σ' with
           | Some _ => KeyborgCore_update (referent ref) b σ'
           | None => Some (KeyborgState_remove id σ')
           end
       end)
    (emit es0 (with_state (mkKeyborgState (kept ++ suf) b) σ))
  = Some
      (emit
         (es0 ++ flat_map (λ e, update_effects b σ (referent e.2))
                   (filter (λ e, is_Some (deref e.2 σ)) suf))
         (with_state
            (mkKeyborgState
               (kept ++ filter (λ e, is_Some (deref e.2 σ)) suf)
               (if decide (kept ++ filter (λ e, is_Some (deref e.2 σ)) suf = []
                           ∧ suf ≠ [])
                then false else b)) σ)).
Proof.
  induction suf as [|[id r] suf IH]; intros kept es0 Hs Hnd.
  - simpl. rewrite !app_nil_r. rewrite decide_False by naive_solver. done.
  - assert ((id ∉ obj_keys kept) ∧ (id ∉ obj_keys suf)) as [Hk Hsuf].
    { unfold obj_keys in *. rewrite fmap_app in Hnd. simpl in Hnd.
      apply NoDup_app in Hnd as (_ & Hdis & Hnd').
      apply NoDup_cons in Hnd' as [? _]. split; [|done].
      intros Hin. apply (Hdis id Hin). left. }
    cbn [obj_keys map fst for_of]. emit_simpl. simpl _state.
    cbn [__keyborgCoreRefs].
    rewrite obj_get_app_fresh by done. simpl obj_get.
    rewrite decide_True by done.
    change (deref r (emit es0 (with_state ?s σ))) with (deref r σ).
    destruct (deref r σ) as [K|] eqn:Ed.
    + rewrite (KeyborgCore_update_spec _ _ _ K).
      * rewrite emit_emit.
        change (update_effects b (emit es0 (with_state ?s σ)) (referent r))
          with (update_effects b σ (referent r)).
        rewrite (cons_middle (id, r) kept suf), app_assoc.
        rewrite IH; [|done|by rewrite <- app_assoc].
        rewrite filter_cons_True by (simpl; rewrite Ed; eauto).
        simpl flat_map. rewrite <- !app_assoc. simpl.
        rewrite (decide_False (P := _ ∧ suf ≠ []))
          by (intros [?%app_eq_nil _]; naive_solver).
        rewrite (decide_False (P := _ ∧ (id, r) :: suf ≠ []))
          by (intros [[_ ?]%app_eq_nil _]; done).
        done.
      * apply sound_emit, sound_with_state; done.
      * exact Ed.
    + rewrite KeyborgState_remove_unfold. emit_simpl. simpl _state.
      cbn [__keyborgCoreRefs _isNavigatingWithKeyboard].
      rewrite obj_delete_middle by done.
      rewrite filter_cons_False by (simpl; rewrite Ed; by intros [? ?]).
      destruct (decide (kept ++ suf = [])) as [Hemp|Hne].
      * apply app_eq_nil in Hemp as [-> ->]. simpl.
        by rewrite app_nil_r.
      * change (with_state ?s (emit es0 (with_state ?s0 σ)))
          with (emit es0 (with_state s σ)).
        rewrite IH; [|done|].
        2:{ unfold obj_keys in *. rewrite fmap_app in *. simpl in Hnd.
            apply NoDup_app in Hnd as (H1 & H2 & H3).
            apply NoDup_cons in H3 as [_ H3].
            apply NoDup_app. split_and!; [done| |done].
            intros x Hx Hx'. apply (H2 x Hx). by right. }
        f_equal. f_equal. f_equal. f_equal.
        destruct (decide (kept ++ filter _ suf = [] ∧ suf ≠ []))
          as [[He Hs']|Hn].
        -- by rewrite decide_True.
        -- rewrite decide_False; [done|]. intros [He _]. apply Hn.
           split; [done|]. intros ->. simpl in He. rewrite app_nil_r in *.
           done.
Qed.

Lemma KeyborgState_setVal_changing b σ :
  sound σ → KeyborgState_getVal σ ≠ b →
  KeyborgState_setVal b σ
  = Some (emit (setVal_effects b σ) (with_state (state_after_setVal b σ) σ)).
Proof.
  intros Hs Hb. unfold KeyborgState_setVal, KeyborgState_getVal in *.
  rewrite decide_False by done.
  pose proof (KeyborgState_setVal_loop b σ (__keyborgCoreRefs (_state σ))
                [] [] Hs) as Hloop.
  simpl in Hloop. rewrite emit_nil in Hloop. rewrite Hloop; [done|].
  apply Hs.
Qed.

Lemma flat_map_nil {A B} (f : A → list B) (l : list A) :
  (∀ x, f x = []) → flat_map f l = [].
Proof. intros Hf. induction l as [|x r IH]; simpl; [done|]. by rewrite Hf. Qed.

Lemma flat_map_singleton {A B} (f : A → list B) (g : A → B) (l : list A) :
  (∀ x, f x = [g x]) → flat_map f l = map g l.
Proof.
  intros Hf. induction l as [|x r IH]; simpl; [done|]. by rewrite Hf, IH.
Qed.

Lemma handle_effects_no_subscribers b σ h :
  no_subscribers σ → handle_effects b σ h = [].
Proof.
  intros Hn. unfold handle_effects.
  destruct (keyborgs σ !! h) as [H|] eqn:E; [|done].
  by rewrite (proj1 (Forall_lookup _ _) Hn h H E).
Qed.

Lemma setVal_effects_no_subscribers b σ :
  no_subscribers σ →
  setVal_effects b σ = map (λ e, Updated (referent e.2) b) (live_refs σ).
Proof.
  intros Hn. unfold setVal_effects. apply flat_map_singleton.
  intros e. unfold update_effects. f_equal.
  destruct (get_core _ σ ≫= core_win) as [w|]; [|done].
  destruct (windows σ !! w ≫= __keyborg) as [slot|]; [|done].
  apply flat_map_nil. intros id.
  destruct (obj_get id (refs slot)); [|done].
  by apply handle_effects_no_subscribers.
Qed.

(** X1.  With no subscriber on any handle, so that no code of the host runs
    during the call, a [setVal(b)] that changes the value returns.  Every
    registry entry whose core has been collected is dropped and the others
    stay, in order; every core still alive has its [update] entered once, in
    registration order; the value stored is [b], or [false] when entries
    were dropped and none is left.  Windows, cores, handles, the identifier
    counter and the clock are as before. *)
Theorem setVal_without_subscribers (b : bool) (σ : World) :
  sound σ → no_subscribers σ → KeyborgState_getVal σ ≠ b →
  ∃ σ',
    KeyborgState_setVal b σ = Some σ'
    ∧ __keyborgCoreRefs (_state σ') = live_refs σ
    ∧ KeyborgState_getVal σ'
      = (if decide (live_refs σ = [] ∧ __keyborgCoreRefs (_state σ) ≠ [])
         then false else b)
    ∧ trace σ'
      = trace σ ++ map (λ e, Updated (referent e.2) b) (live_refs σ)
    ∧ windows σ' = windows σ ∧ cores σ' = cores σ
    ∧ keyborgs σ' = keyborgs σ
    ∧ _lastId σ' = _lastId σ ∧ now σ' = now σ.
Proof.
  intros Hs Hn Hb. eexists. split; [by apply KeyborgState_setVal_changing|].
  rewrite (setVal_effects_no_subscribers b σ Hn). by split_and!.
Qed.

Lemma setVal_without_subscribers_witness :
  (∃ σ', KeyborgState_setVal true collected_page = Some σ'
         ∧ __keyborgCoreRefs (_state σ') = []
         ∧ KeyborgState_getVal σ' = false
         ∧ trace σ' = trace collected_page)
  ∧ (∃ σ', KeyborgState_setVal true quiet_page = Some σ'
           ∧ KeyborgState_getVal σ' = true
           ∧ trace σ' = trace quiet_page ++ [Updated 0 true]).
Proof.
  split.
  - destruct (setVal_without_subscribers true collected_page)
      as (σ' & Hrun & Hreg & Hval & Htr & _).
    + unfold sound. split_and!.
      * apply Forall_cons. split; [by intros K w [=] | apply Forall_nil_2].
      * apply Forall_cons. split; [|apply Forall_nil_2].
        intros slot [= <-]. apply Forall_cons.
        split; [vm_compute; lia | apply Forall_nil_2].
      * vm_compute. apply NoDup_singleton.
    + apply Forall_cons. split; [reflexivity | apply Forall_nil_2].
    + vm_compute. discriminate.
    + exists σ'. split; [exact Hrun|]. split; [exact Hreg|].
      split; [exact Hval|]. rewrite Htr. vm_compute. reflexivity.
  - destruct (setVal_without_subscribers true quiet_page)
      as (σ' & Hrun & _ & Hval & Htr & _).
    + apply page_sound. vm_compute. eauto.
    + apply Forall_cons. split; [reflexivity | apply Forall_nil_2].
    + vm_compute. discriminate.
    + exists σ'. split; [exact Hrun|]. split; [exact Hval | exact Htr].
Defined.

(** Host services written out, so that a run is a chain of stores. *)
Ltac unfold_host :=
  unfold setTimeout, clearTimeout, addEventListener, removeEventListener,
    setupFocusEvent, disposeFocusEvent in *.

(** ** The mouse grace period *)




(** ** Disposal of a core *)

Lemma filter_none {A} (P : A → Prop) `{∀ x, Decision (P x)} (l : list A) :
  (∀ x, x ∈ l → ¬ P x) → filter P l = [].
Proof.
  induction l as [|x r IH]; intros Hn; [done|].
  rewrite filter_cons_False by (apply Hn; left).
  apply IH. intros y Hy. apply Hn. by right.
Qed.

Lemma window_after_dispose_no_timer c K W h :
  _isMouseUsedTimer K = Some h ∨ _dismissTimer K = Some h →
  filter (λ x, handle x = h) (timers (window_after_dispose c K W)) = [].
Proof.
  intros Hh. apply filter_none. intros t Ht.
  unfold window_after_dispose in Ht. simpl in Ht.
  destruct Hh as [Hm|Hd].
  - rewrite Hm in Ht. destruct (_dismissTimer K).
    + by apply list_elem_of_filter in Ht as [_ [? _]%list_elem_of_filter].
    + by apply list_elem_of_filter in Ht as [? _].
  - rewrite Hd in Ht. by apply list_elem_of_filter in Ht as [? _].
Qed.

(** X5.  [dispose()] of a core that holds its window returns, and leaves no
    timer of the core behind: whatever the time, the host finds nothing to
    run under the handles of the core's mouse-used and dismiss timers.  A
    second [dispose()] changes nothing. *)
Theorem core_dispose_cancels_timers
    (c : core_ref) (σ : World) (K : KeyborgCore) (w : win_ref) (W : Window) :
  get_core c σ = Some K → core_win K = Some w → windows σ !! w = Some W →
  ∃ σ',
    KeyborgCore_dispose c σ = Some σ'
    ∧ (∀ h ms,
         _isMouseUsedTimer K = Some h ∨ _dismissTimer K = Some h →
         fire_timer w h (advance ms σ') = Some (advance ms σ'))
    ∧ KeyborgCore_dispose c σ' = Some σ'.
Proof.
  intros HK Hw HW.
  pose proof (get_core_lt _ _ _ HK) as Hc.
  pose proof (lookup_lt_Some _ _ _ HW) as Hlt.
  rewrite (KeyborgCore_dispose_spec c σ K w W) by done.
  eexists. split; [done|]. rewrite KeyborgState_remove_unfold. split.
  - intros h ms Hh. unfold fire_timer, ready_timer.
    change (windows (advance ms (with_state ?s ?σ0))) with (windows σ0).
    rewrite (focused_window _ _ _ Hlt). cbn [mbind option_bind].
    by rewrite window_after_dispose_no_timer.
  - unfold KeyborgCore_dispose.
    change (get_core c (with_state ?s ?σ0)) with (get_core c σ0).
    by rewrite (focused_core _ _ _ Hc).
Qed.

Lemma core_dispose_cancels_timers_witness :
  ∃ σ',
    KeyborgCore_dispose 0
      (page (setup ++ [KeyDown 0 (mkKeyboardEvent Tab);
                       KeyDown 0 (mkKeyboardEvent Escape)])) = Some σ'
    ∧ (∀ h ms,
         _isMouseUsedTimer (example_core None (Some 1%positive)) = Some h
         ∨ _dismissTimer (example_core None (Some 1%positive)) = Some h →
         fire_timer 0 h (advance ms σ') = Some (advance ms σ'))
    ∧ KeyborgCore_dispose 0 σ' = Some σ'.
Proof.
  eapply (core_dispose_cancels_timers 0 _ (example_core None (Some 1%positive))
            0); [vm_compute; reflexivity | reflexivity | vm_compute; reflexivity].
Defined.

(** ** The registry of the state singleton *)

Lemma obj_set_absent {V} k (v : V) o :
  obj_get k o = None → obj_set k v o = o ++ [(k, v)].
Proof.
  induction o as [|[k' v'] r IH]; simpl; [done|].
  case_decide; [done|]. intros Hr. by rewrite IH.
Qed.

Lemma obj_get_None_keys {V} k (o : JSObject V) :
  obj_get k o = None ↔ k ∉ obj_keys o.
Proof.
  rewrite obj_get_keys. destruct (obj_get k o) as [v|]; split.
  - done.
  - intros Hn. destruct Hn. eauto.
  - intros _ [? ?]. done.
  - done.
Qed.

(** X6.  [add(core)] registers a core under its id at the end of the
    registry when the id is free, and does nothing at all when the id is
    taken (the entry found there is not replaced).  It never changes the
    stored value, and adding a second time changes nothing. *)
Theorem add_registers_once (c : core_ref) (σ : World) (K : KeyborgCore) :
  get_core c σ = Some K →
  ∃ σ',
    KeyborgState_add c σ = Some σ'
    ∧ KeyborgState_add c σ' = Some σ'
    ∧ KeyborgState_getVal σ' = KeyborgState_getVal σ
    ∧ (is_Some (obj_get (core_id K) (__keyborgCoreRefs (_state σ))) → σ' = σ)
    ∧ (obj_get (core_id K) (__keyborgCoreRefs (_state σ)) = None →
       __keyborgCoreRefs (_state σ')
       = __keyborgCoreRefs (_state σ) ++ [(core_id K, mkWeakRef c)]).
Proof.
  intros HK. unfold KeyborgState_add, obj_has. rewrite HK.
  destruct (obj_get (core_id K) (__keyborgCoreRefs (_state σ))) as [r|] eqn:E.
  - exists σ. rewrite HK, E. split_and!; try done.
  - eexists. split; [done|].
    change (get_core c (with_state ?s σ)) with (get_core c σ). rewrite HK.
    simpl. rewrite obj_get_set_eq. split_and!; try done.
    intros _. by apply obj_set_absent.
Qed.

Lemma add_registers_once_witness :
  ∃ σ',
    KeyborgState_add 0 pointer_page = Some σ'
    ∧ KeyborgState_add 0 σ' = Some σ'
    ∧ KeyborgState_getVal σ' = KeyborgState_getVal pointer_page
    ∧ (is_Some (obj_get (core_id (example_core None None))
                  (__keyborgCoreRefs (_state pointer_page))) →
       σ' = pointer_page)
    ∧ (obj_get (core_id (example_core None None))
         (__keyborgCoreRefs (_state pointer_page)) = None →
       __keyborgCoreRefs (_state σ')
       = __keyborgCoreRefs (_state pointer_page)
           ++ [(core_id (example_core None None), mkWeakRef 0)]).
Proof.
  apply (add_registers_once 0 pointer_page (example_core None None)).
  vm_compute. reflexivity.
Defined.

(** X7.  [remove(id)] takes the entry of [id] out of the registry and leaves
    every other entry, and the order, alone; an [id] that is not registered
    leaves the registry as it is.  In both cases the stored value is reset to
    [false] when the registry is empty afterwards and is kept otherwise, so
    a [remove] of an unknown id on an empty registry still clears a [true]. *)
Theorem remove_resets_on_empty (id : string) (σ : World) :
  obj_get id (__keyborgCoreRefs (_state (KeyborgState_remove id σ))) = None
  ∧ (∀ k, k ≠ id →
          obj_get k (__keyborgCoreRefs (_state (KeyborgState_remove id σ)))
          = obj_get k (__keyborgCoreRefs (_state σ)))
  ∧ sublist (__keyborgCoreRefs (_state (KeyborgState_remove id σ)))
      (__keyborgCoreRefs (_state σ))
  ∧ (obj_get id (__keyborgCoreRefs (_state σ)) = None →
     __keyborgCoreRefs (_state (KeyborgState_remove id σ))
     = __keyborgCoreRefs (_state σ))
  ∧ KeyborgState_getVal (KeyborgState_remove id σ)
    = (if decide (__keyborgCoreRefs (_state (KeyborgState_remove id σ)) = [])
       then false else KeyborgState_getVal σ).
Proof.
  rewrite KeyborgState_remove_unfold. simpl. split_and!.
  - apply obj_get_delete_eq.
  - intros k Hk. by apply obj_get_delete_ne.
  - induction (__keyborgCoreRefs (_state σ)) as [|[k v] r IH]; simpl; [done|].
    case_decide; [by apply sublist_cons | by apply sublist_skip].
  - intros Hn. by apply obj_delete_absent, obj_get_None_keys.
  - done.
Qed.

Lemma remove_resets_on_empty_witness :
  __keyborgCoreRefs
    (_state (KeyborgState_remove "c9"
               (with_state (mkKeyborgState [] true) (initial_world true))))
  = []
  ∧ KeyborgState_getVal
      (KeyborgState_remove "c9"
         (with_state (mkKeyborgState [] true) (initial_world true))) = false.
Proof.
  destruct (remove_resets_on_empty "c9"
              (with_state (mkKeyborgState [] true) (initial_world true)))
    as (_ & _ & _ & Hsame & Hval).
  split; [by apply Hsame | by rewrite Hval].
Defined.

(** ** Creating handles *)

(** X8.  A handle created for a window that already has a core joins that
    core: no core is constructed, the [props] it was given are ignored, and
    listeners, timers and the state singleton are as before.  The handle gets
    the next identifier, an empty subscriber list, and is entered in the
    window's registry under its identifier. *)
Theorem second_handle_joins_core
    (win : win_ref) (props : option KeyborgProps) (σ : World)
    (W : Window) (current : KeyborgSlot) :
  windows σ !! win = Some W → __keyborg W = Some current →
  let id := ("k" +:+ pretty (S (_lastId σ)))%string in
  let this := length (keyborgs σ) in
  Keyborg_new win props σ = Keyborg_new win None σ
  ∧ ∃ σ',
      Keyborg_new win props σ = Some (this, σ')
      ∧ _lastId σ' = S (_lastId σ)
      ∧ cores σ' = cores σ ∧ _state σ' = _state σ ∧ trace σ' = trace σ
      ∧ keyborgs σ'
        = keyborgs σ ++ [mkKeyborg id (Some win) (Some (core current)) []]
      ∧ windows σ'
        = <[win := with_slot
                     (Some (mkSlot (core current)
                              (obj_set id this (refs current)))) W]>
            (windows σ).
Proof.
  intros HW Hcur id this.
  assert (∀ p, Keyborg_new win p σ
               = Some (this,
                       put_window win
                         (with_slot
                            (Some (mkSlot (core current)
                                     (obj_set id this (refs current)))) W)
                         (put_keyborg this
                            (mkKeyborg id (Some win) (Some (core current)) [])
                            (with_keyborgs
                               (keyborgs σ
                                  ++ [mkKeyborg id (Some win) None []])
                               (with_lastId (S (_lastId σ)) σ))))) as Hnew.
  { intros p. unfold Keyborg_new. wsimpl. rewrite HW.
    cbn [mbind option_bind]. rewrite Hcur.
    rewrite lookup_app_r by done. rewrite Nat.sub_diag. done. }
  split; [by rewrite !Hnew|].
  eexists. split; [apply Hnew|]. split_and!; try done.
  unfold put_window, put_keyborg. wsimpl. unfold this.
  by rewrite list_insert_snoc.
Qed.

Lemma second_handle_joins_core_witness :
  Keyborg_new 0 (Some (mkProps (Some [KeyA]) None)) pointer_page
  = Keyborg_new 0 None pointer_page
  ∧ ∃ σ',
      Keyborg_new 0 (Some (mkProps (Some [KeyA]) None)) pointer_page
      = Some (length (keyborgs pointer_page), σ')
      ∧ cores σ' = cores pointer_page.
Proof.
  destruct (second_handle_joins_core 0 (Some (mkProps (Some [KeyA]) None))
              pointer_page example_window (mkSlot 0 [("k1"%string, 0)]))
    as (Hsame & σ' & Hnew & _ & Hc & _).
  - vm_compute. reflexivity.
  - reflexivity.
  - split; [exact Hsame|]. exists σ'. by split.
Defined.

(** ** Subscribing and unsubscribing *)

Lemma without_first_Permutation callback cbs :
  callback ∈ cbs → callback :: without_first callback cbs ≡ₚ cbs.
Proof.
  induction cbs as [|x r IH]; [by intros ?%elem_of_nil|].
  simpl. case_decide as Hx.
  - by subst.
  - intros [?|Hin]%elem_of_cons; [by subst|].
    rewrite Permutation_swap. by rewrite IH.
Qed.

Lemma without_first_app_present callback cbs l :
  callback ∈ cbs →
  without_first callback (cbs ++ l) = without_first callback cbs ++ l.
Proof.
  induction cbs as [|x r IH]; [by intros ?%elem_of_nil|].
  simpl. case_decide; [done|].
  intros [?|Hin]%elem_of_cons; [by subst|]. by rewrite IH.
Qed.

(** X9.  Unsubscribing a callback right after subscribing it gives back the
    same callbacks with the same multiplicities.  The list itself is restored
    only when the callback was not subscribed before: otherwise it is the
    earlier occurrence that goes and the new one stays last, so the order of
    notification changes. *)
Theorem unsubscribe_after_subscribe
    (callback : KeyborgCallback) (cbs : list KeyborgCallback) :
  unsubscribed callback (push callback cbs) ≡ₚ cbs
  ∧ (callback ∉ cbs → unsubscribed callback (push callback cbs) = cbs)
  ∧ (callback ∈ cbs →
     unsubscribed callback (push callback cbs)
     = without_first callback cbs ++ [callback]).
Proof.
  rewrite unsubscribed_without_first. unfold push.
  assert (callback ∉ cbs → without_first callback (cbs ++ [callback]) = cbs)
    as Hfresh.
  { intros Hn. rewrite (without_first_middle callback cbs []) by done.
    by rewrite app_nil_r. }
  split_and!.
  - destruct (decide (callback ∈ cbs)) as [Hin|Hn].
    + rewrite without_first_app_present by done.
      rewrite <- (without_first_Permutation callback cbs Hin) at 2.
      by rewrite Permutation_app_comm.
    + by rewrite Hfresh.
  - done.
  - intros Hin. by apply without_first_app_present.
Qed.

Lemma unsubscribe_after_subscribe_witness :
  unsubscribed 7 (push 7 [3; 4]) = [3; 4]
  ∧ unsubscribed 7 (push 7 [7; 3]) = without_first 7 [7; 3] ++ [7].
Proof.
  split.
  - apply (unsubscribe_after_subscribe 7 [3; 4]).
    apply (bool_decide_unpack _). by vm_compute.
  - apply (unsubscribe_after_subscribe 7 [7; 3]).
    apply (bool_decide_unpack _). by vm_compute.
Defined.

(** ** The shape of reachable worlds *)

(** X10.  In every world a page can be in: handle identifiers are pairwise
    different; a window's registry holds each handle under the handle's own
    identifier, and only handles that hold this window; a handle that holds a
    window is in that window's registry; and the core recorded for a window
    holds this window (it has not been disposed). *)
Theorem reachable_registry_shape (σ : World) :
  reachable σ →
  (∀ h1 h2 H1 H2,
     keyborgs σ !! h1 = Some H1 → keyborgs σ !! h2 = Some H2 →
     _id H1 = _id H2 → h1 = h2)
  ∧ (∀ w W slot id h,
       windows σ !! w = Some W → __keyborg W = Some slot →
       (id, h) ∈ refs slot →
       ∃ H, keyborgs σ !! h = Some H ∧ _id H = id ∧ _win H = Some w)
  ∧ (∀ h H w,
       keyborgs σ !! h = Some H → _win H = Some w →
       ∃ W slot, windows σ !! w = Some W ∧ __keyborg W = Some slot
                 ∧ obj_get (_id H) (refs slot) = Some h)
  ∧ (∀ w W slot,
       windows σ !! w = Some W → __keyborg W = Some slot →
       ∃ K, get_core (core slot) σ = Some K ∧ core_win K = Some w
            ∧ KeyborgCore_isDisposed (core slot) σ = Some true).
Proof.
  intros Hwf%reachable_well_formed. split_and!.
  - intros h1 h2 H1 H2 HH1%keyborg_info_lookup HH2%keyborg_info_lookup Hid.
    rewrite Hid in HH1. by eapply (wf_handle_inj σ Hwf).
  - intros w W slot id h HW Hs Hin.
    pose proof (win_slot_lookup _ _ _ HW) as Hslot. rewrite Hs in Hslot.
    apply (wf_slot_handles σ Hwf w slot id h Hslot) in Hin.
    apply keyborg_info_inv in Hin as (H & ? & ? & ?). eauto.
  - intros h H w HH%keyborg_info_lookup Hw. rewrite Hw in HH.
    destruct (wf_handle σ Hwf h _ w HH) as (slot & Hs & Hg).
    apply win_slot_inv in Hs as (W & ? & ?). eauto.
  - intros w W slot HW Hs.
    pose proof (win_slot_lookup _ _ _ HW) as Hslot. rewrite Hs in Hslot.
    destruct (wf_slot_core σ Hwf w slot Hslot) as [cid Hc].
    apply core_info_inv in Hc as (K & HK & _ & HKw).
    exists K. split_and!; try done.
    unfold KeyborgCore_isDisposed. rewrite HK. simpl. by rewrite HKw.
Qed.

Lemma reachable_registry_shape_witness :
  ∃ K, get_core 0 two_handles_page = Some K ∧ core_win K = Some 0
       ∧ KeyborgCore_isDisposed 0 two_handles_page = Some true.
Proof.
  destruct (reachable_registry_shape two_handles_page) as (_ & _ & _ & Hcore).
  - apply page_reachable. vm_compute. eauto.
  - apply (Hcore 0 shared_window
             (mkSlot 0 [("k1"%string, 0); ("k3"%string, 1)]));
      vm_compute; reflexivity.
Defined.

(** ** Listeners never pile up *)

Lemma same_listeners_refl σ : same_listeners σ σ.
Proof. done. Qed.

Lemma same_listeners_trans σ1 σ2 σ3 :
  same_listeners σ1 σ2 → same_listeners σ2 σ3 → same_listeners σ1 σ3.
Proof. unfold same_listeners. congruence. Qed.

Lemma same_listeners_same σ σ' :
  windows σ' = windows σ → same_listeners σ σ'.
Proof. unfold same_listeners. by intros ->. Qed.

Lemma same_listeners_put_window w W W' σ :
  windows σ !! w = Some W → listen_view W' = listen_view W →
  same_listeners σ (put_window w W' σ).
Proof.
  intros HW Hv. unfold same_listeners, put_window. wsimpl.
  rewrite list_fmap_insert, Hv. apply list_insert_id.
  by rewrite list_lookup_fmap, HW.
Qed.

Lemma same_listeners_put_core c K σ : same_listeners σ (put_core c K σ).
Proof. done. Qed.

Lemma same_listeners_put_keyborg h H σ : same_listeners σ (put_keyborg h H σ).
Proof. done. Qed.

Lemma same_listeners_emit es σ : same_listeners σ (emit es σ).
Proof. done. Qed.

Lemma same_listeners_with_now t σ : same_listeners σ (with_now t σ).
Proof. done. Qed.

Lemma same_listeners_remove id σ :
  same_listeners σ (KeyborgState_remove id σ).
Proof. by rewrite KeyborgState_remove_unfold. Qed.

Lemma same_listeners_setTimeout w tk d σ h σ' :
  setTimeout w tk d σ = Some (h, σ') → same_listeners σ σ'.
Proof.
  unfold setTimeout. destruct (windows σ !! w) as [W|] eqn:E; [|done].
  simpl. intros [= <- <-]. by eapply same_listeners_put_window.
Qed.

Lemma same_listeners_clearTimeout w h σ σ' :
  clearTimeout w h σ = Some σ' → same_listeners σ σ'.
Proof.
  unfold clearTimeout. destruct (windows σ !! w) as [W|] eqn:E; [|done].
  simpl. intros [= <-]. by eapply same_listeners_put_window.
Qed.

Lemma for_of_same_listeners {A} xs (body : A → World → option World) σ σ' :
  (∀ x s s', body x s = Some s' → same_listeners s s') →
  for_of xs body σ = Some σ' → same_listeners σ σ'.
Proof.
  intros Hb. revert σ. induction xs as [|x r IH]; intros σ; simpl.
  - by intros [= ->].
  - destruct (body x σ) as [σ1|] eqn:E; [|done].
    intros Hr. eapply same_listeners_trans; [by eapply Hb | by apply IH].
Qed.

Lemma same_listeners_update c b σ σ' :
  KeyborgCore_update c b σ = Some σ' → same_listeners σ σ'.
Proof.
  unfold KeyborgCore_update. destruct (get_core c σ) as [K|]; [|done].
  destruct (core_win K) as [w|]; [|by intros [= <-]].
  destruct (windows _ !! w) as [W|]; [|done].
  destruct (__keyborg W) as [slot|]; [|by intros [= <-]].
  intros Hr.
  eapply same_listeners_trans; [apply (same_listeners_emit [Updated c b])|].
  eapply for_of_same_listeners; [|exact Hr].
  intros id s s'. simpl. destruct (obj_get id (refs slot)); [|done].
  unfold Keyborg_update. destruct (keyborgs s !! _); [|done].
  by intros [= <-].
Qed.

Lemma same_listeners_setVal b σ σ' :
  KeyborgState_setVal b σ = Some σ' → same_listeners σ σ'.
Proof.
  unfold KeyborgState_setVal. case_decide.
  - by intros [= <-].
  - intros Hr.
    eapply same_listeners_trans; [|eapply for_of_same_listeners; [|exact Hr]].
    + done.
    + intros id s s'. simpl.
      destruct (obj_get id _) as [ref|]; [|done].
      destruct (deref ref s).
      * apply same_listeners_update.
      * intros [= <-]. apply same_listeners_remove.
Qed.

Ltac listen_hyp :=
  first
    [ eapply same_listeners_setVal; eassumption
    | eapply same_listeners_setTimeout; eassumption
    | eapply same_listeners_clearTimeout; eassumption ].

Ltac listen_goal :=
  first
    [ apply same_listeners_put_core
    | apply same_listeners_put_keyborg
    | eapply same_listeners_put_window; [eassumption | reflexivity]
    | apply same_listeners_remove
    | apply same_listeners_emit
    | apply same_listeners_with_now ].

Ltac listen :=
  first
    [ apply same_listeners_refl
    | solve [listen_hyp]
    | solve [listen_goal]
    | eapply same_listeners_trans; [|solve [listen_hyp]]; listen
    | eapply same_listeners_trans; [|solve [listen_goal]]; listen ].

Lemma same_listeners_onFocusIn c e σ σ' :
  _onFocusIn c e σ = Some σ' → same_listeners σ σ'.
Proof.
  unfold _onFocusIn. intros H. unbind.
  destruct (_isMouseUsedTimer _); [unbind; listen|].
  destruct (KeyborgState_getVal σ); [unbind; listen|].
  destruct (relatedTarget e); [|unbind; listen].
  destruct (isFocusedProgrammatically e) as [[]|]; unbind; listen.
Qed.

Lemma same_listeners_onMouseDown c e σ σ' :
  _onMouseDown c e σ = Some σ' → same_listeners σ σ'.
Proof.
  unfold _onMouseDown. intros H.
  destruct (_ || _); [unbind; listen|].
  unbind. destruct (core_win _) as [win|]; unbind; [|listen].
  destruct (_isMouseUsedTimer _); unbind; listen.
Qed.

Lemma same_listeners_scheduleDismiss c σ σ' :
  _scheduleDismiss c σ = Some σ' → same_listeners σ σ'.
Proof.
  unfold _scheduleDismiss. intros H. unbind.
  destruct (core_win _) as [win|]; unbind; [|listen].
  destruct (_dismissTimer _); unbind; listen.
Qed.

Lemma same_listeners_onKeyDown c e σ σ' :
  _onKeyDown c e σ = Some σ' → same_listeners σ σ'.
Proof.
  unfold _onKeyDown. intros H. unbind.
  destruct (_ && _); [listen|].
  destruct (_ && _); [by eapply same_listeners_scheduleDismiss|].
  unbind; listen.
Qed.

Lemma same_listeners_run_task tk σ σ' :
  run_task tk σ = Some σ' → same_listeners σ σ'.
Proof.
  destruct tk as [c|c w was]; simpl; intros H; unbind; [listen|].
  destruct was as [a|]; [|unbind; listen].
  destruct (activeElement _) as [b|]; [|unbind; listen].
  case_decide; unbind; listen.
Qed.

Lemma same_listeners_fire_timer w h σ σ' :
  fire_timer w h σ = Some σ' → same_listeners σ σ'.
Proof.
  unfold fire_timer. destruct (ready_timer w h σ) as [t|]; intros H.
  - unbind.
    eapply same_listeners_trans; [|by eapply same_listeners_run_task]. listen.
  - unbind. listen.
Qed.

Lemma tidy_same_listeners σ σ' : same_listeners σ σ' → tidy σ → tidy σ'.
Proof. unfold tidy, same_listeners. by intros ->. Qed.

Lemma KeyborgCore_new_windows win props σ c σ' W :
  windows σ !! win = Some W →
  KeyborgCore_new win props σ = Some (c, σ') →
  c = length (cores σ)
  ∧ windows σ' = <[win := window_after_new c W]> (windows σ)
  ∧ keyborgs σ' = keyborgs σ.
Proof.
  intros HW. pose proof (lookup_lt_Some _ _ _ HW) as Hlt.
  unfold KeyborgCore_new, addEventListener, setupFocusEvent, KeyborgState_add.
  unfold put_window, get_core. wsimpl. rewrite HW.
  cbn [mbind option_bind]. wsimpl.
  repeat (rewrite list_lookup_insert_eq by (by rewrite ?length_insert);
          cbn [mbind option_bind]; wsimpl).
  rewrite lookup_app_r by done. rewrite Nat.sub_diag. simpl.
  rewrite !list_insert_insert_eq.
  case_match; intros [= <- <-]; done.
Qed.

Lemma Keyborg_new_windows win props σ h σ' W :
  windows σ !! win = Some W →
  Keyborg_new win props σ = Some (h, σ') →
  let id := ("k" +:+ pretty (S (_lastId σ)))%string in
  windows σ'
  = <[win := match __keyborg W with
             | Some current =>
                 with_slot
                   (Some (mkSlot (core current)
                            (obj_set id (length (keyborgs σ)) (refs current))))
                   W
             | None =>
                 with_slot
                   (Some (mkSlot (length (cores σ))
                            [(id, length (keyborgs σ))]))
                   (window_after_new (length (cores σ)) W)
             end]> (windows σ).
Proof.
  intros HW. pose proof (lookup_lt_Some _ _ _ HW) as Hlt.
  unfold Keyborg_new. wsimpl. rewrite HW. cbn [mbind option_bind].
  destruct (__keyborg W) as [current|] eqn:Hs.
  - rewrite lookup_app_r by done. rewrite Nat.sub_diag. simpl.
    by intros [= <- <-].
  - destruct (KeyborgCore_new _ _ _) as [[c σ1]|] eqn:Hn; [|done].
    apply (KeyborgCore_new_windows _ _ _ _ _ W) in Hn as (-> & Hw1 & Hk1);
      [|exact HW].
    revert Hw1 Hk1. wsimpl. intros Hw1 Hk1.
    cbn [mbind option_bind]. rewrite Hk1.
    rewrite lookup_app_r by done. rewrite Nat.sub_diag. simpl.
    change (windows (put_keyborg ?a ?b ?s)) with (windows s).
    rewrite Hw1, list_lookup_insert_eq by done. simpl.
    intros [= <- <-]. unfold put_window, put_keyborg. wsimpl.
    by rewrite Hw1, list_insert_insert_eq.
Qed.

Lemma Keyborg_dispose_last_windows h σ H w W cur K :
  keyborgs σ !! h = Some H → _win H = Some w → windows σ !! w = Some W →
  __keyborg W = Some cur → is_Some (obj_get (_id H) (refs cur)) →
  obj_delete (_id H) (refs cur) = [] →
  get_core (core cur) σ = Some K → core_win K = Some w →
  ∃ σ',
    Keyborg_dispose h σ = Some σ'
    ∧ windows σ'
      = <[w := with_slot None (window_after_dispose (core cur) K W)]>
          (windows σ)
    ∧ cores σ'
      = <[core cur := Some (mkCore (core_id K) None None None
                              (_triggerKeys K) (_dismissKeys K))]> (cores σ).
Proof.
  intros HH Hw HW Hcur [h' Hg] Hemp HK HKw.
  pose proof (lookup_lt_Some _ _ _ HW) as Hlt.
  pose proof (get_core_lt _ _ _ HK) as Hc.
  unfold Keyborg_dispose.
  rewrite HH. cbn [mbind option_bind]. rewrite Hw, HW.
  cbn [mbind option_bind]. rewrite Hcur, Hg, Hemp.
  rewrite decide_True by done.
  set (Wa := with_slot (Some (mkSlot (core cur) [])) W).
  rewrite (KeyborgCore_dispose_spec (core cur) (put_window w Wa σ) K w Wa);
    [|exact HK|exact HKw|].
  2:{ unfold put_window. wsimpl. by apply list_lookup_insert_eq. }
  cbn [mbind option_bind]. rewrite KeyborgState_remove_unfold.
  change (windows (with_state ?s ?σ0)) with (windows σ0).
  rewrite put_window_twice.
  assert (windows (put_core (core cur)
                     (mkCore (core_id K) None None None (_triggerKeys K)
                        (_dismissKeys K))
                     (put_window w (window_after_dispose (core cur) K Wa) σ))
          !! w = Some (window_after_dispose (core cur) K Wa)) as HWd
    by apply (focused_window _ _ _ Hlt).
  rewrite HWd. cbn [mbind option_bind].
  change (keyborgs (put_window ?a ?b ?s)) with (keyborgs s).
  change (keyborgs (with_state ?a ?s)) with (keyborgs s).
  change (keyborgs (put_core ?a ?b ?s)) with (keyborgs s).
  change (keyborgs (put_window ?a ?b ?s)) with (keyborgs s).
  rewrite HH. cbn [mbind option_bind].
  eexists. split; [reflexivity|].
  unfold put_keyborg, put_window, put_core. wsimpl.
  by rewrite list_insert_insert_eq.
Qed.

Lemma detach_listeners_of c :
  filter (λ l, l ≠ OnKeyDown c)
    (filter (λ l, l ≠ OnMouseDown c)
       (filter (λ l, l ≠ OnFocusIn c) (listeners_of c))) = [].
Proof.
  unfold listeners_of.
  repeat (rewrite ?filter_cons, ?filter_nil; repeat case_decide; try done).
Qed.

Lemma attach_listeners_of c :
  attached (OnKeyDown c)
    (attached (OnMouseDown c) (attached (OnFocusIn c) [])) = listeners_of c.
Proof.
  unfold attached, listeners_of.
  repeat (case_decide; simpl; try set_solver).
Qed.

Lemma tidy_lookup σ w W :
  tidy σ → windows σ !! w = Some W → tidy_view (listen_view W).
Proof.
  unfold tidy. rewrite Forall_lookup. intros Ht HW.
  apply (Ht w). by rewrite list_lookup_fmap, HW.
Qed.

Lemma tidy_insert σ σ' w W' :
  tidy σ → windows σ' = <[w := W']> (windows σ) →
  tidy_view (listen_view W') → tidy σ'.
Proof.
  unfold tidy. intros Ht -> Hv. rewrite list_fmap_insert.
  by apply Forall_insert.
Qed.

Lemma tidy_new win props σ h σ' :
  tidy σ → Keyborg_new win props σ = Some (h, σ') → tidy σ'.
Proof.
  intros Ht Hn.
  destruct (windows σ !! win) as [W|] eqn:HW.
  2:{ unfold Keyborg_new in Hn. revert Hn. wsimpl. by rewrite HW. }
  pose proof (Keyborg_new_windows _ _ _ _ _ _ HW Hn) as Hw.
  pose proof (tidy_lookup _ _ _ Ht HW) as Hv.
  eapply tidy_insert; [exact Ht|exact Hw|].
  revert Hv. unfold tidy_view, listen_view. simpl.
  destruct (__keyborg W) as [current|]; simpl; [done|].
  intros [-> _]. by rewrite attach_listeners_of.
Qed.

Lemma tidy_dispose h σ σ' :
  well_formed σ → tidy σ → Keyborg_dispose h σ = Some σ' → tidy σ'.
Proof.
  intros Hwf Ht Hd.
  destruct (keyborgs σ !! h) as [H|] eqn:HH;
    [|by unfold Keyborg_dispose in Hd; rewrite HH in Hd].
  destruct (handle_registered h σ) eqn:Hreg.
  - unfold handle_registered in Hreg. rewrite HH in Hreg.
    destruct (_win H) as [w|] eqn:Hw; [|done].
    destruct (windows σ !! w) as [W|] eqn:HW; [|done].
    destruct (__keyborg W) as [cur|] eqn:Hcur; [|done].
    destruct (obj_get (_id H) (refs cur)) as [h'|] eqn:Hg; [|done].
    pose proof (tidy_lookup _ _ _ Ht HW) as Hv.
    revert Hv. unfold tidy_view, listen_view. simpl. rewrite Hcur. simpl.
    intros [Hl Hf].
    destruct (decide (obj_delete (_id H) (refs cur) = [])) as [Hemp|Hne].
    + destruct (wf_slot_core σ Hwf w cur) as [id Hci].
      { by rewrite (win_slot_lookup _ _ _ HW), Hcur. }
      apply core_info_inv in Hci as (K & HK & _ & HKw).
      destruct (Keyborg_dispose_last_windows h σ H w W cur K)
        as (σ2 & Hd2 & Hw2 & _); eauto.
      rewrite Hd2 in Hd. injection Hd as <-.
      eapply tidy_insert; [exact Ht|exact Hw2|].
      unfold tidy_view, listen_view. simpl.
      by rewrite Hl, detach_listeners_of.
    + rewrite (Keyborg_dispose_shared h σ H w W cur) in Hd by eauto.
      injection Hd as <-.
      eapply tidy_insert; [exact Ht|reflexivity|].
      unfold tidy_view, listen_view. simpl. by rewrite Hl, Hf.
  - destruct (Keyborg_dispose_unregistered h σ H HH) as (σ2 & Hd2 & Hw2 & _).
    + intros w Hw.
      destruct (wf_handle σ Hwf h (_id H) w) as (slot & Hs & _).
      { by rewrite (keyborg_info_lookup _ _ _ HH), Hw. }
      apply win_slot_inv in Hs as (W & -> & _). eauto.
    + done.
    + rewrite Hd2 in Hd. injection Hd as <-.
      eapply tidy_same_listeners; [|exact Ht]. by apply same_listeners_same.
Qed.

Lemma same_listeners_dispatch w pick handler σ σ' :
  (∀ c s s', handler c s = Some s' → same_listeners s s') →
  dispatch w pick handler σ = Some σ' → same_listeners σ σ'.
Proof.
  intros Hh. unfold dispatch. destruct (windows σ !! w) as [W|]; [|done].
  simpl. by apply for_of_same_listeners.
Qed.

Lemma tidy_perform a σ σ' :
  well_formed σ → tidy σ → perform a σ = Some σ' → tidy σ'.
Proof.
  intros Hwf Ht.
  destruct a as [|win props|h|h cb|h cb|h b|w e|w e|w e|w el|w t|ms]; simpl.
  - intros [= <-]. unfold tidy. wsimpl. rewrite fmap_app.
    apply Forall_app. split; [exact Ht|]. by repeat constructor.
  - unfold createKeyborg.
    destruct (Keyborg_new win props σ) as [[h σ1]|] eqn:Hn; [|done].
    simpl. intros [= <-]. by eapply tidy_new.
  - by apply tidy_dispose.
  - unfold Keyborg_subscribe. intros H. unbind.
    eapply tidy_same_listeners; [|exact Ht]. listen.
  - unfold Keyborg_unsubscribe. intros H. unbind.
    eapply tidy_same_listeners; [|exact Ht]. listen.
  - destruct (keyborgs σ !! h); [|done]. unfold Keyborg_setVal. intros H.
    eapply tidy_same_listeners; [|exact Ht]. listen.
  - intros H. eapply tidy_same_listeners; [|exact Ht].
    eapply same_listeners_dispatch; [|exact H].
    intros c s s'. apply same_listeners_onFocusIn.
  - intros H. eapply tidy_same_listeners; [|exact Ht].
    eapply same_listeners_dispatch; [|exact H].
    intros c s s'. apply same_listeners_onMouseDown.
  - intros H. eapply tidy_same_listeners; [|exact Ht].
    eapply same_listeners_dispatch; [|exact H].
    intros c s s'. apply same_listeners_onKeyDown.
  - intros H. unbind. eapply tidy_same_listeners; [|exact Ht]. listen.
  - intros H. eapply tidy_same_listeners; [|exact Ht].
    by eapply same_listeners_fire_timer.
  - intros [= <-]. eapply tidy_same_listeners; [|exact Ht].
    by apply same_listeners_same.
Qed.

Lemma reachable_tidy σ : reachable σ → tidy σ.
Proof.
  intros (dev & script & Hrun).
  assert (tidy (initial_world dev)) as Hinit by apply Forall_nil_2.
  pose proof (well_formed_initial dev) as Hwf.
  revert Hrun Hinit Hwf. generalize (initial_world dev).
  induction script as [|a r IH]; intros σ0; simpl.
  - by intros [= <-].
  - destruct (perform a σ0) as [σ1|] eqn:E; [|done].
    intros Hr Ht Hwf. apply (IH σ1); [done| |].
    + by eapply tidy_perform.
    + by eapply well_formed_perform.
Qed.

Lemma for_of_one {A} (x : A) (body : A → World → option World) σ :
  for_of [x] body σ = body x σ.
Proof. simpl. by destruct (body x σ). Qed.

(** X11.  In every world a page can be in, a window that has a [__keyborg]
    entry carries exactly the three listeners of the entry's core, each once
    and in the order the constructor attaches them, and has the focus-event
    shim installed, however many handles were created for it and disposed;
    a window without an entry carries no listener and no shim. *)
Theorem reachable_listeners (σ : World) (w : win_ref) (W : Window) :
  reachable σ → windows σ !! w = Some W →
  match __keyborg W with
  | Some current =>
      listeners W = listeners_of (core current)
      ∧ focusEventInstalled W = true
  | None => listeners W = [] ∧ focusEventInstalled W = false
  end.
Proof.
  intros Hr HW. pose proof (tidy_lookup _ _ _ (reachable_tidy _ Hr) HW) as Hv.
  revert Hv. unfold tidy_view, listen_view. simpl.
  by destruct (__keyborg W).
Qed.

Lemma reachable_listeners_witness :
  listeners shared_window = [OnFocusIn 0; OnMouseDown 0; OnKeyDown 0]
  ∧ focusEventInstalled shared_window = true.
Proof.
  apply (reachable_listeners two_handles_page 0 shared_window).
  - apply page_reachable. vm_compute. eauto.
  - vm_compute. reflexivity.
Defined.

(** X12.  In every world a page can be in, an event on a window is handled
    by the one core of the window's [__keyborg] entry, and only by it: the
    page's reaction to a key press, a mouse press or a focus-in is that
    core's handler, run once.  On a window without an entry (none created
    yet, or all handles disposed) the three events change nothing. *)
Theorem events_reach_the_window_core
    (σ : World) (w : win_ref) (W : Window) :
  reachable σ → windows σ !! w = Some W →
  match __keyborg W with
  | Some current =>
      (∀ e, perform (KeyDown w e) σ = _onKeyDown (core current) e σ)
      ∧ (∀ e, perform (MouseDown w e) σ = _onMouseDown (core current) e σ)
      ∧ (∀ e, perform (FocusIn w e) σ = _onFocusIn (core current) e σ)
  | None =>
      (∀ e, perform (KeyDown w e) σ = Some σ)
      ∧ (∀ e, perform (MouseDown w e) σ = Some σ)
      ∧ (∀ e, perform (FocusIn w e) σ = Some σ)
  end.
Proof.
  intros Hr HW. pose proof (tidy_lookup _ _ _ (reachable_tidy _ Hr) HW) as Hv.
  revert Hv. unfold tidy_view, listen_view. simpl.
  destruct (__keyborg W) as [current|]; simpl; intros [Hl _];
    split_and!; intros e; unfold dispatch; rewrite HW;
    cbn [mbind option_bind]; rewrite Hl; simpl; try done;
    by destruct (_ (core current) e σ).
Qed.

Lemma events_reach_the_window_core_witness :
  perform (KeyDown 0 (mkKeyboardEvent Tab)) two_handles_page
  = _onKeyDown 0 (mkKeyboardEvent Tab) two_handles_page.
Proof.
  destruct (events_reach_the_window_core two_handles_page 0 shared_window)
    as [Hev _].
  - apply page_reachable. vm_compute. eauto.
  - vm_compute. reflexivity.
  - apply Hev.
Defined.

(** ** Identifiers are not reused *)

Lemma ids_grow_refl σ : ids_grow σ σ.
Proof. split; [done | by left]. Qed.

Lemma ids_grow_trans σ1 σ2 σ3 :
  ids_grow σ1 σ2 → ids_grow σ2 σ3 → ids_grow σ1 σ3.
Proof.
  intros [Hc1 Hr1] [Hc2 Hr2]. split; [lia|].
  intros e [He|(m & ? & ?)]%Hr2.
  - apply Hr1 in He as [?|(m & ? & ?)]; [by left|].
    right. exists m. split; [done | lia].
  - right. exists m. split; [done | lia].
Qed.

Lemma ids_grow_same σ σ' :
  _lastId σ' = _lastId σ → _state σ' = _state σ → ids_grow σ σ'.
Proof. intros Hc Hs. split; [lia|]. intros e. rewrite Hs. by left. Qed.

Lemma ids_grow_put_window w W σ : ids_grow σ (put_window w W σ).
Proof. by apply ids_grow_same. Qed.

Lemma ids_grow_put_keyborg h H σ : ids_grow σ (put_keyborg h H σ).
Proof. by apply ids_grow_same. Qed.

Lemma ids_grow_put_core c K σ : ids_grow σ (put_core c K σ).
Proof. by apply ids_grow_same. Qed.

Lemma ids_grow_emit es σ : ids_grow σ (emit es σ).
Proof. by apply ids_grow_same. Qed.

Lemma ids_grow_with_now t σ : ids_grow σ (with_now t σ).
Proof. by apply ids_grow_same. Qed.

Lemma ids_grow_remove id σ : ids_grow σ (KeyborgState_remove id σ).
Proof.
  rewrite KeyborgState_remove_unfold. split; [done|].
  intros e [? _]%obj_delete_elem_pair. by left.
Qed.

Lemma for_of_ids_grow {A} xs (body : A → World → option World) σ σ' :
  (∀ x s s', body x s = Some s' → ids_grow s s') →
  for_of xs body σ = Some σ' → ids_grow σ σ'.
Proof.
  intros Hb. revert σ. induction xs as [|x r IH]; intros σ; simpl.
  - intros [= ->]. apply ids_grow_refl.
  - destruct (body x σ) as [σ1|] eqn:E; [|done].
    intros Hr. eapply ids_grow_trans; [by eapply Hb | by apply IH].
Qed.

Lemma ids_grow_update c b σ σ' :
  KeyborgCore_update c b σ = Some σ' → ids_grow σ σ'.
Proof.
  unfold KeyborgCore_update. destruct (get_core c σ) as [K|]; [|done].
  destruct (core_win K) as [w|]; [|intros [= <-]; apply ids_grow_emit].
  destruct (windows _ !! w) as [W|]; [|done].
  destruct (__keyborg W) as [slot|];
    [|intros [= <-]; apply ids_grow_emit].
  intros Hr. eapply ids_grow_trans; [apply (ids_grow_emit [Updated c b])|].
  eapply for_of_ids_grow; [|exact Hr].
  intros id s s'. simpl. destruct (obj_get id (refs slot)); [|done].
  unfold Keyborg_update. destruct (keyborgs s !! _); [|done].
  intros [= <-]. apply ids_grow_emit.
Qed.

Lemma ids_grow_setVal b σ σ' :
  KeyborgState_setVal b σ = Some σ' → ids_grow σ σ'.
Proof.
  unfold KeyborgState_setVal. case_decide.
  - intros [= <-]. apply ids_grow_refl.
  - intros Hr.
    eapply ids_grow_trans; [|eapply for_of_ids_grow; [|exact Hr]].
    + split; [done | by left].
    + intros id s s'. simpl.
      destruct (obj_get id _) as [ref|]; [|done].
      destruct (deref ref s).
      * apply ids_grow_update.
      * intros [= <-]. apply ids_grow_remove.
Qed.

Ltac grows_goal :=
  first
    [ apply ids_grow_put_core
    | apply ids_grow_put_window
    | apply ids_grow_put_keyborg
    | apply ids_grow_remove
    | apply ids_grow_emit
    | apply ids_grow_with_now ].

Ltac grows :=
  first
    [ apply ids_grow_refl
    | solve [eapply ids_grow_setVal; eassumption]
    | solve [grows_goal]
    | eapply ids_grow_trans; [|solve [eapply ids_grow_setVal; eassumption]];
      grows
    | eapply ids_grow_trans; [|solve [grows_goal]]; grows ].

Lemma ids_grow_onFocusIn c e σ σ' :
  _onFocusIn c e σ = Some σ' → ids_grow σ σ'.
Proof.
  unfold _onFocusIn. intros H. unbind.
  destruct (_isMouseUsedTimer _); [unbind; grows|].
  destruct (KeyborgState_getVal σ); [unbind; grows|].
  destruct (relatedTarget e); [|unbind; grows].
  destruct (isFocusedProgrammatically e) as [[]|]; unbind; grows.
Qed.

Lemma ids_grow_onMouseDown c e σ σ' :
  _onMouseDown c e σ = Some σ' → ids_grow σ σ'.
Proof.
  unfold _onMouseDown. intros H. unfold_host.
  destruct (_ || _); [unbind; grows|].
  unbind. destruct (core_win _) as [win|]; unbind; [|grows].
  destruct (_isMouseUsedTimer _); unbind; grows.
Qed.

Lemma ids_grow_scheduleDismiss c σ σ' :
  _scheduleDismiss c σ = Some σ' → ids_grow σ σ'.
Proof.
  unfold _scheduleDismiss. intros H. unfold_host. unbind.
  destruct (core_win _) as [win|]; unbind; [|grows].
  destruct (_dismissTimer _); unbind; grows.
Qed.

Lemma ids_grow_onKeyDown c e σ σ' :
  _onKeyDown c e σ = Some σ' → ids_grow σ σ'.
Proof.
  unfold _onKeyDown. intros H. unbind.
  destruct (_ && _); [grows|].
  destruct (_ && _); [by eapply ids_grow_scheduleDismiss|].
  unbind; grows.
Qed.

Lemma ids_grow_run_task tk σ σ' :
  run_task tk σ = Some σ' → ids_grow σ σ'.
Proof.
  destruct tk as [c|c w was]; simpl; intros H; unbind; [grows|].
  destruct was as [a|]; [|unbind; grows].
  destruct (activeElement _) as [b|]; [|unbind; grows].
  case_decide; unbind; grows.
Qed.

Lemma ids_grow_fire_timer w h σ σ' :
  fire_timer w h σ = Some σ' → ids_grow σ σ'.
Proof.
  unfold fire_timer. destruct (ready_timer w h σ) as [t|]; intros H.
  - unfold_host. unbind.
    eapply ids_grow_trans; [|by eapply ids_grow_run_task]. grows.
  - unbind. grows.
Qed.

Lemma ids_grow_core_dispose c σ σ' :
  KeyborgCore_dispose c σ = Some σ' → ids_grow σ σ'.
Proof.
  unfold KeyborgCore_dispose. intros H. unfold_host. unbind.
  destruct (core_win _) as [win|]; [|unbind; grows].
  unbind.
  assert (ids_grow σ w) as H1.
  { clear E1. destruct (_isMouseUsedTimer _); unbind; grows. }
  assert (ids_grow w w0) as H2.
  { clear E. destruct (_dismissTimer _); unbind; grows. }
  eapply ids_grow_trans; [exact H1|].
  eapply ids_grow_trans; [exact H2|]. grows.
Qed.

Lemma ids_grow_dispose h σ σ' :
  Keyborg_dispose h σ = Some σ' → ids_grow σ σ'.
Proof.
  unfold Keyborg_dispose, report_misuse. intros H. unbind.
  eapply ids_grow_trans; [|apply ids_grow_put_keyborg].
  destruct (_win _) as [w1|]; [|destruct (__DEV__ σ); unbind; grows].
  unbind.
  destruct (__keyborg _) as [cur|]; [|destruct (__DEV__ σ); unbind; grows].
  destruct (obj_get _ _); [|destruct (__DEV__ σ); unbind; grows].
  case_decide; unbind; [|grows].
  eapply ids_grow_trans; [|apply ids_grow_put_window].
  eapply ids_grow_trans; [|by eapply ids_grow_core_dispose].
  grows.
Qed.

(** The state singleton and the counter after [new KeyborgCore]. *)
Lemma KeyborgCore_new_state win props σ c σ' :
  KeyborgCore_new win props σ = Some (c, σ') →
  let id := ("c" +:+ pretty (S (_lastId σ)))%string in
  _lastId σ' = S (_lastId σ)
  ∧ trace σ' = trace σ
  ∧ cores σ'
    = cores σ
      ++ [Some (mkCore id (Some win) None None
                  (props ≫= λ p, keys_of_props (triggerKeys p))
                  (props ≫= λ p, keys_of_props (dismissKeys p)))]
  ∧ _state σ'
    = if obj_has id (__keyborgCoreRefs (_state σ)) then _state σ
      else mkKeyborgState
             (obj_set id (mkWeakRef (length (cores σ)))
                (__keyborgCoreRefs (_state σ)))
             (_isNavigatingWithKeyboard (_state σ)).
Proof.
  destruct (windows σ !! win) as [W|] eqn:HW.
  2:{ unfold KeyborgCore_new, addEventListener. wsimpl. by rewrite HW. }
  pose proof (lookup_lt_Some _ _ _ HW) as Hlt.
  unfold KeyborgCore_new, addEventListener, setupFocusEvent, KeyborgState_add.
  unfold put_window, get_core. wsimpl. rewrite HW.
  cbn [mbind option_bind]. wsimpl.
  repeat (rewrite list_lookup_insert_eq by (by rewrite ?length_insert);
          cbn [mbind option_bind]; wsimpl).
  rewrite lookup_app_r by done. rewrite Nat.sub_diag. simpl.
  case_match; intros [= <- <-]; done.
Qed.

Lemma ids_grow_core_new win props σ c σ' :
  KeyborgCore_new win props σ = Some (c, σ') → ids_grow σ σ'.
Proof.
  intros (Hl & _ & _ & Hs)%KeyborgCore_new_state. split; [lia|].
  intros e. rewrite Hs, Hl. destruct (obj_has _ _); [by left|]. simpl.
  destruct e as [id r]. intros [[= -> ->]|?]%obj_set_elem; [|by left].
  right. exists (S (_lastId σ)). simpl. split; [done | lia].
Qed.

Lemma ids_grow_new win props σ h σ' :
  Keyborg_new win props σ = Some (h, σ') → ids_grow σ σ'.
Proof.
  unfold Keyborg_new. intros H. wsimpl. unbind.
  assert (ids_grow σ (with_keyborgs
                        (keyborgs σ
                           ++ [mkKeyborg ("k" +:+ pretty (S (_lastId σ)))
                                 (Some win) None []])
                        (with_lastId (S (_lastId σ)) σ))) as H0.
  { split; [simpl; lia | by left]. }
  destruct (__keyborg _) as [cur|]; unbind.
  - eapply ids_grow_trans; [exact H0 | grows].
  - eapply ids_grow_trans; [|apply ids_grow_put_window].
    eapply ids_grow_trans; [|apply ids_grow_put_keyborg].
    eapply ids_grow_trans; [exact H0|]. by eapply ids_grow_core_new.
Qed.

Lemma ids_grow_perform a σ σ' : perform a σ = Some σ' → ids_grow σ σ'.
Proof.
  destruct a; simpl; intros H.
  - injection H as <-. by apply ids_grow_same.
  - unfold createKeyborg in H.
    destruct (Keyborg_new win props σ) as [[h σ1]|] eqn:E; simplify_eq/=.
    by eapply ids_grow_new.
  - by eapply ids_grow_dispose.
  - unfold Keyborg_subscribe in H. unbind. grows.
  - unfold Keyborg_unsubscribe in H. unbind. grows.
  - destruct (keyborgs σ !! instance); [|done]. by eapply ids_grow_setVal.
  - unfold dispatch in H. unbind. eapply for_of_ids_grow; [|done].
    intros c s s' Hh. simpl in Hh. by eapply ids_grow_onFocusIn.
  - unfold dispatch in H. unbind. eapply for_of_ids_grow; [|done].
    intros c s s' Hh. simpl in Hh. by eapply ids_grow_onMouseDown.
  - unfold dispatch in H. unbind. eapply for_of_ids_grow; [|done].
    intros c s s' Hh. simpl in Hh. by eapply ids_grow_onKeyDown.
  - unbind. grows.
  - by eapply ids_grow_fire_timer.
  - injection H as <-. apply ids_grow_with_now.
Qed.

Lemma ids_grow_issued σ σ' : ids_grow σ σ' → ids_issued σ → ids_issued σ'.
Proof.
  intros [Hl Hr] Hi e [He|(m & ? & ?)]%Hr.
  - destruct (Hi e He) as (m & ? & ?). exists m. split; [done | lia].
  - exists m. split; [done | lia].
Qed.

Lemma reachable_ids_issued σ : reachable σ → ids_issued σ.
Proof.
  intros (dev & script & Hrun).
  assert (ids_issued (initial_world dev)) as Hinit
    by (by intros e ?%elem_of_nil).
  revert Hrun Hinit. generalize (initial_world dev).
  induction script as [|a r IH]; intros σ0; simpl.
  - by intros [= <-].
  - destruct (perform a σ0) as [σ1|] eqn:E; [|done].
    intros Hr Hl. apply (IH σ1); [done|].
    eapply ids_grow_issued; [|done]. by eapply ids_grow_perform.
Qed.

Lemma ids_issued_fresh σ (n : nat) :
  ids_issued σ → _lastId σ < n →
  obj_get ("c" +:+ pretty n)%string (__keyborgCoreRefs (_state σ)) = None.
Proof.
  intros Hi Hn. apply obj_get_None_keys. unfold obj_keys.
  rewrite list_elem_of_fmap. intros (e & He & Hin).
  destruct (Hi e Hin) as (m & Hm & Hle). rewrite Hm in He.
  apply id_inj in He. lia.
Qed.

(** ** Creating a handle and disposing it again *)

Lemma KeyborgCore_new_total win props σ :
  is_Some (windows σ !! win) → is_Some (KeyborgCore_new win props σ).
Proof.
  intros [W HW]. pose proof (lookup_lt_Some _ _ _ HW) as Hlt.
  unfold KeyborgCore_new, addEventListener, setupFocusEvent, KeyborgState_add.
  unfold put_window, get_core. wsimpl. rewrite HW.
  cbn [mbind option_bind]. wsimpl.
  repeat (rewrite list_lookup_insert_eq by (by rewrite ?length_insert);
          cbn [mbind option_bind]; wsimpl).
  rewrite lookup_app_r by done. rewrite Nat.sub_diag. simpl.
  case_match; eauto.
Qed.

(** [new Keyborg] on a window without a [__keyborg] entry: one handle and
    one core are allocated. *)
Lemma Keyborg_new_fresh win props σ W :
  windows σ !! win = Some W → __keyborg W = None →
  let n := S (_lastId σ) in
  let id := ("k" +:+ pretty n)%string in
  let cid := ("c" +:+ pretty (S n))%string in
  let h := length (keyborgs σ) in
  let c := length (cores σ) in
  ∃ σ',
    Keyborg_new win props σ = Some (h, σ')
    ∧ windows σ'
      = <[win := with_slot (Some (mkSlot c [(id, h)])) (window_after_new c W)]>
          (windows σ)
    ∧ keyborgs σ' = keyborgs σ ++ [mkKeyborg id (Some win) (Some c) []]
    ∧ cores σ'
      = cores σ
        ++ [Some (mkCore cid (Some win) None None
                    (props ≫= λ p, keys_of_props (triggerKeys p))
                    (props ≫= λ p, keys_of_props (dismissKeys p)))]
    ∧ _lastId σ' = S n
    ∧ trace σ' = trace σ
    ∧ _state σ'
      = if obj_has cid (__keyborgCoreRefs (_state σ)) then _state σ
        else mkKeyborgState
               (obj_set cid (mkWeakRef c) (__keyborgCoreRefs (_state σ)))
               (_isNavigatingWithKeyboard (_state σ)).
Proof.
  intros HW Hs n id cid h c.
  pose proof (lookup_lt_Some _ _ _ HW) as Hlt.
  set (σa := with_keyborgs (keyborgs σ ++ [mkKeyborg id (Some win) None []])
               (with_lastId n σ)).
  destruct (KeyborgCore_new_total win props σa) as [[c1 σ1] Hn];
    [by exists W|].
  assert (windows σa !! win = Some W) as HWa by exact HW.
  pose proof (KeyborgCore_new_windows _ _ _ _ _ W HWa Hn) as (-> & Hw1 & Hk1).
  pose proof (KeyborgCore_new_state _ _ _ _ _ Hn) as (Hl1 & Ht1 & Hc1 & Hs1).
  change (windows σa) with (windows σ) in Hw1.
  change (keyborgs σa)
    with (keyborgs σ ++ [mkKeyborg id (Some win) None []]) in Hk1.
  change (_lastId σa) with n in Hl1, Hs1.
  change (trace σa) with (trace σ) in Ht1.
  change (cores σa) with (cores σ) in *.
  change (_state σa) with (_state σ) in Hs1.
  eexists. split.
  { unfold Keyborg_new. wsimpl. rewrite HW. cbn [mbind option_bind].
    rewrite Hs. fold n id σa. rewrite Hn. cbn [mbind option_bind].
    rewrite Hk1. rewrite lookup_app_r by done. rewrite Nat.sub_diag. simpl.
    change (windows (put_keyborg ?a ?b ?s)) with (windows s).
    rewrite Hw1, list_lookup_insert_eq by done. simpl. reflexivity. }
  unfold put_window, put_keyborg. wsimpl. split_and!.
  - by rewrite Hw1, list_insert_insert_eq.
  - rewrite Hk1. by rewrite list_insert_snoc.
  - done.
  - done.
  - done.
  - done.
Qed.

(** X13.  In every world a page can be in, creating a handle on a window
    that has none and disposing it straight away succeeds and leaves the page
    as it was: the windows (listeners, timers, focus-event shim and
    [__keyborg] entry included), the core registry of the state singleton and
    the trace are those from before.  What remains are the disposed handle
    and the disposed core in their stores, with the two identifiers they
    used up; and the state's value, which is reset to [false] when no core is
    registered. *)
Theorem create_then_dispose
    (σ : World) (win : win_ref) (W : Window) (props : option KeyborgProps) :
  reachable σ → windows σ !! win = Some W → __keyborg W = None →
  let id := ("k" +:+ pretty (S (_lastId σ)))%string in
  let cid := ("c" +:+ pretty (S (S (_lastId σ))))%string in
  ∃ σ1 σ2,
    createKeyborg win props σ = Some (length (keyborgs σ), σ1)
    ∧ disposeKeyborg (length (keyborgs σ)) σ1 = Some σ2
    ∧ windows σ2 = windows σ
    ∧ __keyborgCoreRefs (_state σ2) = __keyborgCoreRefs (_state σ)
    ∧ KeyborgState_getVal σ2
      = (if decide (__keyborgCoreRefs (_state σ) = []) then false
         else KeyborgState_getVal σ)
    ∧ trace σ2 = trace σ
    ∧ _lastId σ2 = S (S (_lastId σ))
    ∧ keyborgs σ2 = keyborgs σ ++ [mkKeyborg id None None []]
    ∧ cores σ2
      = cores σ
        ++ [Some (mkCore cid None None None
                    (props ≫= λ p, keys_of_props (triggerKeys p))
                    (props ≫= λ p, keys_of_props (dismissKeys p)))].
Proof.
  intros Hr HW Hs id cid.
  pose proof (tidy_lookup _ _ _ (reachable_tidy _ Hr) HW) as Hv.
  revert Hv. unfold tidy_view, listen_view. simpl. rewrite Hs. simpl.
  intros [Hl Hf].
  assert (obj_get cid (__keyborgCoreRefs (_state σ)) = None) as Hfresh
    by (apply ids_issued_fresh; [by apply reachable_ids_issued | lia]).
  destruct (Keyborg_new_fresh win props σ W HW Hs)
    as (σ1 & Hn & Hw1 & Hk1 & Hc1 & Hl1 & Ht1 & Hs1).
  fold id cid in Hn, Hw1, Hk1, Hc1, Hs1.
  unfold obj_has in Hs1. rewrite Hfresh in Hs1.
  rewrite (obj_set_absent _ _ _ Hfresh) in Hs1.
  set (h := length (keyborgs σ)) in *. set (c := length (cores σ)) in *.
  set (K := mkCore cid (Some win) None None
              (props ≫= λ p, keys_of_props (triggerKeys p))
              (props ≫= λ p, keys_of_props (dismissKeys p))) in *.
  set (W1 := with_slot (Some (mkSlot c [(id, h)])) (window_after_new c W))
    in *.
  pose proof (lookup_lt_Some _ _ _ HW) as Hlt.
  assert (keyborgs σ1 !! h = Some (mkKeyborg id (Some win) (Some c) []))
    as HH.
  { rewrite Hk1. rewrite lookup_app_r by done. unfold h.
    by rewrite Nat.sub_diag. }
  assert (windows σ1 !! win = Some W1) as HW1
    by (by rewrite Hw1, list_lookup_insert_eq).
  assert (get_core c σ1 = Some K) as HK.
  { unfold get_core. rewrite Hc1. rewrite lookup_app_r by done. unfold c.
    by rewrite Nat.sub_diag. }
  assert (obj_get id [(id, h)] = Some h) as Hg
    by (simpl; by rewrite decide_True).
  assert (obj_delete id [(id, h)] = []) as Hd
    by (simpl; by rewrite decide_True).
  destruct (Keyborg_dispose_last h σ1 _ win W1 (mkSlot c [(id, h)]) K
              HH eq_refl HW1 eq_refl (mk_is_Some _ _ Hg) Hd HK eq_refl)
    as (σ2 & W2 & K2 & Hdis & _ & _ & _ & _ & Hs2 & Hk2 & Ht2).
  destruct (Keyborg_dispose_last_windows h σ1 _ win W1 (mkSlot c [(id, h)]) K
              HH eq_refl HW1 eq_refl (mk_is_Some _ _ Hg) Hd HK eq_refl)
    as (σ2' & Hdis' & Hw2 & Hc2).
  rewrite Hdis in Hdis'. injection Hdis' as <-.
  assert (_lastId σ2 = _lastId σ1) as Hl2.
  { by destruct (Keyborg_dispose_views _ _ _ Hdis) as (? & ? & _ & Heq & _). }
  exists σ1, σ2. split; [exact Hn|]. split; [exact Hdis|].
  rewrite KeyborgState_remove_unfold in Hs2. simpl in Hs2.
  rewrite Hs1 in Hs2. simpl in Hs2.
  rewrite obj_delete_middle in Hs2;
    [|by apply obj_get_None_keys|by intros ?%elem_of_nil].
  rewrite app_nil_r in Hs2.
  split_and!.
  - rewrite Hw2, Hw1, list_insert_insert_eq. apply list_insert_id.
    rewrite HW. f_equal. destruct W as [s a ts nt ls f]. simpl in *.
    subst s ls f. unfold with_slot, window_after_dispose, window_after_new.
    simpl. f_equal. rewrite attach_listeners_of. symmetry.
    apply detach_listeners_of.
  - by rewrite Hs2.
  - unfold KeyborgState_getVal. by rewrite Hs2.
  - by rewrite Ht2.
  - by rewrite Hl2.
  - rewrite Hk2, Hk1. unfold h. by rewrite list_insert_snoc.
  - rewrite Hc2, Hc1. cbn [core]. unfold c. by rewrite list_insert_snoc.
Qed.

Lemma create_then_dispose_witness :
  ∃ σ1 σ2,
    createKeyborg 0 None (page [OpenWindow]) = Some (0, σ1)
    ∧ disposeKeyborg 0 σ1 = Some σ2
    ∧ windows σ2 = windows (page [OpenWindow]).
Proof.
  destruct (create_then_dispose (page [OpenWindow]) 0 pristine_window None)
    as (σ1 & σ2 & H1 & H2 & H3 & _).
  - apply page_reachable. vm_compute. eauto.
  - vm_compute. reflexivity.
  - reflexivity.
  - exists σ1, σ2. split; [exact H1|]. split; [exact H2 | exact H3].
Defined.

(** X14.  In every world a page can be in, the keys of the core registry
    are core identifiers the counter has issued, so the identifier of a new
    core is never taken: constructing a core on an open window succeeds,
    enters the core last in the registry under its new identifier, leaves
    the state's value alone, and attaches the core's three listeners and the
    focus-event shim to the window. *)
Theorem new_core_is_registered_last
    (σ : World) (win : win_ref) (W : Window) (props : option KeyborgProps) :
  reachable σ → windows σ !! win = Some W →
  let cid := ("c" +:+ pretty (S (_lastId σ)))%string in
  let c := length (cores σ) in
  (∀ e, e ∈ __keyborgCoreRefs (_state σ) →
        ∃ m : nat, e.1 = ("c" +:+ pretty m)%string ∧ m ≤ _lastId σ)
  ∧ ∃ σ',
      KeyborgCore_new win props σ = Some (c, σ')
      ∧ __keyborgCoreRefs (_state σ')
        = __keyborgCoreRefs (_state σ) ++ [(cid, mkWeakRef c)]
      ∧ KeyborgState_getVal σ' = KeyborgState_getVal σ
      ∧ windows σ' = <[win := window_after_new c W]> (windows σ)
      ∧ _lastId σ' = S (_lastId σ).
Proof.
  intros Hr HW cid c.
  pose proof (reachable_ids_issued _ Hr) as Hi. split; [exact Hi|].
  assert (obj_get cid (__keyborgCoreRefs (_state σ)) = None) as Hfresh
    by (apply ids_issued_fresh; [done | lia]).
  destruct (KeyborgCore_new_total win props σ) as [[c1 σ1] Hn]; [by exists W|].
  pose proof (KeyborgCore_new_windows _ _ _ _ _ W HW Hn) as (-> & Hw1 & _).
  pose proof (KeyborgCore_new_state _ _ _ _ _ Hn) as (Hl1 & _ & _ & Hs1).
  fold cid in Hs1. unfold obj_has in Hs1. rewrite Hfresh in Hs1.
  rewrite (obj_set_absent _ _ _ Hfresh) in Hs1.
  exists σ1. split; [exact Hn|]. unfold KeyborgState_getVal.
  rewrite Hs1. by split_and!.
Qed.

Lemma new_core_is_registered_last_witness :
  ∃ σ',
    KeyborgCore_new 0 None pointer_page = Some (1, σ')
    ∧ __keyborgCoreRefs (_state σ')
      = __keyborgCoreRefs (_state pointer_page)
        ++ [("c3"%string, mkWeakRef 1)].
Proof.
  destruct (new_core_is_registered_last pointer_page 0 example_window None)
    as (_ & σ' & H1 & H2 & _).
  - apply page_reachable. vm_compute. eauto.
  - vm_compute. reflexivity.
  - exists σ'. split; [exact H1 | exact H2].
Defined.
